(** * The Gemini request gateway of [src/index.tsx]

    A shallow embedding of the quota cooldown ([setGeminiQuotaExhaustedCooldown]),
    the error classifier ([parseGeminiError]) and the two retrying calls
    ([generateWordDetailsWithGemini], [generateImageForWordWithGemini]),
    followed by the properties the specification states about them.

    Conventions of the embedding:
    - a JavaScript value of type [any] is a [JsVal]: a primitive, a plain
      object with its own properties, or an array; no value is a function.
      Numbers are integers of a magnitude below 10^21, which print in full
      (the code only tests a number for truthiness and for [=== 429]);
    - strings are byte strings; [toLowerCase]/[toUpperCase] act on the ASCII
      letters, which is what the searched words and the compared status
      consist of;
    - the module-level variables, the browser's timer queue, its clock and
      the Loading Flag form a [World]; a call is a function from a world to
      a result value, a final world and the events it emitted, in order;
    - execution is sequential: one call runs from entry to exit, and the
      only callbacks that run while it sleeps are timers that are due; the
      time an awaited request takes is not counted;
    - the service is a function from the attempt index to what that
      attempt produced, a returned answer or a thrown value;
    - exceptions are values: a helper that can throw returns an [Attempt],
      a block of statements a [Completion], an [async] call a [Settled]
      promise.  The one exception that leaves a call is the [TypeError] of
      [String(error)] in [parseGeminiError] (line 320), thrown inside the
      [catch] block for an error that cannot be printed. *)

From Stdlib Require Import String Ascii ZArith List Bool Lia DecimalString Permutation.
Import ListNotations.
Open Scope string_scope.
Open Scope Z_scope.

Set Warnings "-register-all".

(** ** JavaScript values *)

Inductive JsVal : Type :=
| JUndefined
| JNull
| JBool (b : bool)
| JNum (n : Z)
| JStr (s : string)
| JObj (fields : list (string * JsVal))
| JArr (items : list JsVal).

(** [v.k] for a value that is neither [null] nor [undefined]; none of the
    property names read by the code exists on a primitive or on an array. *)
Fixpoint lookup (k : string) (fields : list (string * JsVal)) : JsVal :=
  match fields with
  | [] => JUndefined
  | (k', v) :: rest => if String.eqb k k' then v else lookup k rest
  end.

Definition get (v : JsVal) (k : string) : JsVal :=
  match v with
  | JObj fields => lookup k fields
  | _ => JUndefined
  end.

(** ToBoolean *)
Definition truthy (v : JsVal) : bool :=
  match v with
  | JUndefined | JNull => false
  | JBool b => b
  | JNum n => negb (n =? 0)
  | JStr s => negb (String.eqb s "")
  | JObj _ | JArr _ => true
  end.

(** [typeof v === 'string'] and [typeof v === 'number'] *)
Definition is_string (v : JsVal) : bool :=
  match v with JStr _ => true | _ => false end.

Definition is_number (v : JsVal) : bool :=
  match v with JNum _ => true | _ => false end.

Definition join (sep : string) (parts : list string) : string :=
  match parts with
  | [] => ""
  | p :: rest => fold_left (fun acc q => acc ++ sep ++ q) rest p
  end.

(** [Object.hasOwn(obj, k)] *)
Definition hasOwn (k : string) (fields : list (string * JsVal)) : bool :=
  existsb (fun kv => String.eqb k (fst kv)) fields.

(** [Object.hasOwn(v, k)] for any value: none of the property names the
    code reads is an own property of a primitive or of an array. *)
Definition hasOwnProperty (v : JsVal) (k : string) : bool :=
  match v with
  | JObj fields => hasOwn k fields
  | _ => false
  end.

(** What a call produces: the value it returns or the value it throws.
    It is used for the helpers of the code that can throw and for the
    attempts at the service (lines 399-406 and 488-493). *)
Inductive Attempt (R : Type) : Type :=
| Returned (r : R)
| Threw (e : JsVal).
Arguments Returned {R} _.
Arguments Threw {R} _.

(** [String(v)], [None] where it throws a [TypeError].  A plain object
    prints as [[object Object]] through [Object.prototype.toString]; an
    object with an own [toString] property hides that method behind a value
    that is not callable, so the conversion falls back on
    [Object.prototype.valueOf], gets the object itself and throws.  An array
    prints as its elements joined by commas, [null] and [undefined] as
    nothing, and throws when an element does. *)
Fixpoint js_String (v : JsVal) : option string :=
  match v with
  | JUndefined => Some "undefined"
  | JNull => Some "null"
  | JBool true => Some "true"
  | JBool false => Some "false"
  | JNum n => Some (NilZero.string_of_int (Z.to_int n))
  | JStr s => Some s
  | JObj fields => if hasOwn "toString" fields then None else Some "[object Object]"
  | JArr items =>
      option_map (join ",")
        ((fix each (xs : list JsVal) : option (list string) :=
            match xs with
            | [] => Some []
            | x :: rest =>
                match (match x with
                       | JUndefined | JNull => Some ""
                       | _ => js_String x
                       end), each rest with
                | Some printed, Some others => Some (printed :: others)
                | _, _ => None
                end
            end) items)
  end.

(** The [TypeError] of a conversion that found no primitive. *)
Definition typeErrorToPrimitive : JsVal :=
  JObj [("message", JStr "Cannot convert object to primitive value")].

(** ** Strings *)

Definition lower_ascii (c : ascii) : ascii :=
  let n := nat_of_ascii c in
  if (Nat.leb 65 n && Nat.leb n 90)%bool then ascii_of_nat (n + 32) else c.

Definition upper_ascii (c : ascii) : ascii :=
  let n := nat_of_ascii c in
  if (Nat.leb 97 n && Nat.leb n 122)%bool then ascii_of_nat (n - 32) else c.

Fixpoint map_string (f : ascii -> ascii) (s : string) : string :=
  match s with
  | EmptyString => EmptyString
  | String c rest => String (f c) (map_string f rest)
  end.

Definition toLowerCase : string -> string := map_string lower_ascii.
Definition toUpperCase : string -> string := map_string upper_ascii.

(** [hay.includes(needle)] *)
Fixpoint includes (hay needle : string) : bool :=
  if prefix needle hay then true
  else match hay with
       | EmptyString => false
       | String _ rest => includes rest needle
       end.

(** ** parseGeminiError (lines 316-353) *)

Record ParsedError : Type := mkParsedError {
  detailedErrorMessage : string;
  statusCode : option Z;
  geminiErrorStatus : option string;
  isQuotaExhaustedError : bool;
  isRateLimitErrorForRetry : bool;
  displayErrorMsg : string
}.

(** [statusCode === 429] and [!statusCode] on [number | undefined] *)
Definition is429 (c : option Z) : bool :=
  match c with Some n => n =? 429 | None => false end.

Definition noStatusCode (c : option Z) : bool :=
  match c with Some n => n =? 0 | None => true end.

(** [geminiErrorStatus === 'RESOURCE_EXHAUSTED'] *)
Definition isResourceExhausted (s : option string) : bool :=
  match s with Some t => String.eqb t "RESOURCE_EXHAUSTED" | None => false end.

(** Lines 322-351, once line 320 has computed [shown = String(error)]
    (line 340 computes the same string again). *)
Definition parsedFrom (shown : string) (error : JsVal) : ParsedError :=
  let '(detailed, display, code, status) :=
    if (truthy error && truthy (get error "error")
        && is_string (get (get error "error") "message"))%bool
    then
      let inner := get error "error" in
      let message := match get inner "message" with JStr m => m | _ => "" end in
      (toLowerCase message,
       message,
       match get inner "code" with JNum n => Some n | _ => None end,
       match get inner "status" with JStr s => Some (toUpperCase s) | _ => None end)
    else if (truthy error && is_string (get error "message"))%bool
    then
      let message := match get error "message" with JStr m => m | _ => "" end in
      (toLowerCase message,
       message,
       (if (truthy (get error "status") && is_number (get error "status"))%bool
        then match get error "status" with JNum n => Some n | _ => None end
        else None),
       None)
    else
      (toLowerCase shown, shown, None, None)
  in
  let quota :=
    ((is429 code && (includes detailed "quota" || isResourceExhausted status))
     || (noStatusCode code && includes detailed "quota"
         && (includes detailed "exceeded" || includes detailed "exhausted"))
     || isResourceExhausted status)%bool in
  let rateLimit := (is429 code && negb quota)%bool in
  mkParsedError detailed code status quota rateLimit display.

(** [parseGeminiError]: its first statement that can throw is the
    [String(error)] of line 320, whatever the shape of [error]; the
    properties read afterwards are read of truthy values only. *)
Definition parseGeminiError (error : JsVal) : Attempt ParsedError :=
  match js_String error with
  | None => Threw typeErrorToPrimitive
  | Some shown => Returned (parsedFrom shown error)
  end.

(** ** The world: module state, timers, clock, Loading Flag *)

Inductive Level : Type := success | error | warning | info.

Inductive Feature : Type := WordDetails | ImageGeneration.

(** The texts handed to [addToast], one constructor per template of the
    source, carrying the values the template interpolates. *)
Inductive Message : Type :=
| MsgNoApiKey (f : Feature)                                   (* 360, 471 *)
| MsgQuotaSkipped (f : Feature) (term : string)               (* 365, 475 *)
| MsgIncompleteRetry (f : Feature) (term : string) (i retries : Z) (* 411, 500 *)
| MsgIncompleteFinal (f : Feature) (term : string)            (* 416, 505 *)
| MsgRateLimitRetry (f : Feature) (term : string) (delay : Z) (* 435, 522 *)
| MsgErrorRetry (f : Feature) (term : string) (delay : Z) (shown : string) (* 437, 524 *)
| MsgRateLimitFinal (f : Feature) (term : string)             (* 443, 530 *)
| MsgErrorFinal (f : Feature) (term : string) (shown : string) (* 445, 532 *)
| MsgFailedAfterLoop (f : Feature) (term : string)            (* 455, 542 *)
| MsgImageDone (term : string)                                (* 495 *)
| MsgCooldownStarted (featureName : option string) (minutes : Z) (* 299 *)
| MsgCooldownOver (featureName : option string).              (* 310 *)

Inductive Event : Type :=
| EToast (m : Message) (l : Level)      (* addToast(message, type) *)
| ELoading (b : bool)                   (* setGlobalLoading(b) *)
| ERequest (f : Feature) (i : Z)        (* ai.models.generateContent / generateImages *)
| ESleep (ms : Z).                      (* await new Promise(r => setTimeout(r, ms)) *)

(** A pending [window.setTimeout] of the cooldown: its handle, the instant
    it is due and the [featureName] its closure captured. *)
Record Timer : Type := mkTimer {
  tid : Z;
  due : Z;
  tfeature : option string
}.

Record World : Type := mkWorld {
  ai : bool;                               (* ai !== null *)
  isCurrentlyGeminiQuotaExhausted : bool;
  quotaCooldownTimeoutId : option Z;
  globalLoading : bool;
  clock : Z;
  nextTimerId : Z;
  pendingTimers : list Timer
}.

Definition GEMINI_QUOTA_COOLDOWN_MS : Z := 15 * 60 * 1000.

(** The state at module load (lines 264, 280, 281), for a client that is
    initialised or not. *)
Definition initialWorld (client : bool) : World :=
  mkWorld client false None false 0 1 [].

(** ** A state-and-output monad for the calls *)

Record Run (A : Type) : Type := mkRun {
  value : A;
  final : World;
  emitted : list Event
}.
Arguments mkRun {A} _ _ _.
Arguments value {A} _.
Arguments final {A} _.
Arguments emitted {A} _.

Definition M (A : Type) : Type := World -> Run A.

Definition ret {A : Type} (a : A) : M A := fun w => mkRun a w [].

Definition bind {A B : Type} (m : M A) (f : A -> M B) : M B :=
  fun w =>
    let r := m w in
    let r' := f (value r) (final r) in
    mkRun (value r') (final r') (emitted r ++ emitted r').

Declare Scope gateway_scope.
Delimit Scope gateway_scope with gw.
Notation "x <- m ;; k" := (bind m (fun x => k))
  (at level 61, m at next level, right associativity) : gateway_scope.
Notation "m ;; k" := (bind m (fun _ => k))
  (at level 61, right associativity) : gateway_scope.
Open Scope gateway_scope.

Definition gets {A : Type} (f : World -> A) : M A := fun w => mkRun (f w) w [].
Definition modify (f : World -> World) : M unit := fun w => mkRun tt (f w) [].
Definition emit (e : Event) : M unit := fun w => mkRun tt w [e].

Definition addToast (m : Message) (l : Level) : M unit := emit (EToast m l).

Definition set_exhausted (b : bool) (w : World) : World :=
  mkWorld (ai w) b (quotaCooldownTimeoutId w) (globalLoading w)
          (clock w) (nextTimerId w) (pendingTimers w).

Definition set_timeoutId (i : option Z) (w : World) : World :=
  mkWorld (ai w) (isCurrentlyGeminiQuotaExhausted w) i (globalLoading w)
          (clock w) (nextTimerId w) (pendingTimers w).

Definition set_loading (b : bool) (w : World) : World :=
  mkWorld (ai w) (isCurrentlyGeminiQuotaExhausted w) (quotaCooldownTimeoutId w) b
          (clock w) (nextTimerId w) (pendingTimers w).

Definition set_clock (t : Z) (w : World) : World :=
  mkWorld (ai w) (isCurrentlyGeminiQuotaExhausted w) (quotaCooldownTimeoutId w)
          (globalLoading w) t (nextTimerId w) (pendingTimers w).

Definition set_nextTimerId (n : Z) (w : World) : World :=
  mkWorld (ai w) (isCurrentlyGeminiQuotaExhausted w) (quotaCooldownTimeoutId w)
          (globalLoading w) (clock w) n (pendingTimers w).

Definition set_pending (l : list Timer) (w : World) : World :=
  mkWorld (ai w) (isCurrentlyGeminiQuotaExhausted w) (quotaCooldownTimeoutId w)
          (globalLoading w) (clock w) (nextTimerId w) l.

Definition setGlobalLoading (b : bool) : M unit :=
  modify (set_loading b) ;; emit (ELoading b).

(** ** Timers *)

(** [window.setTimeout(callback, ms)]: a fresh handle, due [ms] from now. *)
Definition setTimeout (featureName : option string) (ms : Z) : M Z :=
  fun w =>
    let id := nextTimerId w in
    mkRun id
          (set_nextTimerId (id + 1)
             (set_pending (pendingTimers w ++ [mkTimer id (clock w + ms) featureName]) w))
          [].

(** [clearTimeout(id)] *)
Definition clearTimeout (id : Z) : M unit :=
  modify (fun w => set_pending (filter (fun t => negb (tid t =? id)) (pendingTimers w)) w).

(** [featureName ? a : b] on an optional string *)
Definition named (featureName : option string) : option string :=
  match featureName with
  | Some s => if String.eqb s "" then None else Some s
  | None => None
  end.

(** The callback of lines 306-311. *)
Definition cooldownExpired (featureName : option string) : M unit :=
  modify (set_exhausted false) ;;
  modify (set_timeoutId None) ;;
  addToast (MsgCooldownOver (named featureName)) info.

(** The event loop runs the callbacks of the timers that are due at [t], in
    the order they were scheduled, each removed from the queue as it runs. *)
Fixpoint fireDue (t : Z) (queue : list Timer) : M unit :=
  match queue with
  | [] => ret tt
  | tm :: rest =>
      if due tm <=? t
      then clearTimeout (tid tm) ;; cooldownExpired (tfeature tm) ;; fireDue t rest
      else fireDue t rest
  end.

(** Time passes until the clock reads [t] (it never runs backwards). *)
Definition advance (t : Z) : M unit :=
  now <- gets clock ;;
  let t' := Z.max now t in
  queue <- gets pendingTimers ;;
  fireDue t' queue ;;
  modify (set_clock t').

(** [await new Promise(resolve => setTimeout(resolve, ms))] *)
Definition sleep (ms : Z) : M unit :=
  emit (ESleep ms) ;;
  modify (fun w => set_nextTimerId (nextTimerId w + 1) w) ;;
  now <- gets clock ;;
  advance (now + ms).

(** ** setGeminiQuotaExhaustedCooldown (lines 285-313) *)

Definition setGeminiQuotaExhaustedCooldown (featureName : option string) : M unit :=
  exhausted <- gets isCurrentlyGeminiQuotaExhausted ;;
  if negb exhausted then
    let cooldownMinutes := GEMINI_QUOTA_COOLDOWN_MS / 60000 in
    modify (set_exhausted true) ;;
    addToast (MsgCooldownStarted (named featureName) cooldownMinutes) error ;;
    old <- gets quotaCooldownTimeoutId ;;
    match old with
    | Some id => if negb (id =? 0) then clearTimeout id else ret tt
    | None => ret tt
    end ;;
    id <- setTimeout featureName GEMINI_QUOTA_COOLDOWN_MS ;;
    modify (set_timeoutId (Some id))
  else ret tt.

(** ** The retrying calls *)

(** One attempt at the service is an [Attempt]: what the awaited SDK call
    (and, for the word lookup, the [JSON.parse] of its text, lines 399-406)
    produced. *)

(** How a block of statements completes. *)
Inductive Completion (A : Type) : Type :=
| Normal
| Return (a : A)
| Throw (e : JsVal).
Arguments Normal {A}.
Arguments Return {A} _.
Arguments Throw {A} _.

(** How the promise of an [async] function settles. *)
Inductive Settled (A : Type) : Type :=
| Resolved (a : A)
| Rejected (e : JsVal).
Arguments Resolved {A} _.
Arguments Rejected {A} _.

(** [try { body } finally { cleanup }], for a [cleanup] that completes
    normally: it runs however [body] completed - normally, by a [return] or
    by a [throw] - and that completion then stands. *)
Definition tryFinally {A : Type} (body : M (Completion A)) (cleanup : M unit)
  : M (Completion A) :=
  c <- body ;;
  match c with
  | Normal => cleanup ;; ret Normal
  | Return v => cleanup ;; ret (Return v)
  | Throw e => cleanup ;; ret (Throw e)
  end.

Definition request {R : Type} (f : Feature) (svc : Z -> Attempt R) (i : Z)
  : M (Attempt R) :=
  emit (ERequest f i) ;; ret (svc i).

(** [featureDescription] (lines 371 and 480) *)
Definition featureDescription (f : Feature) (term : string) : string :=
  match f with
  | WordDetails => "'" ++ term ++ "' 단어 정보 조회"
  | ImageGeneration => "'" ++ term ++ "' AI 이미지 생성"
  end.

(** The [catch] block shared, statement for statement, by the two calls
    (lines 422-449 and 509-536); [next] is the rest of the loop.  What
    [parseGeminiError] throws is thrown by the block: nothing catches it. *)
Definition catchBlock {A : Type} (f : Feature) (term : string)
    (retries i currentDelay : Z) (next : M (Completion (option A)))
    (err : JsVal) : M (Completion (option A)) :=
  match parseGeminiError err with
  | Threw thrown => ret (Throw thrown)
  | Returned p =>
      if isQuotaExhaustedError p then
        setGeminiQuotaExhaustedCooldown (Some (featureDescription f term)) ;;
        ret (Return None)
      else if i <? retries then
        (if isRateLimitErrorForRetry p
         then addToast (MsgRateLimitRetry f term currentDelay) warning
         else addToast (MsgErrorRetry f term currentDelay (displayErrorMsg p)) warning) ;;
        sleep currentDelay ;;
        next
      else
        (if isRateLimitErrorForRetry p
         then addToast (MsgRateLimitFinal f term) error
         else addToast (MsgErrorFinal f term (displayErrorMsg p)) error) ;;
        ret (Return None)
  end.

(** *** generateWordDetailsWithGemini (lines 357-457) *)

Definition isNullish (v : JsVal) : bool :=
  match v with JUndefined | JNull => true | _ => false end.

(** The [TypeError] of reading a property of [null] or [undefined]. *)
Definition typeErrorReading (v : JsVal) (prop : string) : JsVal :=
  JObj [("message",
         JStr ("Cannot read properties of "
               ++ match v with JNull => "null" | _ => "undefined" end
               ++ " (reading '" ++ prop ++ "')"))].

(** [!data.partOfSpeech || !data.meaning || !data.exampleSentence] *)
Definition missingEssentialFields (data : JsVal) : bool :=
  (negb (truthy (get data "partOfSpeech"))
   || negb (truthy (get data "meaning"))
   || negb (truthy (get data "exampleSentence")))%bool.

(** The loop of line 387, [for (let i = 0; i <= retries; i++)]: [remaining]
    counts the iterations left, [retries + 1 - i]. *)
Fixpoint wordAttempts (svc : Z -> Attempt JsVal) (term : string) (retries : Z)
    (remaining : nat) (i currentDelay : Z) : M (Completion (option JsVal)) :=
  match remaining with
  | O => ret Normal
  | S remaining' =>
      let next := wordAttempts svc term retries remaining' (i + 1) (currentDelay * 2) in
      r <- request WordDetails svc i ;;
      match r with
      | Threw e => catchBlock WordDetails term retries i currentDelay next e
      | Returned data =>
          if isNullish data then
            catchBlock WordDetails term retries i currentDelay next
                       (typeErrorReading data "partOfSpeech")
          else if missingEssentialFields data then
            if i <? retries then
              addToast (MsgIncompleteRetry WordDetails term (i + 1) (retries + 1)) warning ;;
              sleep currentDelay ;;
              next
            else
              addToast (MsgIncompleteFinal WordDetails term) error ;;
              ret (Return (Some (JObj [("term", JStr term)])))
          else ret (Return (Some data))
      end
  end.

Definition generateWordDetailsWithGemini (svc : Z -> Attempt JsVal)
    (term : string) (retries initialDelay : Z) : M (Settled (option JsVal)) :=
  client <- gets ai ;;
  if negb client then
    addToast (MsgNoApiKey WordDetails) warning ;;
    ret (Resolved None)
  else
    exhausted <- gets isCurrentlyGeminiQuotaExhausted ;;
    if exhausted then
      addToast (MsgQuotaSkipped WordDetails term) warning ;;
      ret (Resolved None)
    else
      setGlobalLoading true ;;
      c <- tryFinally
             (wordAttempts svc term retries (Z.to_nat (retries + 1)) 0 initialDelay)
             (setGlobalLoading false) ;;
      match c with
      | Return v => ret (Resolved v)
      | Throw e => ret (Rejected e)
      | Normal =>
          addToast (MsgFailedAfterLoop WordDetails term) error ;;
          ret (Resolved None)
      end.

(** *** generateImageForWordWithGemini (lines 469-544) *)

(** The SDK's response to [generateImages], as far as line 494 reads it. *)
Record Image : Type := mkImage { imageBytes : option string }.
Record GeneratedImage : Type := mkGeneratedImage { image : option Image }.
Record GenerateImagesResponse : Type := mkGenerateImagesResponse {
  generatedImages : option (list GeneratedImage)
}.

(** The test of line 494; when it holds, the bytes line 496 returns. *)
Definition firstImageBytes (response : GenerateImagesResponse) : option string :=
  match generatedImages response with
  | Some (g :: _) =>
      match image g with
      | Some im =>
          match imageBytes im with
          | Some bytes => if String.eqb bytes "" then None else Some bytes
          | None => None
          end
      | None => None
      end
  | _ => None
  end.

Fixpoint imageAttempts (svc : Z -> Attempt GenerateImagesResponse)
    (wordTerm : string) (retries : Z)
    (remaining : nat) (i currentDelay : Z) : M (Completion (option string)) :=
  match remaining with
  | O => ret Normal
  | S remaining' =>
      let next := imageAttempts svc wordTerm retries remaining' (i + 1) (currentDelay * 2) in
      r <- request ImageGeneration svc i ;;
      match r with
      | Threw e => catchBlock ImageGeneration wordTerm retries i currentDelay next e
      | Returned response =>
          match firstImageBytes response with
          | Some bytes =>
              addToast (MsgImageDone wordTerm) success ;;
              ret (Return (Some bytes))
          | None =>
              if i <? retries then
                addToast (MsgIncompleteRetry ImageGeneration wordTerm (i + 1) (retries + 1))
                         warning ;;
                sleep currentDelay ;;
                next
              else
                addToast (MsgIncompleteFinal ImageGeneration wordTerm) error ;;
                ret (Return None)
          end
      end
  end.

Definition generateImageForWordWithGemini (svc : Z -> Attempt GenerateImagesResponse)
    (wordTerm : string) (retries initialDelay : Z) : M (Settled (option string)) :=
  client <- gets ai ;;
  if negb client then
    addToast (MsgNoApiKey ImageGeneration) warning ;;
    ret (Resolved None)
  else
    exhausted <- gets isCurrentlyGeminiQuotaExhausted ;;
    if exhausted then
      addToast (MsgQuotaSkipped ImageGeneration wordTerm) warning ;;
      ret (Resolved None)
    else
      setGlobalLoading true ;;
      c <- tryFinally
             (imageAttempts svc wordTerm retries (Z.to_nat (retries + 1)) 0 initialDelay)
             (setGlobalLoading false) ;;
      match c with
      | Return v => ret (Resolved v)
      | Throw e => ret (Rejected e)
      | Normal =>
          addToast (MsgFailedAfterLoop ImageGeneration wordTerm) error ;;
          ret (Resolved None)
      end.

(** ** Reading a run *)

Definition requestCount (es : list Event) : nat :=
  length (filter (fun e => match e with ERequest _ _ => true | _ => false end) es).

Fixpoint toastLevels (es : list Event) : list Level :=
  match es with
  | [] => []
  | EToast _ l :: rest => l :: toastLevels rest
  | _ :: rest => toastLevels rest
  end.

Fixpoint sleepDelays (es : list Event) : list Z :=
  match es with
  | [] => []
  | ESleep ms :: rest => ms :: sleepDelays rest
  | _ :: rest => sleepDelays rest
  end.

Definition isLevel (l : Level) (e : Event) : bool :=
  match e, l with
  | EToast _ success, success | EToast _ error, error
  | EToast _ warning, warning | EToast _ info, info => true
  | _, _ => false
  end.

Definition levelCount (l : Level) (es : list Event) : nat :=
  length (filter (isLevel l) es).

Fixpoint loadingChanges (es : list Event) : list bool :=
  match es with
  | [] => []
  | ELoading b :: rest => b :: loadingChanges rest
  | _ :: rest => loadingChanges rest
  end.

(** What holds of every world the program can reach: the flag is set
    exactly while the one cooldown timer is pending. *)
Definition consistent (w : World) : bool :=
  match quotaCooldownTimeoutId w, pendingTimers w with
  | None, [] => negb (isCurrentlyGeminiQuotaExhausted w)
  | Some id, [tm] => (isCurrentlyGeminiQuotaExhausted w && (tid tm =? id))%bool
  | _, _ => false
  end.

(** [initialDelay * 2^k] for [k = 0 .. n-1] *)
Definition backoff (initialDelay : Z) (n : nat) : list Z :=
  map (fun k => initialDelay * 2 ^ Z.of_nat k) (seq 0 n).

(** The two error shapes the classifier reads. *)
Definition nestedError (message : string) (code : option Z) (status : string) : JsVal :=
  JObj [("error",
         JObj (("message", JStr message)
               :: match code with
                  | Some n => [("code", JNum n)]
                  | None => []
                  end
               ++ [("status", JStr status)]))].

Definition flatError (message : string) (status : JsVal) : JsVal :=
  JObj [("message", JStr message); ("status", status)].

(** ** Vocabulary of the proofs *)

Definition isInfoToast (e : Event) : bool :=
  match e with EToast _ info => true | _ => false end.

(** The events of timer callbacks: info notifications only. *)
Definition timerNoise (es : list Event) : Prop := forallb isInfoToast es = true.

(** What the caller gets once the [try ... finally] around the loop is
    over: the loop's [return] value, or the fall-through of lines 454-456. *)
Definition afterLoop {A : Type} (f : Feature) (term : string)
    (c : Completion (option A)) : Settled (option A) * list Event :=
  match c with
  | Return v => (Resolved v, [])
  | Throw e => (Rejected e, [])
  | Normal => (Resolved None, [EToast (MsgFailedAfterLoop f term) error])
  end.

(** A started call in terms of its loop, whichever the feature. *)
Definition started {A : Type} (f : Feature) (term : string)
    (body : Run (Completion (option A))) : Run (Settled (option A)) :=
  mkRun (fst (afterLoop f term (value body)))
        (set_loading false (final body))
        (ELoading true :: emitted body
           ++ ELoading false :: snd (afterLoop f term (value body))).

(** The message of a retry and of the last failure (lines 434-438, 442-446). *)
Definition retryMessage (f : Feature) (term : string) (currentDelay : Z)
    (p : ParsedError) : Message :=
  if isRateLimitErrorForRetry p
  then MsgRateLimitRetry f term currentDelay
  else MsgErrorRetry f term currentDelay (displayErrorMsg p).

Definition finalMessage (f : Feature) (term : string) (p : ParsedError) : Message :=
  if isRateLimitErrorForRetry p
  then MsgRateLimitFinal f term
  else MsgErrorFinal f term (displayErrorMsg p).

(** A run with some events emitted before it. *)
Definition after {A : Type} (es : list Event) (r : Run A) : Run A :=
  mkRun (value r) (final r) (es ++ emitted r).

(** One attempt, classified the way the loop bodies branch on it. *)
Inductive Outcome (A : Type) : Type :=
| Complete (v : A)
| Incomplete
| Failed (e : JsVal).
Arguments Complete {A} _.
Arguments Incomplete {A}.
Arguments Failed {A} _.

Definition classifyWord (a : Attempt JsVal) : Outcome JsVal :=
  match a with
  | Threw e => Failed e
  | Returned data =>
      if isNullish data then Failed (typeErrorReading data "partOfSpeech")
      else if missingEssentialFields data then Incomplete
      else Complete data
  end.

Definition classifyImage (a : Attempt GenerateImagesResponse) : Outcome string :=
  match a with
  | Threw e => Failed e
  | Returned response =>
      match firstImageBytes response with
      | Some bytes => Complete bytes
      | None => Incomplete
      end
  end.

(** The notification of a complete answer: line 495 has one, line 420 none. *)
Definition announce (f : Feature) (term : string) : M unit :=
  match f with
  | WordDetails => ret tt
  | ImageGeneration => addToast (MsgImageDone term) success
  end.

(** The common shape of [wordAttempts] and [imageAttempts]; [degraded] is
    what an incomplete answer leaves to return on the last attempt. *)
Fixpoint attempts {A : Type} (f : Feature) (term : string) (degraded : option A)
    (outcome : Z -> Outcome A) (retries : Z)
    (remaining : nat) (i currentDelay : Z) : M (Completion (option A)) :=
  match remaining with
  | O => ret Normal
  | S remaining' =>
      let next := attempts f term degraded outcome retries remaining'
                           (i + 1) (currentDelay * 2) in
      emit (ERequest f i) ;;
      match outcome i with
      | Failed e => catchBlock f term retries i currentDelay next e
      | Complete v => announce f term ;; ret (Return (Some v))
      | Incomplete =>
          if i <? retries then
            addToast (MsgIncompleteRetry f term (i + 1) (retries + 1)) warning ;;
            sleep currentDelay ;;
            next
          else
            addToast (MsgIncompleteFinal f term) error ;;
            ret (Return degraded)
      end
  end.

(** What the last attempt leaves to return when it is not a success. *)
Definition lastResort {A : Type} (degraded : option A) (o : Outcome A) : option A :=
  match o with
  | Incomplete => degraded
  | _ => None
  end.

(** An attempt after which the loop goes on, budget permitting: an
    incomplete answer, or an error the classifier reads and does not find
    to be quota exhaustion. *)
Definition retryable {A : Type} (o : Outcome A) : bool :=
  match o with
  | Complete _ => false
  | Incomplete => true
  | Failed e =>
      match parseGeminiError e with
      | Returned p => negb (isQuotaExhaustedError p)
      | Threw _ => false
      end
  end.

(** An attempt that threw a value on which the classifier throws. *)
Definition unreadable {A : Type} (o : Outcome A) : bool :=
  match o with
  | Failed e =>
      match parseGeminiError e with
      | Returned _ => false
      | Threw _ => true
      end
  | _ => false
  end.

(** A thrown error that the classifier finds to be neither quota
    exhaustion nor a 429. *)
Definition genericError (e : JsVal) : Prop :=
  exists p, parseGeminiError e = Returned p
            /\ isQuotaExhaustedError p = false
            /\ isRateLimitErrorForRetry p = false.

(** A parsed payload on which the test of line 408 holds. *)
Definition incompleteWordPayload (a : Attempt JsVal) : Prop :=
  exists data, a = Returned data
               /\ isNullish data = false
               /\ missingEssentialFields data = true.

(** A response on which the test of line 494 fails. *)
Definition incompleteImageResponse (a : Attempt GenerateImagesResponse) : Prop :=
  exists response, a = Returned response /\ firstImageBytes response = None.

(** A started call that met a quota error at its first attempt: null is
    returned after exactly one request and no sleep, the flag is set and
    the cooldown timer is pending under the recorded handle. *)
Definition enteredCooldownAtOnce {A : Type} (f : Feature) (term : string)
    (w : World) (r : Run (Settled (option A))) : Prop :=
  value r = Resolved None
  /\ emitted r
     = [ELoading true;
        ERequest f 0;
        EToast (MsgCooldownStarted (Some (featureDescription f term)) 15) error;
        ELoading false]
  /\ requestCount (emitted r) = 1%nat
  /\ sleepDelays (emitted r) = []
  /\ isCurrentlyGeminiQuotaExhausted (final r) = true
  /\ quotaCooldownTimeoutId (final r) = Some (nextTimerId w)
  /\ In (mkTimer (nextTimerId w) (clock w + GEMINI_QUOTA_COOLDOWN_MS)
                 (Some (featureDescription f term)))
        (pendingTimers (final r)).

(** A started call: the Loading Flag goes up first, comes down once, after
    the last request, and is down when the call is over. *)
Definition loadingBracketsCall {A : Type} (r : Run A) : Prop :=
  exists during afterwards,
    emitted r = ELoading true :: during ++ ELoading false :: afterwards
    /\ loadingChanges during = []
    /\ loadingChanges afterwards = []
    /\ requestCount afterwards = 0%nat
    /\ globalLoading (final r) = false.

(** A call that used its whole budget on failures of the given kind. *)
Definition budgetUsed {A : Type} (retries initialDelay : Z) (r : Run A) : Prop :=
  requestCount (emitted r) = Z.to_nat (retries + 1)
  /\ sleepDelays (emitted r) = backoff initialDelay (Z.to_nat retries)
  /\ levelCount warning (emitted r) = Z.to_nat retries
  /\ levelCount error (emitted r) = 1%nat.

(** ** Further vocabulary: decisive attempts *)

(** An attempt that threw an error classified as quota exhaustion. *)
Definition quotaFailure {A : Type} (o : Outcome A) : bool :=
  match o with
  | Failed e =>
      match parseGeminiError e with
      | Returned p => isQuotaExhaustedError p
      | Threw _ => false
      end
  | _ => false
  end.

(** The service never throws an error classified as quota exhaustion. *)
Definition neverQuota {R : Type} (svc : Z -> Attempt R) : Prop :=
  forall j e p, svc j = Threw e -> parseGeminiError e = Returned p ->
                isQuotaExhaustedError p = false.

(** The classifier reads every value the service throws: none makes the
    [String(error)] of line 320 throw. *)
Definition readableErrors {R : Type} (svc : Z -> Attempt R) : Prop :=
  forall j e, svc j = Threw e -> exists p, parseGeminiError e = Returned p.

(** A parsed payload that passes the test of line 408. *)
Definition completeWordPayload (a : Attempt JsVal) (data : JsVal) : Prop :=
  a = Returned data
  /\ isNullish data = false
  /\ missingEssentialFields data = false.

(** A response that passes the test of line 494, with the bytes it holds. *)
Definition completeImageResponse (a : Attempt GenerateImagesResponse)
    (bytes : string) : Prop :=
  exists response, a = Returned response /\ firstImageBytes response = Some bytes.

(** A call that was decided at attempt [k] after [k] failed attempts:
    [k + 1] requests, a warning and a doubling sleep before each retry. *)
Definition decidedAt {A : Type} (k : nat) (initialDelay : Z) (r : Run A) : Prop :=
  requestCount (emitted r) = S k
  /\ sleepDelays (emitted r) = backoff initialDelay k
  /\ levelCount warning (emitted r) = k.

(** ** Further vocabulary: the classifier *)

(** What the retry loops read of a parsed error. *)
Definition classOf (p : ParsedError) : bool * bool :=
  (isQuotaExhaustedError p, isRateLimitErrorForRetry p).

(** ** shuffleArray (lines 158-165) *)

(** [a[i] = x] on an array, for an index within it. *)
Fixpoint update {T : Type} (i : nat) (x : T) (a : list T) : list T :=
  match a, i with
  | [], _ => []
  | _ :: rest, O => x :: rest
  | y :: rest, S i' => y :: update i' x rest
  end.

(** [[a[i], a[j]] = [a[j], a[i]]] for two indices within the array, which
    is where the loop keeps them ([0 <= j <= i < a.length]). *)
Definition swap {T : Type} (i j : nat) (a : list T) : list T :=
  match nth_error a i, nth_error a j with
  | Some x, Some y => update j x (update i y a)
  | _, _ => a
  end.

(** The loop of line 160, from index [i] down to 1; [random i] is the
    [Math.floor(Math.random() * (i + 1))] drawn at index [i]. *)
Fixpoint shuffleFrom {T : Type} (random : nat -> nat) (i : nat) (a : list T) : list T :=
  match i with
  | O => a
  | S i' => shuffleFrom random i' (swap i (random i) a)
  end.

Definition shuffleArray {T : Type} (random : nat -> nat) (array : list T) : list T :=
  let newArray := array in
  shuffleFrom random (length newArray - 1) newArray.

(** ** Words and their statistics (lines 135-154, 248-253)

    The state of [App] (lines 4086-4087) is a list of words and an object
    from word ids to statistics.  The handlers below are the state updates
    of lines 4236-4311, run against the state they were rendered with;
    what they show and what they write to [localStorage] is returned as a
    list of effects. *)

(** [number | string] *)
Inductive NumOrStr : Type :=
| Num (n : Z)
| Str (s : string).

(** [a === b] *)
Definition strictEq (a b : NumOrStr) : bool :=
  match a, b with
  | Num m, Num n => m =? n
  | Str s, Str t => String.eqb s t
  | _, _ => false
  end.

(** The property key an id selects: [obj[1]] and [obj["1"]] are the same. *)
Definition keyOf (i : NumOrStr) : string :=
  match i with
  | Num n => NilZero.string_of_int (Z.to_int n)
  | Str s => s
  end.

Module Word.
Record t : Type := mk {
  id : NumOrStr;
  term : string;
  pronunciation : option string;
  partOfSpeech : string;
  meaning : string;
  exampleSentence : string;
  exampleSentenceMeaning : option string;
  gradeLevel : string;
  isCustom : option bool;
  unit : option NumOrStr
}.
End Word.

(** [Partial<Word>]; an [id] of [null] or [undefined] is [None]. *)
Module PartialWord.
Record t : Type := mk {
  id : option NumOrStr;
  term : option string;
  pronunciation : option string;
  partOfSpeech : option string;
  meaning : option string;
  exampleSentence : option string;
  exampleSentenceMeaning : option string;
  gradeLevel : option string;
  isCustom : option bool;
  unit : option NumOrStr
}.
End PartialWord.

Module WordStat.
Record t : Type := mk {
  id : NumOrStr;
  isMastered : bool;
  lastReviewed : option string;       (* string | null *)
  quizIncorrectCount : Z
}.
End WordStat.

(** [Partial<WordStat>]: the properties an update carries. *)
Module WordStatUpdate.
Record t : Type := mk {
  id : option NumOrStr;
  isMastered : option bool;
  lastReviewed : option (option string);
  quizIncorrectCount : option Z
}.
End WordStatUpdate.

Definition getDefaultWordStat (wordId : NumOrStr) : WordStat.t :=
  WordStat.mk wordId false None 0.

(** [{ ...currentStat, ...updates }] *)
Definition spreadStat (currentStat : WordStat.t) (updates : WordStatUpdate.t)
  : WordStat.t :=
  WordStat.mk
    (match WordStatUpdate.id updates with
     | Some v => v | None => WordStat.id currentStat end)
    (match WordStatUpdate.isMastered updates with
     | Some v => v | None => WordStat.isMastered currentStat end)
    (match WordStatUpdate.lastReviewed updates with
     | Some v => v | None => WordStat.lastReviewed currentStat end)
    (match WordStatUpdate.quizIncorrectCount updates with
     | Some v => v | None => WordStat.quizIncorrectCount currentStat end).

(** [Record<string | number, WordStat>], as its entries. *)
Definition WordStats : Type := list (string * WordStat.t).

(** [stats[key]] *)
Fixpoint statsGet (key : string) (stats : WordStats) : option WordStat.t :=
  match stats with
  | [] => None
  | (k, v) :: rest => if String.eqb key k then Some v else statsGet key rest
  end.

(** [stats[key] = v].  The entries are kept in the order they were
    added; the order in which JavaScript enumerates them (integer keys
    first) is not modelled, and nothing below reads it. *)
Fixpoint statsSet (key : string) (v : WordStat.t) (stats : WordStats) : WordStats :=
  match stats with
  | [] => [(key, v)]
  | (k, v') :: rest =>
      if String.eqb key k then (k, v) :: rest else (k, v') :: statsSet key v rest
  end.

(** [delete stats[key]] *)
Definition statsDelete (key : string) (stats : WordStats) : WordStats :=
  filter (fun entry => negb (String.eqb key (fst entry))) stats.

Inductive AppMessage : Type :=
| MsgSaveFailed                          (* 4157 *)
| MsgBuiltinNotDeletable                 (* 4250 *)
| MsgWordDeleted (term : string).        (* 4255 *)

Inductive Stored : Type :=
| StoredWords (words : list Word.t)      (* key 'allWords' *)
| StoredStats (stats : WordStats).       (* key 'wordStats' *)

Inductive AppEffect : Type :=
| AppToast (m : AppMessage) (l : Level)
| SetItem (item : Stored).               (* localStorage.setItem(key, JSON...) *)

(** [saveData] (lines 4152-4159); [writable] tells whether [setItem]
    succeeds or throws. *)
Definition saveData (writable : bool) (item : Stored) : list AppEffect :=
  if writable then [SetItem item] else [AppToast MsgSaveFailed error].

Record AppState : Type := mkAppState {
  allWords : list Word.t;
  wordStats : WordStats
}.

(** [updateWordStat] (lines 4236-4244) *)
Definition updateWordStat (writable : bool) (wordId : NumOrStr)
    (updates : WordStatUpdate.t) (app : AppState) : AppState * list AppEffect :=
  let prevStats := wordStats app in
  let currentStat :=
    match statsGet (keyOf wordId) prevStats with
    | Some stat => stat
    | None => getDefaultWordStat wordId
    end in
  let newStats := statsSet (keyOf wordId) (spreadStat currentStat updates) prevStats in
  (mkAppState (allWords app) newStats, saveData writable (StoredStats newStats)).

(** [Array.prototype.find] *)
Definition findWord (wordId : NumOrStr) (words : list Word.t) : option Word.t :=
  find (fun w => strictEq (Word.id w) wordId) words.

(** [!wordToDelete.isCustom] on [isCustom?: boolean] *)
Definition notCustom (w : Word.t) : bool :=
  match Word.isCustom w with Some true => false | _ => true end.

(** [handleDeleteCustomWord] (lines 4246-4264) *)
Definition handleDeleteCustomWord (writable : bool) (wordId : NumOrStr)
    (silent : bool) (app : AppState) : AppState * list AppEffect :=
  let prev := allWords app in
  let '(newWords, wordEffects) :=
    match findWord wordId prev with
    | Some wordToDelete =>
        if notCustom wordToDelete then
          (prev, if silent then [] else [AppToast MsgBuiltinNotDeletable error])
        else
          let newWords := filter (fun w => negb (strictEq (Word.id w) wordId)) prev in
          (newWords,
           (saveData writable (StoredWords newWords)
              ++ (if silent then []
                  else [AppToast (MsgWordDeleted (Word.term wordToDelete)) success]))%list)
    | None =>
        (prev, if silent then [] else [AppToast MsgBuiltinNotDeletable error])
    end in
  let newStats := statsDelete (keyOf wordId) (wordStats app) in
  (mkAppState newWords newStats,
   (wordEffects ++ saveData writable (StoredStats newStats))%list).

(** The outcome of [handleSaveCustomWord]: [{ success, reason? }]. *)
Inductive SaveResult : Type :=
| SaveOk
| SaveRefusedBlank        (* 4268 *)
| SaveRefusedDuplicate.   (* 4277 *)

(** The [success] property of the outcome. *)
Definition succeeded (r : SaveResult) : bool :=
  match r with SaveOk => true | _ => false end.

(** [!s?.trim()] on an optional string *)
Definition blank (trim : string -> string) (s : option string) : bool :=
  match s with
  | Some t => String.eqb (trim t) ""
  | None => true
  end.

(** [s || fallback] on an optional string *)
Definition orElse (s : option string) (fallback : string) : string :=
  match s with
  | Some t => if String.eqb t "" then fallback else t
  | None => fallback
  end.

(** [word as Word] checks nothing when the code runs.  The words of the
    model are complete [Word]s, so the cast is followed only for a [word]
    that has the required properties, which is what the edit form passes. *)
Definition asWord (word : PartialWord.t) : option Word.t :=
  match PartialWord.id word, PartialWord.term word, PartialWord.partOfSpeech word,
        PartialWord.meaning word, PartialWord.exampleSentence word,
        PartialWord.gradeLevel word with
  | Some i, Some t, Some p, Some m, Some e, Some g =>
      Some (Word.mk i t (PartialWord.pronunciation word) p m e
                    (PartialWord.exampleSentenceMeaning word) g
                    (PartialWord.isCustom word) (PartialWord.unit word))
  | _, _, _, _, _, _ => None
  end.

(** [w.id !== word.id] for a [word.id] that may be missing *)
Definition otherId (w : Word.t) (wordId : option NumOrStr) : bool :=
  match wordId with
  | Some i => negb (strictEq (Word.id w) i)
  | None => true
  end.

(** [handleSaveCustomWord] (lines 4266-4311).  [trim] and [lower] are
    [String.prototype.trim] and [String.prototype.toLowerCase], of which
    nothing is assumed; [freshId] is the id line 4285 makes of the clock
    and a random number; [gradeLevel] is the argument after its default.
    The result is [None] where the model ends: for an edited [word] that
    lacks a property [Word] requires, the code goes on and stores an object
    that is no [Word], which the word lists of the model cannot hold. *)
Definition handleSaveCustomWord (trim lower : string -> string) (writable : bool)
    (freshId : string) (word : PartialWord.t) (gradeLevel : option string)
    (unit : option Z) (app : AppState)
  : option (SaveResult * AppState * list AppEffect) :=
  if (blank trim (PartialWord.term word) || blank trim (PartialWord.meaning word))%bool
  then Some (SaveRefusedBlank, app, [])
  else
    let termText := match PartialWord.term word with Some t => t | None => "" end in
    let meaningText := match PartialWord.meaning word with Some t => t | None => "" end in
    let normalizedTerm := lower (trim termText) in
    let duplicateExists :=
      existsb (fun w => (String.eqb (lower (Word.term w)) normalizedTerm
                         && otherId w (PartialWord.id word))%bool)
              (allWords app) in
    if duplicateExists then Some (SaveRefusedDuplicate, app, [])
    else
      match PartialWord.id word with
      | Some _ =>
          match asWord word with
          | None => None
          | Some casted =>
              let wordToSave :=
                Word.mk (Word.id casted) (Word.term casted) (Word.pronunciation casted)
                        (Word.partOfSpeech casted) (Word.meaning casted)
                        (Word.exampleSentence casted)
                        (Word.exampleSentenceMeaning casted) (Word.gradeLevel casted)
                        (Word.isCustom casted)
                        (match unit with Some n => Some (Num n) | None => None end) in
              let newWords :=
                map (fun w => if strictEq (Word.id w) (Word.id wordToSave)
                              then wordToSave else w)
                    (allWords app) in
              Some (SaveOk, mkAppState newWords (wordStats app),
                    saveData writable (StoredWords newWords))
          end
      | None =>
          let wordToSave :=
            Word.mk (Str freshId) (trim termText)
                    (Some (orElse (PartialWord.pronunciation word) ""))
                    (orElse (PartialWord.partOfSpeech word) "명사")
                    (trim meaningText)
                    (orElse (PartialWord.exampleSentence word) "")
                    (Some (orElse (PartialWord.exampleSentenceMeaning word) ""))
                    (orElse gradeLevel "middle2")
                    (Some true)
                    (match unit with Some n => Some (Num n) | None => None end) in
          let newWords := (allWords app ++ [wordToSave])%list in
          let '(withStat, statEffects) :=
            updateWordStat writable (Word.id wordToSave)
              (WordStatUpdate.mk (Some (Word.id wordToSave)) (Some false) (Some None)
                                 (Some 0))
              (mkAppState (allWords app) (wordStats app)) in
          Some (SaveOk, mkAppState newWords (wordStats withStat),
                (statEffects ++ saveData writable (StoredWords newWords))%list)
      end.

(** The counts of [memoizedStats] (lines 4314-4338) that are made of the
    statistics; [today] is [getTodayDateString()]. *)
Definition learnedWordsToday (today : string) (stats : WordStats) : nat :=
  length (filter (fun entry =>
                    match WordStat.lastReviewed (snd entry) with
                    | Some reviewed => prefix today reviewed
                    | None => false
                    end) stats).

Definition totalWordsLearned (stats : WordStats) : nat :=
  length (filter (fun entry =>
                    match WordStat.lastReviewed (snd entry) with
                    | Some _ => true
                    | None => false
                    end) stats).

Definition hasIncorrectWordsToReview (stats : WordStats) : bool :=
  existsb (fun entry => 0 <? WordStat.quizIncorrectCount (snd entry)) stats.

(** No two words share a term, up to case. *)
Definition termsDistinct (lower : string -> string) (words : list Word.t) : Prop :=
  NoDup (map (fun w => lower (Word.term w)) words).

(** ** The quiz (lines 1311-1524) *)

(** [s.split(sep)] for a one-character separator; never empty. *)
Fixpoint splitOn (sep : ascii) (s : string) : list string :=
  match s with
  | EmptyString => [EmptyString]
  | String c rest =>
      if Ascii.eqb c sep then EmptyString :: splitOn sep rest
      else match splitOn sep rest with
           | seg :: segs => String c seg :: segs
           | [] => [String c EmptyString]
           end
  end.

(** [word.meaning.split('/').map(m => m.trim())] (lines 1498, 1514) *)
Definition correctAnswers (trim : string -> string) (word : Word.t) : list string :=
  map trim (splitOn "/" (Word.meaning word)).

(** [word.meaning.split('/')[0].trim()] (lines 1434, 1442) *)
Definition firstMeaning (trim : string -> string) (word : Word.t) : string :=
  trim (hd "" (splitOn "/" (Word.meaning word))).

(** [Array.from(new Set(xs))]: the first occurrence of each string, in order. *)
Fixpoint dedupeFrom (seen xs : list string) : list string :=
  match xs with
  | [] => []
  | x :: rest =>
      if existsb (String.eqb x) seen then dedupeFrom seen rest
      else x :: dedupeFrom (x :: seen) rest
  end.

Definition dedupe (xs : list string) : list string := dedupeFrom [] xs.

(** The filler of line 1439, numbered by the length the list will have. *)
Definition fillerOption (n : nat) : string :=
  ("오답" ++ NilZero.string_of_uint (Nat.to_uint n))%string.

(** The loop of lines 1438-1440, which runs [3 - length] times. *)
Fixpoint padWrongOptions (missing : nat) (uniqueIncorrectOptions : list string)
  : list string :=
  match missing with
  | O => uniqueIncorrectOptions
  | S missing' =>
      padWrongOptions missing'
        (uniqueIncorrectOptions
           ++ [fillerOption (length uniqueIncorrectOptions + 1)])%list
  end.

(** [generateMultipleChoiceOptions] (lines 1430-1443); [random1] and
    [random2] are the draws of its two shuffles. *)
Definition generateMultipleChoiceOptions (trim : string -> string)
    (random1 random2 : nat -> nat)
    (correctWord : Word.t) (allWordsForOptions : list Word.t) : list string :=
  let incorrectMeaningPool :=
    shuffleArray random1
      (map (firstMeaning trim)
           (filter (fun w => negb (strictEq (Word.id w) (Word.id correctWord)))
                   allWordsForOptions)) in
  let uniqueIncorrectOptions := firstn 3 (dedupe incorrectMeaningPool) in
  let padded :=
    padWrongOptions (3 - length uniqueIncorrectOptions) uniqueIncorrectOptions in
  shuffleArray random2 (firstMeaning trim correctWord :: padded).

Inductive QuizPhase : Type := setup | playing | finished.

Record QuizScreenState : Type := mkQuizScreenState {
  quizState : QuizPhase;
  selectedUnit : NumOrStr;
  quizType : string;
  quizWords : list Word.t;
  currentQuestionIndex : nat;
  score : Z;
  incorrectlyAnsweredWords : list Word.t;
  options : list string;
  selectedAnswer : option string;
  showResult : bool;
  typedAnswer : string;
  inputFeedbackStyle : string
}.

Inductive SetupKey : Type := KeySelectedUnit | KeyQuizType | KeyTypedAnswer.

Inductive QuizAction : Type :=
| CHANGE_SETUP (key : SetupKey) (value : string)
| START_QUIZ (words : list Word.t) (opts : list string)
| SUBMIT_MULTIPLE_CHOICE (answer : string) (isCorrect : bool) (word : Word.t)
| SUBMIT_TYPING (isCorrect : bool) (word : Word.t)
| NEXT_QUESTION (opts : list string)
| FINISH_QUIZ
| RESTART_QUIZ.

(** Why [startQuiz] does not start a quiz. *)
Inductive StartRefusal : Type :=
| NoModeSelected      (* 1457 *)
| TooFewWords         (* 1474 *)
| NoWordsToAsk.       (* 1478 *)

(** What the quiz asks of the rest of the application. *)
Inductive QuizEffect : Type :=
| QuizComplete (finalScore : Z) (total : nat) (incorrectWords : list Word.t) (* 1407 *)
| QuizStatUpdate (wordId : NumOrStr) (updates : WordStatUpdate.t)       (* 1504, 1521 *)
| QuizWrongToast (answers : list string)                                (* 1522 *)
| QuizSpeak (text : string)                                             (* 1450 *)
| QuizWarning (why : StartRefusal).                                     (* 1457-1478 *)

Definition neutralStyle : string :=
  "border-slate-300 dark:border-slate-500 focus:ring-cyan-500 focus:border-cyan-500".

(** [initialQuizState] (lines 1344-1357); [unitToLearn] is
    [routeParams?.unitToLearn] when it is there and truthy. *)
Definition initialQuizState (unitToLearn : option NumOrStr) : QuizScreenState :=
  mkQuizScreenState setup
    (match unitToLearn with Some u => u | None => Str "all" end)
    "multiple" [] 0 0 [] [] None false "" neutralStyle.

(** [quizReducer] (lines 1359-1417) *)
Definition quizReducer (unitToLearn : option NumOrStr)
    (state : QuizScreenState) (action : QuizAction)
  : QuizScreenState * list QuizEffect :=
  let initial := initialQuizState unitToLearn in
  match action with
  | CHANGE_SETUP KeySelectedUnit value =>
      (mkQuizScreenState (quizState state) (Str value) (quizType state)
         (quizWords state) (currentQuestionIndex state) (score state)
         (incorrectlyAnsweredWords state) (options state) (selectedAnswer state)
         (showResult state) (typedAnswer state) (inputFeedbackStyle state), [])
  | CHANGE_SETUP KeyQuizType value =>
      (mkQuizScreenState (quizState state) (selectedUnit state) value
         (quizWords state) (currentQuestionIndex state) (score state)
         (incorrectlyAnsweredWords state) (options state) (selectedAnswer state)
         (showResult state) (typedAnswer state) (inputFeedbackStyle state), [])
  | CHANGE_SETUP KeyTypedAnswer value =>
      (mkQuizScreenState (quizState state) (selectedUnit state) (quizType state)
         (quizWords state) (currentQuestionIndex state) (score state)
         (incorrectlyAnsweredWords state) (options state) (selectedAnswer state)
         (showResult state) value (inputFeedbackStyle state), [])
  | START_QUIZ words opts =>
      (mkQuizScreenState playing (selectedUnit state) (quizType state)
         words (currentQuestionIndex initial) (score initial)
         (incorrectlyAnsweredWords initial) opts (selectedAnswer initial)
         (showResult initial) (typedAnswer initial) (inputFeedbackStyle initial), [])
  | SUBMIT_MULTIPLE_CHOICE answer isCorrect word =>
      (mkQuizScreenState (quizState state) (selectedUnit state) (quizType state)
         (quizWords state) (currentQuestionIndex state)
         (if isCorrect then score state + 1 else score state)
         (if isCorrect then incorrectlyAnsweredWords state
          else (incorrectlyAnsweredWords state ++ [word])%list)
         (options state) (Some answer) true (typedAnswer state)
         (inputFeedbackStyle state), [])
  | SUBMIT_TYPING isCorrect word =>
      (mkQuizScreenState (quizState state) (selectedUnit state) (quizType state)
         (quizWords state) (currentQuestionIndex state)
         (if isCorrect then score state + 1 else score state)
         (if isCorrect then incorrectlyAnsweredWords state
          else (incorrectlyAnsweredWords state ++ [word])%list)
         (options state) (selectedAnswer state) true (typedAnswer state)
         (if isCorrect then "border-green-500 ring-2 ring-green-500"
          else "border-red-500 ring-2 ring-red-500 animate-shake"), [])
  | NEXT_QUESTION opts =>
      (mkQuizScreenState (quizState state) (selectedUnit state) (quizType state)
         (quizWords state) (currentQuestionIndex state + 1) (score state)
         (incorrectlyAnsweredWords state) opts None false "" neutralStyle, [])
  | FINISH_QUIZ =>
      (mkQuizScreenState finished (selectedUnit state) (quizType state)
         (quizWords state) (currentQuestionIndex state) (score state)
         (incorrectlyAnsweredWords state) (options state) (selectedAnswer state)
         (showResult state) (typedAnswer state) (inputFeedbackStyle state),
       [QuizComplete (score state) (length (quizWords state))
                     (incorrectlyAnsweredWords state)])
  | RESTART_QUIZ =>
      (mkQuizScreenState (quizState initial) (selectedUnit state) (quizType state)
         (quizWords initial) (currentQuestionIndex initial) (score initial)
         (incorrectlyAnsweredWords initial) (options initial)
         (selectedAnswer initial) (showResult initial) (typedAnswer initial)
         (inputFeedbackStyle initial), [])
  end.

(** [String(x)] on [string | number | undefined] *)
Definition stringOf (x : option NumOrStr) : string :=
  match x with
  | Some i => keyOf i
  | None => "undefined"
  end.

(** What the handlers read of the application (lines 1341, 1448). *)
Record QuizContext : Type := mkQuizContext {
  contextWords : list Word.t;          (* allWords *)
  contextStats : WordStats;            (* wordStats *)
  autoPlayAudio : bool                 (* userSettings.autoPlayAudio *)
}.

(** The option source of lines 1464-1470 and 1487. *)
Definition optionSourceWords (ctx : QuizContext) (state : QuizScreenState)
  : list Word.t :=
  if strictEq (selectedUnit state) (Str "all") then contextWords ctx
  else filter (fun w => String.eqb (stringOf (Word.unit w))
                                   (stringOf (Some (selectedUnit state))))
              (contextWords ctx).

(** [setupQuestion] (lines 1445-1453) *)
Definition setupQuestion (trim : string -> string) (random1 random2 : nat -> nat)
    (ctx : QuizContext) (quizTypeNow : string)
    (index : nat) (wordsForQuiz allWordsForOptions : list Word.t)
  : list string * list QuizEffect :=
  match nth_error wordsForQuiz index with
  | None => ([], [])
  | Some currentWord =>
      let newOptions :=
        if String.eqb quizTypeNow "multiple"
        then generateMultipleChoiceOptions trim random1 random2 currentWord
                                           allWordsForOptions
        else [] in
      (newOptions,
       if autoPlayAudio ctx then [QuizSpeak (Word.term currentWord)] else [])
  end.

(** [(wordStats[id]?.quizIncorrectCount || 0) + 1] *)
Definition nextIncorrectCount (stats : WordStats) (wordId : NumOrStr) : Z :=
  match statsGet (keyOf wordId) stats with
  | Some stat => WordStat.quizIncorrectCount stat + 1
  | None => 1
  end.

(** [handleNextQuestion] (lines 1485-1493) *)
Definition handleNextQuestion (trim : string -> string) (random1 random2 : nat -> nat)
    (unitToLearn : option NumOrStr) (ctx : QuizContext) (state : QuizScreenState)
  : QuizScreenState * list QuizEffect :=
  if (Z.of_nat (currentQuestionIndex state) <? Z.of_nat (length (quizWords state)) - 1)
  then
    let '(opts, effects) :=
      setupQuestion trim random1 random2 ctx (quizType state)
                    (currentQuestionIndex state + 1) (quizWords state)
                    (optionSourceWords ctx state) in
    let '(state', effects') := quizReducer unitToLearn state (NEXT_QUESTION opts) in
    (state', (effects ++ effects')%list)
  else quizReducer unitToLearn state FINISH_QUIZ.

(** [handleMultipleChoiceSubmit] (lines 1495-1506); [None] when there is
    no current word, where line 1498 throws. *)
Definition handleMultipleChoiceSubmit (trim : string -> string)
    (unitToLearn : option NumOrStr) (ctx : QuizContext)
    (picked : string) (state : QuizScreenState)
  : option (QuizScreenState * list QuizEffect) :=
  if showResult state then Some (state, [])
  else
    match nth_error (quizWords state) (currentQuestionIndex state) with
    | None => None
    | Some currentWord =>
        let isCorrect :=
          existsb (String.eqb picked) (correctAnswers trim currentWord) in
        let '(state', effects) :=
          quizReducer unitToLearn state
                      (SUBMIT_MULTIPLE_CHOICE picked isCorrect currentWord) in
        Some (state',
              (effects
                 ++ (if isCorrect then []
                     else [QuizStatUpdate (Word.id currentWord)
                             (WordStatUpdate.mk None None None
                                (Some (nextIncorrectCount (contextStats ctx)
                                                          (Word.id currentWord))))]))%list)
    end.

(** [handleTypingSubmit] (lines 1508-1524) *)
Definition handleTypingSubmit (trim : string -> string) (random1 random2 : nat -> nat)
    (unitToLearn : option NumOrStr) (ctx : QuizContext) (state : QuizScreenState)
  : option (QuizScreenState * list QuizEffect) :=
  if showResult state
  then Some (handleNextQuestion trim random1 random2 unitToLearn ctx state)
  else
    match nth_error (quizWords state) (currentQuestionIndex state) with
    | None => None
    | Some currentWord =>
        let answers := correctAnswers trim currentWord in
        let isCorrect := existsb (String.eqb (trim (typedAnswer state))) answers in
        let '(state', effects) :=
          quizReducer unitToLearn state (SUBMIT_TYPING isCorrect currentWord) in
        Some (state',
              (effects
                 ++ (if isCorrect then []
                     else [QuizStatUpdate (Word.id currentWord)
                             (WordStatUpdate.mk None None None
                                (Some (nextIncorrectCount (contextStats ctx)
                                                          (Word.id currentWord))));
                           QuizWrongToast answers]))%list)
    end.



(** What the user can do while a question is on screen (lines 1614-1678):
    pick an option, submit the form of the typing quiz, press the button
    that lines 1645-1652 render once the result is shown, or type. *)
Inductive QuizEvent : Type :=
| PickOption (picked : string)
| SubmitForm
| PressNext
| TypeAnswer (value : string).

Definition quizEvent (trim : string -> string) (random1 random2 : nat -> nat)
    (unitToLearn : option NumOrStr) (ctx : QuizContext)
    (state : QuizScreenState) (event : QuizEvent)
  : option (QuizScreenState * list QuizEffect) :=
  match event with
  | PickOption picked => handleMultipleChoiceSubmit trim unitToLearn ctx picked state
  | SubmitForm => handleTypingSubmit trim random1 random2 unitToLearn ctx state
  | PressNext =>
      if showResult state
      then Some (handleNextQuestion trim random1 random2 unitToLearn ctx state)
      else Some (state, [])
  | TypeAnswer value =>
      Some (quizReducer unitToLearn state (CHANGE_SETUP KeyTypedAnswer value))
  end.

(** A session: events handled one after the other while the quiz is
    being played; once it is finished (or if a handler throws) the rest
    is not handled. *)
Fixpoint quizSession (trim : string -> string) (random1 random2 : nat -> nat)
    (unitToLearn : option NumOrStr) (ctx : QuizContext)
    (state : QuizScreenState) (events : list QuizEvent) : QuizScreenState :=
  match events with
  | [] => state
  | event :: rest =>
      match quizState state with
      | playing =>
          match quizEvent trim random1 random2 unitToLearn ctx state event with
          | Some (state', _) =>
              quizSession trim random1 random2 unitToLearn ctx state' rest
          | None => state
          end
      | _ => state
      end
  end.

(** Every question before the current one has been graded once, the
    current one once if its result is shown. *)
Definition gradedOnce (state : QuizScreenState) : Prop :=
  (currentQuestionIndex state < length (quizWords state))%nat
  /\ 0 <= score state
  /\ score state + Z.of_nat (length (incorrectlyAnsweredWords state))
     = Z.of_nat (currentQuestionIndex state) + (if showResult state then 1 else 0).

(** What a session keeps of a quiz started on [words] with the setup of
    [before]. *)
Definition quizInvariant (words : list Word.t) (before state : QuizScreenState)
  : Prop :=
  quizWords state = words
  /\ quizType state = quizType before
  /\ selectedUnit state = selectedUnit before
  /\ gradedOnce state
  /\ quizState state <> setup
  /\ (quizState state = finished ->
      showResult state = true
      /\ S (currentQuestionIndex state) = length (quizWords state)).

(** ** The forms that call the gateway (lines 1718-1751, 2179-2198) *)

(** [{ ...obj, [k]: v }] on the properties of an object. *)
Fixpoint setProp (k : string) (v : JsVal) (fields : list (string * JsVal))
  : list (string * JsVal) :=
  match fields with
  | [] => [(k, v)]
  | (k', v') :: rest =>
      if String.eqb k k' then (k', v) :: rest else (k', v') :: setProp k v rest
  end.

(** [{ ...prev, k1: v1, ..., kn: vn }] *)
Definition spread (prev : JsVal) (overrides : list (string * JsVal)) : JsVal :=
  JObj (fold_left (fun fields kv => setProp (fst kv) (snd kv) fields) overrides
                  (match prev with JObj fields => fields | _ => [] end)).

(** [a || b] *)
Definition jsOr (a b : JsVal) : JsVal := if truthy a then a else b.

(** What a form shows on its own, beside the notifications of the call. *)
Inductive FormNotice : Type :=
| EnterTermForDetails      (* 1720, 2181 *)
| EnterTermForImage.       (* 1741 *)

(** How a handler of a form ends: it completes, with the state it leaves
    and the warnings it showed itself; or an exception leaves it - that of
    calling [trim] on a term that is no string, or the rejection of the
    awaited call - with the state as set until then. *)
Inductive Handled (S : Type) : Type :=
| Completed (state : S) (notices : list FormNotice)
| Aborted (state : S).
Arguments Completed {S} _ _.
Arguments Aborted {S} _.

(** The state of [ManageWordsScreen] that [handleAIFill] touches. *)
Record ManageState : Type := mkManageState {
  newWord : JsVal;
  isAddingViaAI : bool
}.

(** The update of lines 2187-2195. *)
Definition fillNewWord (details prev : JsVal) : JsVal :=
  spread prev
    [("term", jsOr (get details "term") (get prev "term"));
     ("pronunciation", jsOr (get details "pronunciation") (JStr ""));
     ("meaning", jsOr (get details "meaning") (JStr ""));
     ("partOfSpeech", jsOr (get details "partOfSpeech") (JStr ""));
     ("exampleSentence", jsOr (get details "exampleSentence") (JStr ""));
     ("exampleSentenceMeaning", jsOr (get details "exampleSentenceMeaning") (JStr ""))].

(** [handleAIFill] (lines 2179-2198), called with the defaults of line 357:
    two retries, 7000 ms.  The warning of line 2181 is the handler's own
    [addToast]; it is returned beside the state rather than emitted, so
    that the notifications of the call stay apart.  The form is taken not
    to be edited while the call is pending: [prev] of line 2187 is the word
    the handler started with.  When the awaited call rejects, line 2197 is
    not reached and the busy mark of line 2184 stays. *)
Definition handleAIFill (trim : string -> string) (svc : Z -> Attempt JsVal)
    (state : ManageState) : M (Handled ManageState) :=
  match get (newWord state) "term" with
  | JStr term =>
      if String.eqb (trim term) "" then ret (Completed state [EnterTermForDetails])
      else
        let busy := mkManageState (newWord state) true in
        details <- generateWordDetailsWithGemini svc (trim term) 2 7000 ;;
        match details with
        | Resolved (Some d) =>
            ret (Completed (mkManageState
                              (if truthy d then fillNewWord d (newWord state)
                               else newWord state)
                              false) [])
        | Resolved None => ret (Completed (mkManageState (newWord state) false) [])
        | Rejected _ => ret (Aborted busy)
        end
  | JUndefined | JNull => ret (Completed state [EnterTermForDetails])
  | _ => ret (Aborted state)
  end.

(** The state of [EditWordModal] that its two AI buttons touch. *)
Record EditState : Type := mkEditState {
  editableWord : JsVal;
  isFetchingModalAIDetails : bool;
  isFetchingModalAIImage : bool;
  modalAiImage : option string
}.

(** The update of lines 1726-1734. *)
Definition fillEditableWord (details prev : JsVal) : JsVal :=
  spread prev
    [("term", jsOr (get details "term") (get prev "term"));
     ("pronunciation", jsOr (get details "pronunciation") (get prev "pronunciation"));
     ("meaning", jsOr (get details "meaning") (get prev "meaning"));
     ("partOfSpeech", jsOr (get details "partOfSpeech") (get prev "partOfSpeech"));
     ("exampleSentence",
      jsOr (get details "exampleSentence") (get prev "exampleSentence"));
     ("exampleSentenceMeaning",
      jsOr (get details "exampleSentenceMeaning") (get prev "exampleSentenceMeaning"))].

(** [handleAIFillDetails] (lines 1718-1737) *)
Definition handleAIFillDetails (trim : string -> string) (svc : Z -> Attempt JsVal)
    (state : EditState) : M (Handled EditState) :=
  match get (editableWord state) "term" with
  | JStr term =>
      if String.eqb (trim term) "" then ret (Completed state [EnterTermForDetails])
      else
        let busy := mkEditState (editableWord state) true
                                (isFetchingModalAIImage state) (modalAiImage state) in
        details <- generateWordDetailsWithGemini svc (trim term) 2 7000 ;;
        match details with
        | Resolved (Some d) =>
            ret (Completed
                   (mkEditState
                      (if truthy d then fillEditableWord d (editableWord state)
                       else editableWord state)
                      false (isFetchingModalAIImage state) (modalAiImage state))
                   [])
        | Resolved None =>
            ret (Completed
                   (mkEditState (editableWord state) false
                                (isFetchingModalAIImage state) (modalAiImage state))
                   [])
        | Rejected _ => ret (Aborted busy)
        end
  | JUndefined | JNull => ret (Completed state [EnterTermForDetails])
  | _ => ret (Aborted state)
  end.

(** [handleGenerateModalAiImage] (lines 1739-1751), called with the
    defaults of line 469: one retry, 8000 ms.  Lines 1744-1745 raise the
    busy mark and drop the picture before the call. *)
Definition handleGenerateModalAiImage (trim : string -> string)
    (svc : Z -> Attempt GenerateImagesResponse)
    (state : EditState) : M (Handled EditState) :=
  match get (editableWord state) "term" with
  | JStr term =>
      if String.eqb (trim term) "" then ret (Completed state [EnterTermForImage])
      else
        let busy := mkEditState (editableWord state)
                                (isFetchingModalAIDetails state) true None in
        imageData <- generateImageForWordWithGemini svc (trim term) 1 8000 ;;
        match imageData with
        | Resolved (Some bytes) =>
            ret (Completed
                   (mkEditState (editableWord state)
                      (isFetchingModalAIDetails state) false
                      (if String.eqb bytes "" then None
                       else Some ("data:image/jpeg;base64," ++ bytes)%string))
                   [])
        | Resolved None =>
            ret (Completed
                   (mkEditState (editableWord state)
                                (isFetchingModalAIDetails state) false None)
                   [])
        | Rejected _ => ret (Aborted busy)
        end
  | JUndefined | JNull => ret (Completed state [EnterTermForImage])
  | _ => ret (Aborted state)
  end.

(** The properties the two fill handlers write. *)
Definition filledKeys : list string :=
  ["term"; "pronunciation"; "meaning"; "partOfSpeech"; "exampleSentence";
   "exampleSentenceMeaning"].

(** * Properties *)

Open Scope list_scope.

Example parse_nested :
  parseGeminiError
    (JObj [("error", JObj [("message", JStr "Quota exceeded for model");
                           ("code", JNum 429);
                           ("status", JStr "RESOURCE_EXHAUSTED")])])
  = Returned (mkParsedError "quota exceeded for model" (Some 429)
                            (Some "RESOURCE_EXHAUSTED") true false
                            "Quota exceeded for model").
Proof. reflexivity. Qed.

Example parse_flat_rate_limit :
  parseGeminiError (JObj [("message", JStr "Too Many Requests"); ("status", JNum 429)])
  = Returned (mkParsedError "too many requests" (Some 429) None false true
                            "Too Many Requests").
Proof. reflexivity. Qed.

Example parse_thrown_string :
  parseGeminiError (JStr "Quota Exhausted")
  = Returned (mkParsedError "quota exhausted" None None true false "Quota Exhausted").
Proof. reflexivity. Qed.

Example parse_unreadable :
  parseGeminiError (JObj [("toString", JNum 1)]) = Threw typeErrorToPrimitive.
Proof. reflexivity. Qed.

Example word_unreadable_error :
  generateWordDetailsWithGemini (fun _ => Threw (JObj [("toString", JNum 1)]))
                                "cat" 2 7000 (initialWorld true)
  = mkRun (Rejected typeErrorToPrimitive) (initialWorld true)
          [ELoading true; ERequest WordDetails 0; ELoading false].
Proof. reflexivity. Qed.

Example word_generic_failures :
  emitted (generateWordDetailsWithGemini
             (fun _ => Threw (JObj [("message", JStr "network down")]))
             "cat" 2 7000 (initialWorld true))
  = [ELoading true;
     ERequest WordDetails 0;
     EToast (MsgErrorRetry WordDetails "cat" 7000 "network down") warning;
     ESleep 7000;
     ERequest WordDetails 1;
     EToast (MsgErrorRetry WordDetails "cat" 14000 "network down") warning;
     ESleep 14000;
     ERequest WordDetails 2;
     EToast (MsgErrorFinal WordDetails "cat" "network down") error;
     ELoading false].
Proof. reflexivity. Qed.

Example word_complete_payload :
  let data := JObj [("partOfSpeech", JStr "noun"); ("meaning", JStr "cat");
                    ("exampleSentence", JStr "This is a cat.")] in
  value (generateWordDetailsWithGemini (fun _ => Returned data) "cat" 2 7000
                                       (initialWorld true))
  = Resolved (Some data).
Proof. reflexivity. Qed.

(** ** Running the monad *)

Lemma emitted_bind {A B : Type} (m : M A) (f : A -> M B) (w : World) :
  emitted (bind m f w) = emitted (m w) ++ emitted (f (value (m w)) (final (m w))).
Proof. reflexivity. Qed.

Lemma final_bind {A B : Type} (m : M A) (f : A -> M B) (w : World) :
  final (bind m f w) = final (f (value (m w)) (final (m w))).
Proof. reflexivity. Qed.

Lemma value_bind {A B : Type} (m : M A) (f : A -> M B) (w : World) :
  value (bind m f w) = value (f (value (m w)) (final (m w))).
Proof. reflexivity. Qed.

Lemma request_bind {R B : Type} (f : Feature) (svc : Z -> Attempt R) (i : Z)
    (k : Attempt R -> M B) (w : World) :
  (r <- request f svc i ;; k r) w = after [ERequest f i] (k (svc i) w).
Proof. reflexivity. Qed.

Lemma emit_bind {B : Type} (e : Event) (k : M B) (w : World) :
  (emit e ;; k) w = after [e] (k w).
Proof. reflexivity. Qed.

Lemma toast_bind {B : Type} (m : Message) (l : Level) (k : M B) (w : World) :
  (addToast m l ;; k) w = after [EToast m l] (k w).
Proof. reflexivity. Qed.

Lemma sleep_bind {B : Type} (ms : Z) (k : M B) (w : World) :
  (sleep ms ;; k) w = after (emitted (sleep ms w)) (k (final (sleep ms w))).
Proof. reflexivity. Qed.

Ltac run_bind :=
  repeat (rewrite emitted_bind || rewrite final_bind || rewrite value_bind).

Lemma requestCount_app (xs ys : list Event) :
  requestCount (xs ++ ys) = (requestCount xs + requestCount ys)%nat.
Proof. unfold requestCount. now rewrite filter_app, length_app. Qed.

Lemma levelCount_app (l : Level) (xs ys : list Event) :
  levelCount l (xs ++ ys) = (levelCount l xs + levelCount l ys)%nat.
Proof. unfold levelCount. now rewrite filter_app, length_app. Qed.

Lemma sleepDelays_app (xs ys : list Event) :
  sleepDelays (xs ++ ys) = sleepDelays xs ++ sleepDelays ys.
Proof.
  induction xs as [|e xs IH]; [reflexivity|].
  destruct e; simpl; now rewrite IH.
Qed.

Lemma loadingChanges_app (xs ys : list Event) :
  loadingChanges (xs ++ ys) = loadingChanges xs ++ loadingChanges ys.
Proof.
  induction xs as [|e xs IH]; [reflexivity|].
  destruct e; simpl; now rewrite IH.
Qed.

Lemma toastLevels_app (xs ys : list Event) :
  toastLevels (xs ++ ys) = toastLevels xs ++ toastLevels ys.
Proof.
  induction xs as [|e xs IH]; [reflexivity|].
  destruct e; simpl; now rewrite IH.
Qed.

(** ** The classifier *)

Lemma parse_returns (e : JsVal) (shown : string) :
  js_String e = Some shown -> parseGeminiError e = Returned (parsedFrom shown e).
Proof. unfold parseGeminiError. now intros ->. Qed.

Lemma parse_returned (e : JsVal) (p : ParsedError) :
  parseGeminiError e = Returned p ->
  exists shown, js_String e = Some shown /\ p = parsedFrom shown e.
Proof.
  unfold parseGeminiError. destruct (js_String e) as [shown|]; [|discriminate].
  intros [= <-]. now exists shown.
Qed.

Lemma flat_status_string_ignored (message status : string) :
  parseGeminiError (flatError message (JStr status))
  = parseGeminiError (JObj [("message", JStr message)]).
Proof.
  unfold parseGeminiError, parsedFrom, flatError. simpl.
  now rewrite andb_false_r.
Qed.

(** C4, as stated, fails on the flat shape: there [status] is read as a
    numeric status code only, so a flat error whose [status] is the string
    RESOURCE_EXHAUSTED is read by the classifier and not classified as
    quota-exhausted. *)
Lemma flat_resource_exhausted_not_quota :
  exists p,
    parseGeminiError (flatError "boom" (JStr "RESOURCE_EXHAUSTED")) = Returned p
    /\ isQuotaExhaustedError p = false.
Proof. eexists. split; reflexivity. Qed.

(** C4 (amended): an error of the nested shape - [error.error] an object
    with a string [message] - whose [error.error.status] is a string that
    upper-cases to RESOURCE_EXHAUSTED is classified as quota-exhausted,
    whatever its [code], also with no [code] at all: that is the verdict
    [parseGeminiError] returns, and it returns one unless the [String(error)]
    of line 320 throws, which it does only for an error with an own
    [toString] property.  In the flat shape the status string plays no part
    in the classification. *)
Theorem nested_resource_exhausted_is_quota
    (e : JsVal) (inner : list (string * JsVal)) (message status : string) :
  get e "error" = JObj inner ->
  lookup "message" inner = JStr message ->
  lookup "status" inner = JStr status ->
  toUpperCase status = "RESOURCE_EXHAUSTED" ->
  (forall p, parseGeminiError e = Returned p ->
             isQuotaExhaustedError p = true /\ isRateLimitErrorForRetry p = false)
  /\ (hasOwnProperty e "toString" = false ->
      exists p, parseGeminiError e = Returned p)
  /\ forall m s,
       exists p,
         parseGeminiError (flatError m (JStr s)) = Returned p
         /\ isQuotaExhaustedError p
            = (includes (toLowerCase m) "quota"
               && (includes (toLowerCase m) "exceeded"
                   || includes (toLowerCase m) "exhausted"))%bool.
Proof.
  intros He Hm Hs Hup.
  assert (Ht : truthy e = true).
  { destruct e; simpl in He; try discriminate; reflexivity. }
  split; [|split].
  - intros p Hp. apply parse_returned in Hp. destruct Hp as (shown & _ & ->).
    unfold parsedFrom.
    rewrite Ht, He. simpl get. rewrite Hm, Hs, Hup. simpl.
    rewrite !orb_true_r. now rewrite andb_false_r.
  - intros Hown. destruct e as [| | | | |fields|]; simpl in He; try discriminate.
    unfold parseGeminiError. cbn [js_String]. cbn [hasOwnProperty] in Hown.
    rewrite Hown. now eexists.
  - intros m s. rewrite flat_status_string_ignored. eexists. split; [reflexivity|].
    simpl. now rewrite orb_false_r.
Qed.

Lemma nested_resource_exhausted_is_quota_witness :
  exists p,
    parseGeminiError (nestedError "Too many requests" None "Resource_Exhausted")
    = Returned p
    /\ isQuotaExhaustedError p = true.
Proof.
  pose proof (nested_resource_exhausted_is_quota
                (nestedError "Too many requests" None "Resource_Exhausted")
                [("message", JStr "Too many requests"); ("status", JStr "Resource_Exhausted")]
                "Too many requests" "Resource_Exhausted"
                eq_refl eq_refl eq_refl eq_refl) as (Hverdict & Hreturns & _).
  destruct (Hreturns eq_refl) as (p & Hp).
  exists p. split; [exact Hp|]. exact (proj1 (Hverdict p Hp)).
Defined.

(** ** The cooldown *)

Lemma consistent_closed (w : World) :
  consistent w = true ->
  isCurrentlyGeminiQuotaExhausted w = false ->
  quotaCooldownTimeoutId w = None /\ pendingTimers w = [].
Proof.
  unfold consistent. intros Hc Hq.
  destruct (quotaCooldownTimeoutId w), (pendingTimers w) as [|tm [|tm' l]];
    try discriminate; auto.
  rewrite Hq in Hc. discriminate.
Qed.

Lemma cooldown_noop (featureName : option string) (w : World) :
  isCurrentlyGeminiQuotaExhausted w = true ->
  setGeminiQuotaExhaustedCooldown featureName w = mkRun tt w [].
Proof.
  intros Hq. unfold setGeminiQuotaExhaustedCooldown, bind, gets. simpl.
  now rewrite Hq.
Qed.

Lemma cooldown_sets_flag (featureName : option string) (w : World) :
  isCurrentlyGeminiQuotaExhausted
    (final (setGeminiQuotaExhaustedCooldown featureName w)) = true.
Proof.
  destruct (isCurrentlyGeminiQuotaExhausted w) eqn:Hq.
  - now rewrite cooldown_noop.
  - unfold setGeminiQuotaExhaustedCooldown, bind, gets. simpl. rewrite Hq. simpl.
    destruct (quotaCooldownTimeoutId w) as [id|]; [destruct (id =? 0)|]; reflexivity.
Qed.

(** C6: entering the cooldown while the flag is already set changes
    nothing - same world (flag, timer handle, pending timer and its due
    time), no notification - so entering twice, with whatever feature
    names, is entering once. *)
Theorem cooldown_entry_idempotent (w : World) (f1 f2 : option string) :
  (isCurrentlyGeminiQuotaExhausted w = true ->
   setGeminiQuotaExhaustedCooldown f1 w = mkRun tt w [])
  /\ (setGeminiQuotaExhaustedCooldown f1 ;; setGeminiQuotaExhaustedCooldown f2) w
     = setGeminiQuotaExhaustedCooldown f1 w.
Proof.
  split; [apply cooldown_noop|].
  unfold bind at 1.
  rewrite cooldown_noop by apply cooldown_sets_flag.
  cbn [value final emitted]. rewrite app_nil_r.
  now destruct (setGeminiQuotaExhaustedCooldown f1 w) as [[] ? ?].
Qed.

Lemma cooldown_entry_idempotent_witness :
  let w := final (setGeminiQuotaExhaustedCooldown (Some "lookup") (initialWorld true)) in
  isCurrentlyGeminiQuotaExhausted w = true
  /\ setGeminiQuotaExhaustedCooldown None w = mkRun tt w [].
Proof.
  split; [reflexivity|].
  apply (proj1 (cooldown_entry_idempotent
                  (final (setGeminiQuotaExhaustedCooldown (Some "lookup")
                                                          (initialWorld true)))
                  None None)).
  reflexivity.
Defined.

Lemma cooldown_enters (featureName : option string) (w : World) :
  consistent w = true ->
  isCurrentlyGeminiQuotaExhausted w = false ->
  setGeminiQuotaExhaustedCooldown featureName w
  = mkRun tt
          (mkWorld (ai w) true (Some (nextTimerId w)) (globalLoading w) (clock w)
                   (nextTimerId w + 1)
                   [mkTimer (nextTimerId w) (clock w + GEMINI_QUOTA_COOLDOWN_MS)
                            featureName])
          [EToast (MsgCooldownStarted (named featureName) 15) error].
Proof.
  intros Hc Hq. destruct (consistent_closed w Hc Hq) as [Hid Hp].
  unfold setGeminiQuotaExhaustedCooldown, bind, gets. simpl.
  rewrite Hq. simpl. rewrite Hid. simpl. rewrite Hp. reflexivity.
Qed.

(** C7: once the cooldown is entered (from a reachable world whose flag
    is clear), one timer is pending, due GEMINI_QUOTA_COOLDOWN_MS = 900000
    ms later.  Until the clock reaches that instant nothing happens: no
    notification, flag and handle stay.  When it does, the callback runs:
    one info notification, flag cleared, handle null, no timer left, and
    no later instant fires it again. *)
Theorem cooldown_expires_once (w : World) (featureName : option string) :
  consistent w = true ->
  isCurrentlyGeminiQuotaExhausted w = false ->
  let entered := final (setGeminiQuotaExhaustedCooldown featureName w) in
  GEMINI_QUOTA_COOLDOWN_MS = 900000
  /\ isCurrentlyGeminiQuotaExhausted entered = true
  /\ (exists id,
        quotaCooldownTimeoutId entered = Some id
        /\ pendingTimers entered
           = [mkTimer id (clock w + GEMINI_QUOTA_COOLDOWN_MS) featureName])
  /\ (forall t, t < clock w + GEMINI_QUOTA_COOLDOWN_MS ->
        let r := advance t entered in
        emitted r = []
        /\ isCurrentlyGeminiQuotaExhausted (final r) = true
        /\ quotaCooldownTimeoutId (final r) = quotaCooldownTimeoutId entered
        /\ pendingTimers (final r) = pendingTimers entered)
  /\ (forall t, clock w + GEMINI_QUOTA_COOLDOWN_MS <= t ->
        let r := advance t entered in
        emitted r = [EToast (MsgCooldownOver (named featureName)) info]
        /\ isCurrentlyGeminiQuotaExhausted (final r) = false
        /\ quotaCooldownTimeoutId (final r) = None
        /\ pendingTimers (final r) = []
        /\ forall t', emitted (advance t' (final r)) = []).
Proof.
  intros Hc Hq entered. subst entered.
  rewrite (cooldown_enters featureName w Hc Hq). simpl final.
  split; [reflexivity|]. split; [reflexivity|].
  split; [eexists; split; reflexivity|].
  split.
  - intros t Ht. unfold advance, bind, gets. simpl.
    assert (Hd : (clock w + GEMINI_QUOTA_COOLDOWN_MS <=? Z.max (clock w) t) = false).
    { apply Z.leb_gt. unfold GEMINI_QUOTA_COOLDOWN_MS in *. lia. }
    rewrite Hd. simpl. auto.
  - intros t Ht. unfold advance, bind, gets. simpl.
    assert (Hd : (clock w + GEMINI_QUOTA_COOLDOWN_MS <=? Z.max (clock w) t) = true).
    { apply Z.leb_le. unfold GEMINI_QUOTA_COOLDOWN_MS in *. lia. }
    rewrite Hd. simpl. rewrite Z.eqb_refl. simpl.
    repeat split; reflexivity.
Qed.

Lemma cooldown_expires_once_witness :
  let entered := final (setGeminiQuotaExhaustedCooldown (Some "lookup")
                                                        (initialWorld true)) in
  emitted (advance 899999 entered) = []
  /\ emitted (advance 900000 entered) = [EToast (MsgCooldownOver (Some "lookup")) info].
Proof.
  pose proof (cooldown_expires_once (initialWorld true) (Some "lookup")
                                    eq_refl eq_refl) as H.
  destruct H as (_ & _ & _ & Hbefore & Hafter).
  split.
  - exact (proj1 (Hbefore 899999 eq_refl)).
  - refine (proj1 (Hafter 900000 _)). discriminate.
Defined.

(** ** Sleeping and the timers that fire meanwhile *)

Lemma timerNoise_app (xs ys : list Event) :
  timerNoise xs -> timerNoise ys -> timerNoise (xs ++ ys).
Proof. unfold timerNoise. intros Hx Hy. now rewrite forallb_app, Hx, Hy. Qed.

Lemma timerNoise_silent (es : list Event) :
  timerNoise es ->
  requestCount es = 0%nat /\ sleepDelays es = [] /\ loadingChanges es = []
  /\ levelCount warning es = 0%nat /\ levelCount error es = 0%nat.
Proof.
  unfold timerNoise, requestCount, levelCount.
  induction es as [|e es IH]; [easy|].
  simpl. intros H. apply andb_prop in H as [He Hes].
  destruct e as [m [] | | |]; try discriminate.
  simpl. now apply IH.
Qed.

Lemma fireDue_quiet (t : Z) (queue : list Timer) (w : World) :
  timerNoise (emitted (fireDue t queue w))
  /\ globalLoading (final (fireDue t queue w)) = globalLoading w
  /\ ai (final (fireDue t queue w)) = ai w.
Proof.
  revert w. induction queue as [|tm queue IH]; intros w.
  - now cbn.
  - cbn [fireDue]. destruct (due tm <=? t); [|apply IH].
    run_bind.
    destruct (IH (final (cooldownExpired (tfeature tm)
                           (final (clearTimeout (tid tm) w))))) as (Hn & Hl & Ha).
    rewrite Hl, Ha. repeat split. now apply timerNoise_app.
Qed.

Lemma sleep_quiet (ms : Z) (w : World) :
  (exists noise, emitted (sleep ms w) = ESleep ms :: noise /\ timerNoise noise)
  /\ globalLoading (final (sleep ms w)) = globalLoading w
  /\ ai (final (sleep ms w)) = ai w.
Proof.
  unfold sleep, advance, bind, gets, modify, emit. cbn [value final emitted].
  match goal with
  | |- context [fireDue ?t ?q ?w'] => destruct (fireDue_quiet t q w') as (Hn & Hl & Ha)
  end.
  cbn [app]. rewrite app_nil_r. split; [|split].
  - eexists. split; [reflexivity|]. exact Hn.
  - unfold set_clock. cbn. exact Hl.
  - unfold set_clock. cbn. exact Ha.
Qed.

Lemma sleep_no_timers (ms : Z) (w : World) :
  pendingTimers w = [] ->
  sleep ms w
  = mkRun tt
          (mkWorld (ai w) (isCurrentlyGeminiQuotaExhausted w)
                   (quotaCooldownTimeoutId w) (globalLoading w)
                   (Z.max (clock w) (clock w + ms)) (nextTimerId w + 1) [])
          [ESleep ms].
Proof.
  intros Hp. unfold sleep, advance, bind, gets, modify, emit.
  cbn [value final emitted set_nextTimerId pendingTimers clock].
  rewrite Hp. cbn -[Z.max Z.add].
  unfold set_clock, set_nextTimerId. cbn -[Z.max Z.add]. now rewrite Hp.
Qed.

Lemma cooldown_enters_any (featureName : option string) (w : World) :
  isCurrentlyGeminiQuotaExhausted w = false ->
  let r := setGeminiQuotaExhaustedCooldown featureName w in
  emitted r = [EToast (MsgCooldownStarted (named featureName) 15) error]
  /\ isCurrentlyGeminiQuotaExhausted (final r) = true
  /\ quotaCooldownTimeoutId (final r) = Some (nextTimerId w)
  /\ In (mkTimer (nextTimerId w) (clock w + GEMINI_QUOTA_COOLDOWN_MS) featureName)
        (pendingTimers (final r))
  /\ globalLoading (final r) = globalLoading w
  /\ ai (final r) = ai w.
Proof.
  intros Hq. unfold setGeminiQuotaExhaustedCooldown, bind, gets. simpl.
  rewrite Hq. simpl.
  destruct (quotaCooldownTimeoutId w) as [id|]; [destruct (id =? 0)|]; simpl;
    repeat split; try reflexivity; apply in_or_app; right; now left.
Qed.

Lemma cooldown_quiet (featureName : option string) (w : World) :
  let r := setGeminiQuotaExhaustedCooldown featureName w in
  requestCount (emitted r) = 0%nat
  /\ sleepDelays (emitted r) = []
  /\ loadingChanges (emitted r) = []
  /\ levelCount warning (emitted r) = 0%nat
  /\ globalLoading (final r) = globalLoading w.
Proof.
  destruct (isCurrentlyGeminiQuotaExhausted w) eqn:Hq.
  - rewrite cooldown_noop by assumption. now cbn.
  - destruct (cooldown_enters_any featureName w Hq) as (He & _ & _ & _ & Hl & _).
    cbv zeta. rewrite He, Hl. now cbn.
Qed.

(** ** The invariant *)

Lemma consistent_initial (client : bool) : consistent (initialWorld client) = true.
Proof. reflexivity. Qed.

Lemma set_loading_consistent (b : bool) (w : World) :
  consistent (set_loading b w) = consistent w.
Proof. reflexivity. Qed.

Lemma cooldown_consistent (featureName : option string) (w : World) :
  consistent w = true ->
  consistent (final (setGeminiQuotaExhaustedCooldown featureName w)) = true.
Proof.
  intros Hc. destruct (isCurrentlyGeminiQuotaExhausted w) eqn:Hq.
  - now rewrite cooldown_noop.
  - rewrite cooldown_enters by assumption.
    unfold consistent. cbn. apply Z.eqb_refl.
Qed.

Lemma advance_consistent (t : Z) (w : World) :
  consistent w = true -> consistent (final (advance t w)) = true.
Proof.
  destruct w as [client q id l c n p]. unfold consistent.
  cbn [quotaCooldownTimeoutId pendingTimers isCurrentlyGeminiQuotaExhausted].
  destruct id as [id|], p as [|tm [|tm' p]]; try discriminate; intros Hc.
  - apply andb_prop in Hc as [-> Hid].
    unfold advance, bind, gets. cbn -[Z.max].
    destruct (due tm <=? Z.max c t); cbn -[Z.max].
    + now rewrite Z.eqb_refl.
    + exact Hid.
  - exact Hc.
Qed.

Lemma sleep_consistent (ms : Z) (w : World) :
  consistent w = true -> consistent (final (sleep ms w)) = true.
Proof.
  intros Hc. unfold sleep. run_bind. apply advance_consistent. exact Hc.
Qed.

(** ** The calls, unfolded *)

Lemma word_call_started (svc : Z -> Attempt JsVal) (term : string)
    (retries initialDelay : Z) (w : World) :
  ai w = true ->
  isCurrentlyGeminiQuotaExhausted w = false ->
  let body := wordAttempts svc term retries (Z.to_nat (retries + 1)) 0 initialDelay
                           (set_loading true w) in
  generateWordDetailsWithGemini svc term retries initialDelay w
  = mkRun (fst (afterLoop WordDetails term (value body)))
          (set_loading false (final body))
          (ELoading true :: emitted body
             ++ ELoading false :: snd (afterLoop WordDetails term (value body))).
Proof.
  intros Ha Hq. cbv zeta.
  remember (wordAttempts svc _ retries (Z.to_nat (retries + 1)) 0 initialDelay
              (set_loading true w)) as body eqn:Hbody.
  unfold generateWordDetailsWithGemini, tryFinally, setGlobalLoading, addToast.
  unfold bind, gets, modify, emit, ret. cbn [value final emitted].
  rewrite Ha. cbn [negb value final emitted]. rewrite Hq.
  cbn [negb value final emitted app]. rewrite <- Hbody.
  destruct (value body); cbn; now rewrite <- app_assoc.
Qed.

Lemma image_call_started (svc : Z -> Attempt GenerateImagesResponse)
    (wordTerm : string) (retries initialDelay : Z) (w : World) :
  ai w = true ->
  isCurrentlyGeminiQuotaExhausted w = false ->
  let body := imageAttempts svc wordTerm retries (Z.to_nat (retries + 1)) 0 initialDelay
                            (set_loading true w) in
  generateImageForWordWithGemini svc wordTerm retries initialDelay w
  = mkRun (fst (afterLoop ImageGeneration wordTerm (value body)))
          (set_loading false (final body))
          (ELoading true :: emitted body
             ++ ELoading false :: snd (afterLoop ImageGeneration wordTerm (value body))).
Proof.
  intros Ha Hq. cbv zeta.
  remember (imageAttempts svc _ retries (Z.to_nat (retries + 1)) 0 initialDelay
              (set_loading true w)) as body eqn:Hbody.
  unfold generateImageForWordWithGemini, tryFinally, setGlobalLoading, addToast.
  unfold bind, gets, modify, emit, ret. cbn [value final emitted].
  rewrite Ha. cbn [negb value final emitted]. rewrite Hq.
  cbn [negb value final emitted app]. rewrite <- Hbody.
  destruct (value body); cbn; now rewrite <- app_assoc.
Qed.

Section CatchBlock.
Context {A : Type} (f : Feature) (term : string) (retries i currentDelay : Z).
Context (next : M (Completion (option A))) (err : JsVal).

Lemma catchBlock_throws (w : World) (thrown : JsVal) :
  parseGeminiError err = Threw thrown ->
  catchBlock f term retries i currentDelay next err w = mkRun (Throw thrown) w [].
Proof. intros Hp. unfold catchBlock. now rewrite Hp. Qed.

Lemma catchBlock_quota (w : World) (p : ParsedError) :
  parseGeminiError err = Returned p ->
  isQuotaExhaustedError p = true ->
  catchBlock f term retries i currentDelay next err w
  = let c := setGeminiQuotaExhaustedCooldown (Some (featureDescription f term)) w in
    mkRun (Return None) (final c) (emitted c).
Proof.
  intros Hp Hq. unfold catchBlock. rewrite Hp, Hq.
  unfold bind, ret. cbn [value final emitted]. now rewrite app_nil_r.
Qed.

Lemma catchBlock_retry (w : World) (p : ParsedError) :
  parseGeminiError err = Returned p ->
  isQuotaExhaustedError p = false ->
  i < retries ->
  catchBlock f term retries i currentDelay next err w
  = let s := sleep currentDelay w in
    let n := next (final s) in
    mkRun (value n) (final n)
          (EToast (retryMessage f term currentDelay p) warning
             :: emitted s ++ emitted n).
Proof.
  intros Hp Hq Hi. unfold catchBlock, retryMessage. rewrite Hp, Hq.
  apply Z.ltb_lt in Hi. rewrite Hi.
  destruct (isRateLimitErrorForRetry p); reflexivity.
Qed.

Lemma catchBlock_final (w : World) (p : ParsedError) :
  parseGeminiError err = Returned p ->
  isQuotaExhaustedError p = false ->
  retries <= i ->
  catchBlock f term retries i currentDelay next err w
  = mkRun (Return None) w
          [EToast (finalMessage f term p) error].
Proof.
  intros Hp Hq Hi. unfold catchBlock, finalMessage. rewrite Hp, Hq.
  apply Z.ltb_ge in Hi. rewrite Hi.
  destruct (isRateLimitErrorForRetry p); reflexivity.
Qed.
End CatchBlock.

(** ** Calls that never reach the service *)

(** C10: without an initialised client either call returns null at once,
    having emitted the one warning of lines 360 / 471 and nothing else: no
    request, no sleep, no change of the Loading Flag, of the quota flag or
    of the timers (the world is the one it started in). *)
Theorem no_client_returns_null
    (svcW : Z -> Attempt JsVal) (svcI : Z -> Attempt GenerateImagesResponse)
    (term : string) (retries initialDelay : Z) (w : World) :
  ai w = false ->
  generateWordDetailsWithGemini svcW term retries initialDelay w
  = mkRun (Resolved None) w [EToast (MsgNoApiKey WordDetails) warning]
  /\ generateImageForWordWithGemini svcI term retries initialDelay w
     = mkRun (Resolved None) w [EToast (MsgNoApiKey ImageGeneration) warning].
Proof.
  intros Ha. destruct w as [client q id l c n p].
  cbn in Ha. subst client. split; reflexivity.
Qed.

Lemma no_client_returns_null_witness :
  generateWordDetailsWithGemini (fun _ => Returned (JObj [])) "cat" 2 7000
                                (initialWorld false)
  = mkRun (Resolved None) (initialWorld false)
          [EToast (MsgNoApiKey WordDetails) warning].
Proof.
  exact (proj1 (no_client_returns_null
                  (fun _ => Returned (JObj []))
                  (fun _ => Returned (mkGenerateImagesResponse None))
                  "cat" 2 7000 (initialWorld false) eq_refl)).
Defined.

(** C1: while the quota flag is set either call returns null at once: one
    warning is emitted and nothing else - no request to the service - and
    the world is left as it was. *)
Theorem exhausted_fast_fail
    (svcW : Z -> Attempt JsVal) (svcI : Z -> Attempt GenerateImagesResponse)
    (term : string) (retries initialDelay : Z) (w : World) :
  isCurrentlyGeminiQuotaExhausted w = true ->
  let rw := generateWordDetailsWithGemini svcW term retries initialDelay w in
  let ri := generateImageForWordWithGemini svcI term retries initialDelay w in
  (value rw = Resolved None /\ final rw = w
   /\ (exists m, emitted rw = [EToast m warning])
   /\ requestCount (emitted rw) = 0%nat)
  /\ (value ri = Resolved None /\ final ri = w
      /\ (exists m, emitted ri = [EToast m warning])
      /\ requestCount (emitted ri) = 0%nat).
Proof.
  intros Hq rw ri. subst rw ri. destruct w as [client q id l c n p].
  cbn in Hq. subst q.
  destruct client; cbn; repeat split; eexists; reflexivity.
Qed.

Lemma exhausted_fast_fail_witness :
  let w := final (setGeminiQuotaExhaustedCooldown None (initialWorld true)) in
  emitted (generateWordDetailsWithGemini (fun _ => Returned (JObj [])) "cat" 2 7000 w)
  = [EToast (MsgQuotaSkipped WordDetails "cat") warning].
Proof.
  intros w.
  destruct (exhausted_fast_fail (fun _ => Returned (JObj []))
                                (fun _ => Returned (mkGenerateImagesResponse None))
                                "cat" 2 7000 w eq_refl)
    as ((_ & _ & _ & _) & _).
  reflexivity.
Defined.

(** ** The two loops are one loop

    Lines 387-450 and 485-537 differ in what counts as a complete answer
    and in what is returned once an incomplete one has used up the
    retries; the loops are otherwise the same, and are reasoned about as
    [attempts] over the classified outcome of each attempt. *)

Lemma catchBlock_ext {A : Type} (f : Feature) (term : string)
    (retries i currentDelay : Z) (next next' : M (Completion (option A)))
    (err : JsVal) (w : World) :
  (forall w', next w' = next' w') ->
  catchBlock f term retries i currentDelay next err w
  = catchBlock f term retries i currentDelay next' err w.
Proof.
  intros Hn. unfold catchBlock.
  destruct (parseGeminiError err) as [p|thrown]; [|reflexivity].
  destruct (isQuotaExhaustedError p); [reflexivity|].
  destruct (i <? retries); [|reflexivity].
  unfold bind. cbn [value final emitted]. now rewrite Hn.
Qed.

Lemma wordAttempts_attempts (svc : Z -> Attempt JsVal) (term : string) (retries : Z)
    (remaining : nat) (i currentDelay : Z) (w : World) :
  wordAttempts svc term retries remaining i currentDelay w
  = attempts WordDetails term (Some (JObj [("term", JStr term)]))
             (fun j => classifyWord (svc j)) retries remaining i currentDelay w.
Proof.
  revert i currentDelay w.
  induction remaining as [|n IH]; intros i d w; [reflexivity|].
  cbn [wordAttempts attempts]. rewrite request_bind, emit_bind. f_equal.
  unfold classifyWord. destruct (svc i) as [data|e].
  - destruct (isNullish data).
    + apply catchBlock_ext. intros. apply IH.
    + destruct (missingEssentialFields data); [|reflexivity].
      destruct (i <? retries); [|reflexivity].
      rewrite !toast_bind, !sleep_bind. now rewrite IH.
  - apply catchBlock_ext. intros. apply IH.
Qed.

Lemma imageAttempts_attempts (svc : Z -> Attempt GenerateImagesResponse)
    (wordTerm : string) (retries : Z)
    (remaining : nat) (i currentDelay : Z) (w : World) :
  imageAttempts svc wordTerm retries remaining i currentDelay w
  = attempts ImageGeneration wordTerm None
             (fun j => classifyImage (svc j)) retries remaining i currentDelay w.
Proof.
  revert i currentDelay w.
  induction remaining as [|n IH]; intros i d w; [reflexivity|].
  cbn [imageAttempts attempts]. rewrite request_bind, emit_bind. f_equal.
  unfold classifyImage. destruct (svc i) as [response|e].
  - destruct (firstImageBytes response); [reflexivity|].
    destruct (i <? retries); [|reflexivity].
    rewrite !toast_bind, !sleep_bind. now rewrite IH.
  - apply catchBlock_ext. intros. apply IH.
Qed.

Lemma backoff_S (d : Z) (n : nat) : backoff d (S n) = d :: backoff (d * 2) n.
Proof.
  unfold backoff. cbn [seq map]. rewrite Z.pow_0_r, Z.mul_1_r. f_equal.
  rewrite <- seq_shift, map_map. apply map_ext. intros k.
  rewrite Nat2Z.inj_succ, Z.pow_succ_r by lia. ring.
Qed.

Lemma backoff_length (d : Z) (n : nat) : length (backoff d n) = n.
Proof. unfold backoff. now rewrite length_map, length_seq. Qed.

Section Attempts.
Context {A : Type} (f : Feature) (term : string) (degraded : option A).
Context (outcome : Z -> Outcome A) (retries : Z).

Let loop := attempts f term degraded outcome retries.

(** One iteration either goes on after a warning and a sleep, or ends
    the call with an error notification, or ends it for good: a complete
    answer, the quota exhausted, or an error on which the classifier
    throws. *)
Lemma attempts_step (n : nat) (i d : Z) (w : World) :
  (exists m,
      i < retries /\ retryable (outcome i) = true
      /\ loop (S n) i d w
         = after (ERequest f i :: EToast m warning :: emitted (sleep d w))
                 (loop n (i + 1) (d * 2) (final (sleep d w))))
  \/ (exists m,
         retries <= i /\ retryable (outcome i) = true
         /\ loop (S n) i d w
            = mkRun (Return (lastResort degraded (outcome i))) w
                    [ERequest f i; EToast m error])
  \/ (retryable (outcome i) = false
      /\ exists r,
           loop (S n) i d w = after [ERequest f i] r
           /\ ((unreadable (outcome i) = false /\ exists v, value r = Return v)
               \/ (unreadable (outcome i) = true
                   /\ exists thrown, r = mkRun (Throw thrown) w []))
           /\ requestCount (emitted r) = 0%nat
           /\ sleepDelays (emitted r) = []
           /\ loadingChanges (emitted r) = []
           /\ levelCount warning (emitted r) = 0%nat
           /\ globalLoading (final r) = globalLoading w
           /\ (consistent w = true -> consistent (final r) = true)).
Proof.
  subst loop. cbn [attempts]. rewrite emit_bind.
  destruct (outcome i) as [v| |e] eqn:Ho; cbn [retryable unreadable lastResort].
  - right; right. split; [reflexivity|].
    eexists. split; [reflexivity|].
    destruct f; cbn; repeat split; auto; left; split; auto; eexists; reflexivity.
  - destruct (Z.ltb_spec i retries) as [Hi|Hi].
    + left. eexists. split; [assumption|split; [reflexivity|]].
      now rewrite toast_bind, sleep_bind.
    + right; left. eexists. split; [assumption|split; reflexivity].
  - destruct (parseGeminiError e) as [p|thrown] eqn:Hp.
    + destruct (isQuotaExhaustedError p) eqn:Hq; cbn [negb].
      * right; right. split; [reflexivity|].
        eexists. split; [reflexivity|].
        rewrite (catchBlock_quota _ _ _ _ _ _ _ _ p Hp Hq).
        cbv zeta. cbn [value final emitted].
        destruct (cooldown_quiet (Some (featureDescription f term)) w)
          as (H1 & H2 & H3 & H4 & H5).
        split; [left; split; [reflexivity|eexists; reflexivity]|].
        repeat split; try assumption.
        apply cooldown_consistent.
      * destruct (Z.ltb_spec i retries) as [Hi|Hi].
        -- left. eexists. split; [assumption|split; [reflexivity|]].
           now rewrite (catchBlock_retry _ _ _ _ _ _ _ _ p Hp Hq Hi).
        -- right; left. eexists. split; [assumption|split; [reflexivity|]].
           now rewrite (catchBlock_final _ _ _ _ _ _ _ _ p Hp Hq Hi).
    + right; right. split; [reflexivity|].
      eexists. split; [reflexivity|].
      rewrite (catchBlock_throws _ _ _ _ _ _ _ _ thrown Hp).
      cbn [value final emitted].
      split; [right; split; [reflexivity|eexists; reflexivity]|].
      repeat split; auto.
Qed.

(** The loop leaves the Loading Flag alone. *)
Lemma attempts_loading (n : nat) (i d : Z) (w : World) :
  loadingChanges (emitted (loop n i d w)) = []
  /\ globalLoading (final (loop n i d w)) = globalLoading w.
Proof.
  revert i d w. induction n as [|n IH]; intros i d w; [now cbn|].
  destruct (attempts_step n i d w)
    as [(m & _ & _ & ->) | [(m & _ & _ & ->)
                            | (_ & r & -> & _ & _ & _ & Hl & _ & Hg & _)]].
  - destruct (sleep_quiet d w) as ((noise & Hs & Hn) & Hg & _).
    destruct (IH (i + 1) (d * 2) (final (sleep d w))) as [IH1 IH2].
    cbn [after value final emitted]. rewrite IH2, Hg. split; [|reflexivity].
    cbn [app loadingChanges]. rewrite loadingChanges_app, IH1, Hs.
    cbn [loadingChanges]. now destruct (timerNoise_silent noise Hn) as (_ & _ & -> & _).
  - now cbn.
  - cbn [after value final emitted app loadingChanges]. now rewrite Hl, Hg.
Qed.

(** The loop keeps the invariant. *)
Lemma attempts_consistent (n : nat) (i d : Z) (w : World) :
  consistent w = true -> consistent (final (loop n i d w)) = true.
Proof.
  revert i d w. induction n as [|n IH]; intros i d w Hc; [exact Hc|].
  destruct (attempts_step n i d w)
    as [(m & _ & _ & ->) | [(m & _ & _ & ->)
                            | (_ & r & -> & _ & _ & _ & _ & _ & _ & Hr)]].
  - cbn [after final]. apply IH, sleep_consistent, Hc.
  - exact Hc.
  - cbn [after final]. apply Hr, Hc.
Qed.

(** Each sleep of the loop lasts twice as long as the one before. *)
Lemma attempts_sleeps (n : nat) (i d : Z) (w : World) :
  Z.of_nat n = retries + 1 - i ->
  exists k, (k <= n - 1)%nat
            /\ sleepDelays (emitted (loop n i d w)) = backoff d k.
Proof.
  revert i d w. induction n as [|n IH]; intros i d w Hn.
  - exists 0%nat. now cbn.
  - destruct (attempts_step n i d w)
      as [(m & Hi & _ & ->) | [(m & _ & _ & ->) | (_ & r & -> & _ & _ & Hs & _)]].
    + destruct (sleep_quiet d w) as ((noise & Hs & Hnoise) & _ & _).
      destruct (IH (i + 1) (d * 2) (final (sleep d w)) ltac:(lia)) as (k & Hk & IHs).
      exists (S k). split; [lia|].
      cbn [after emitted app sleepDelays]. rewrite sleepDelays_app, IHs, Hs.
      cbn [sleepDelays app].
      destruct (timerNoise_silent noise Hnoise) as (_ & -> & _).
      now rewrite backoff_S.
    + exists 0%nat. split; [lia|]. now cbn.
    + exists 0%nat. split; [lia|]. cbn [after emitted app sleepDelays]. now rewrite Hs.
Qed.

(** When no attempt succeeds or exhausts the quota, the whole budget is
    used: [retries + 1] requests, a warning and a sleep before each
    retry, one error notification at the end. *)
Lemma attempts_all_retryable (n : nat) (i d : Z) (w : World) :
  Z.of_nat (S n) = retries + 1 - i ->
  (forall j, i <= j <= retries -> retryable (outcome j) = true) ->
  let r := loop (S n) i d w in
  value r = Return (lastResort degraded (outcome retries))
  /\ requestCount (emitted r) = S n
  /\ sleepDelays (emitted r) = backoff d n
  /\ levelCount warning (emitted r) = n
  /\ levelCount error (emitted r) = 1%nat.
Proof.
  revert i d w. induction n as [|n IH]; intros i d w Hn Hall; cbv zeta.
  - destruct (attempts_step 0 i d w)
      as [(m & Hi & _ & _) | [(m & Hi & _ & ->) | (Hr & _)]].
    + lia.
    + replace i with retries by lia. now cbn.
    + rewrite Hall in Hr by lia. discriminate.
  - destruct (attempts_step (S n) i d w)
      as [(m & Hi & _ & ->) | [(m & Hi & _ & _) | (Hr & _)]].
    + destruct (sleep_quiet d w) as ((noise & Hs & Hnoise) & _ & _).
      destruct (timerNoise_silent noise Hnoise) as (N1 & N2 & _ & N4 & N5).
      destruct (IH (i + 1) (d * 2) (final (sleep d w)) ltac:(lia)
                   ltac:(intros; apply Hall; lia)) as (I1 & I2 & I3 & I4 & I5).
      cbn [after value final emitted]. rewrite Hs. cbn [app].
      split; [exact I1|].
      rewrite backoff_S.
      change (ERequest f i :: EToast m warning :: ESleep d :: noise
                ++ emitted (loop (S n) (i + 1) (d * 2) (final (sleep d w))))
        with ([ERequest f i; EToast m warning; ESleep d]
                ++ noise ++ emitted (loop (S n) (i + 1) (d * 2) (final (sleep d w)))).
      rewrite !requestCount_app, !sleepDelays_app, !levelCount_app.
      rewrite N1, N2, N4, N5, I2, I3, I4, I5. now cbn.
    + lia.
    + rewrite Hall in Hr by lia. discriminate.
Qed.

(** The same, in a world where no timer is pending: the notifications
    are those warnings and that error, in this order, and nothing else. *)
Lemma attempts_all_retryable_levels (n : nat) (i d : Z) (w : World) :
  Z.of_nat (S n) = retries + 1 - i ->
  pendingTimers w = [] ->
  (forall j, i <= j <= retries -> retryable (outcome j) = true) ->
  toastLevels (emitted (loop (S n) i d w)) = repeat warning n ++ [error].
Proof.
  revert i d w. induction n as [|n IH]; intros i d w Hn Hp Hall.
  - destruct (attempts_step 0 i d w)
      as [(m & Hi & _ & _) | [(m & Hi & _ & ->) | (Hr & _)]].
    + lia.
    + reflexivity.
    + rewrite Hall in Hr by lia. discriminate.
  - destruct (attempts_step (S n) i d w)
      as [(m & Hi & _ & ->) | [(m & Hi & _ & _) | (Hr & _)]].
    + rewrite (sleep_no_timers d w Hp). cbn [after value final emitted app].
      cbn [toastLevels]. rewrite IH; [reflexivity|lia|reflexivity|].
      intros. apply Hall. lia.
    + lia.
    + rewrite Hall in Hr by lia. discriminate.
Qed.

(** A quota error at the first attempt: one request, then the cooldown. *)
Lemma attempts_quota_first (n : nat) (d : Z) (w : World) (e : JsVal)
    (p : ParsedError) :
  outcome 0 = Failed e ->
  parseGeminiError e = Returned p ->
  isQuotaExhaustedError p = true ->
  loop (S n) 0 d w
  = after [ERequest f 0]
          (let c := setGeminiQuotaExhaustedCooldown
                      (Some (featureDescription f term)) w in
           mkRun (Return None) (final c) (emitted c)).
Proof.
  intros Ho Hp Hq. subst loop. cbn [attempts]. rewrite emit_bind, Ho.
  now rewrite (catchBlock_quota _ _ _ _ _ _ _ _ p Hp Hq).
Qed.
End Attempts.

Lemma named_featureDescription (f : Feature) (term : string) :
  named (Some (featureDescription f term)) = Some (featureDescription f term).
Proof. now destruct f. Qed.

Lemma call_not_started
    (svcW : Z -> Attempt JsVal) (svcI : Z -> Attempt GenerateImagesResponse)
    (term : string) (retries initialDelay : Z) (w : World) :
  ai w = false \/ isCurrentlyGeminiQuotaExhausted w = true ->
  sleepDelays (emitted (generateWordDetailsWithGemini svcW term retries initialDelay w)) = []
  /\ sleepDelays (emitted (generateImageForWordWithGemini svcI term retries initialDelay w)) = [].
Proof.
  destruct w as [client q id l c n p]. cbn [ai isCurrentlyGeminiQuotaExhausted].
  intros [-> | ->]; [|destruct client]; split; reflexivity.
Qed.

(** ** Calls that reach the service *)

Section Started.
Context {A : Type} (f : Feature) (term : string) (degraded : option A).
Context (outcome : Z -> Outcome A) (retries initialDelay : Z) (w : World).

Let body :=
  attempts f term degraded outcome retries (Z.to_nat (retries + 1)) 0 initialDelay
           (set_loading true w).

Lemma started_quota_first (e : JsVal) (p : ParsedError) :
  isCurrentlyGeminiQuotaExhausted w = false ->
  0 <= retries ->
  outcome 0 = Failed e ->
  parseGeminiError e = Returned p ->
  isQuotaExhaustedError p = true ->
  enteredCooldownAtOnce f term w (started f term body).
Proof.
  intros Hq Hr Ho Hp He. subst body.
  destruct (Z.to_nat (retries + 1)) as [|n] eqn:Hn; [lia|].
  rewrite (attempts_quota_first f term degraded outcome retries n _ _ e p Ho Hp He).
  cbv zeta.
  destruct (cooldown_enters_any (Some (featureDescription f term))
                                (set_loading true w) Hq)
    as (E1 & E2 & E3 & E4 & _).
  cbv zeta in E1, E2, E3, E4. rewrite named_featureDescription in E1.
  unfold enteredCooldownAtOnce, started.
  cbn [after value final emitted afterLoop fst snd]. rewrite E1.
  repeat split; try reflexivity; assumption.
Qed.

Lemma started_loading : loadingBracketsCall (started f term body).
Proof.
  destruct (attempts_loading f term degraded outcome retries
              (Z.to_nat (retries + 1)) 0 initialDelay (set_loading true w))
    as [Hl _].
  exists (emitted body), (snd (afterLoop f term (value body))).
  split; [reflexivity|]. split; [exact Hl|].
  destruct (value body); now cbn.
Qed.

Lemma started_sleeps :
  exists k, Z.of_nat k <= Z.max 0 retries
            /\ sleepDelays (emitted (started f term body)) = backoff initialDelay k.
Proof.
  assert (Htail : sleepDelays (ELoading false :: snd (afterLoop f term (value body))) = []).
  { destruct (value body); reflexivity. }
  unfold started. cbn [emitted sleepDelays]. rewrite sleepDelays_app, Htail, app_nil_r.
  destruct (Z_le_gt_dec 0 (retries + 1)) as [Hr|Hr].
  - destruct (attempts_sleeps f term degraded outcome retries
                (Z.to_nat (retries + 1)) 0 initialDelay (set_loading true w)
                ltac:(lia)) as (k & Hk & Hs).
    exists k. split; [lia|exact Hs].
  - exists 0%nat. split; [lia|]. subst body.
    replace (Z.to_nat (retries + 1)) with 0%nat by lia. reflexivity.
Qed.

Lemma started_all_retryable :
  0 <= retries ->
  (forall j, 0 <= j <= retries -> retryable (outcome j) = true) ->
  value (started f term body)
  = Resolved (lastResort degraded (outcome retries))
  /\ budgetUsed retries initialDelay (started f term body).
Proof.
  intros Hr Hall. subst body.
  destruct (Z.to_nat (retries + 1)) as [|n] eqn:Hn; [lia|].
  destruct (attempts_all_retryable f term degraded outcome retries n 0 initialDelay
              (set_loading true w) ltac:(lia) Hall) as (V & R & S & W & E).
  cbv zeta in V, R, S, W, E.
  unfold budgetUsed, started. cbn [value final emitted]. rewrite V.
  cbn [afterLoop fst snd].
  replace (Z.to_nat retries) with n by lia.
  change (ELoading true :: ?b ++ [ELoading false])
    with ([ELoading true] ++ b ++ [ELoading false]).
  rewrite !requestCount_app, !sleepDelays_app, !levelCount_app, R, S, W, E.
  cbn. rewrite app_nil_r. repeat split; lia.
Qed.

Lemma started_all_retryable_levels :
  0 <= retries ->
  pendingTimers w = [] ->
  (forall j, 0 <= j <= retries -> retryable (outcome j) = true) ->
  toastLevels (emitted (started f term body))
  = repeat warning (Z.to_nat retries) ++ [error].
Proof.
  intros Hr Hp Hall. subst body.
  destruct (Z.to_nat (retries + 1)) as [|n] eqn:Hn; [lia|].
  destruct (attempts_all_retryable f term degraded outcome retries n 0 initialDelay
              (set_loading true w) ltac:(lia) Hall) as (V & _).
  cbv zeta in V. unfold started. cbn [emitted]. rewrite V.
  cbn [afterLoop snd toastLevels]. rewrite toastLevels_app. cbn [toastLevels].
  rewrite app_nil_r.
  replace (Z.to_nat retries) with n by lia.
  apply attempts_all_retryable_levels; [lia|exact Hp|exact Hall].
Qed.
End Started.

Lemma word_call_attempts (svc : Z -> Attempt JsVal) (term : string)
    (retries initialDelay : Z) (w : World) :
  ai w = true ->
  isCurrentlyGeminiQuotaExhausted w = false ->
  generateWordDetailsWithGemini svc term retries initialDelay w
  = started WordDetails term
      (attempts WordDetails term (Some (JObj [("term", JStr term)]))
                (fun j => classifyWord (svc j)) retries
                (Z.to_nat (retries + 1)) 0 initialDelay (set_loading true w)).
Proof.
  intros Ha Hq. rewrite word_call_started by assumption. cbv zeta.
  now rewrite wordAttempts_attempts.
Qed.

Lemma image_call_attempts (svc : Z -> Attempt GenerateImagesResponse)
    (wordTerm : string) (retries initialDelay : Z) (w : World) :
  ai w = true ->
  isCurrentlyGeminiQuotaExhausted w = false ->
  generateImageForWordWithGemini svc wordTerm retries initialDelay w
  = started ImageGeneration wordTerm
      (attempts ImageGeneration wordTerm None
                (fun j => classifyImage (svc j)) retries
                (Z.to_nat (retries + 1)) 0 initialDelay (set_loading true w)).
Proof.
  intros Ha Hq. rewrite image_call_started by assumption. cbv zeta.
  now rewrite imageAttempts_attempts.
Qed.

Lemma generic_retryable_word (a : Attempt JsVal) :
  (exists e, a = Threw e /\ genericError e) ->
  retryable (classifyWord a) = true.
Proof. intros (e & -> & p & Hp & Hq & _). cbn. now rewrite Hp, Hq. Qed.

Lemma generic_retryable_image (a : Attempt GenerateImagesResponse) :
  (exists e, a = Threw e /\ genericError e) ->
  retryable (classifyImage a) = true.
Proof. intros (e & -> & p & Hp & Hq & _). cbn. now rewrite Hp, Hq. Qed.

Lemma incomplete_word_classified (a : Attempt JsVal) :
  incompleteWordPayload a -> classifyWord a = Incomplete.
Proof. intros (data & -> & Hn & Hm). cbn. now rewrite Hn, Hm. Qed.

Lemma incomplete_image_classified (a : Attempt GenerateImagesResponse) :
  incompleteImageResponse a -> classifyImage a = Incomplete.
Proof. intros (response & -> & Hf). cbn. now rewrite Hf. Qed.

Lemma closed_world_no_timers (w : World) :
  consistent w = true ->
  isCurrentlyGeminiQuotaExhausted w = false ->
  pendingTimers w = [].
Proof. intros Hc Hq. now destruct (consistent_closed w Hc Hq). Qed.

(** C2: a started call whose first attempt throws an error classified as
    quota-exhausted makes that one request and no other, never sleeps,
    enters the cooldown (flag set, timer pending under the stored handle,
    due after GEMINI_QUOTA_COOLDOWN_MS) and returns null - whatever the
    retry budget. *)
Theorem quota_error_ends_call
    (svcW : Z -> Attempt JsVal) (svcI : Z -> Attempt GenerateImagesResponse)
    (term : string) (retries initialDelay : Z) (w : World) (eW eI : JsVal)
    (pW pI : ParsedError) :
  ai w = true ->
  isCurrentlyGeminiQuotaExhausted w = false ->
  0 <= retries ->
  svcW 0 = Threw eW ->
  parseGeminiError eW = Returned pW -> isQuotaExhaustedError pW = true ->
  svcI 0 = Threw eI ->
  parseGeminiError eI = Returned pI -> isQuotaExhaustedError pI = true ->
  enteredCooldownAtOnce WordDetails term w
    (generateWordDetailsWithGemini svcW term retries initialDelay w)
  /\ enteredCooldownAtOnce ImageGeneration term w
       (generateImageForWordWithGemini svcI term retries initialDelay w).
Proof.
  intros Ha Hq Hr HsW HpW HeW HsI HpI HeI. split.
  - rewrite word_call_attempts by assumption.
    apply started_quota_first with (e := eW) (p := pW); try assumption.
    cbv beta. now rewrite HsW.
  - rewrite image_call_attempts by assumption.
    apply started_quota_first with (e := eI) (p := pI); try assumption.
    cbv beta. now rewrite HsI.
Qed.

Lemma quota_error_ends_call_witness :
  let quotaError := nestedError "Quota exceeded" (Some 429) "RESOURCE_EXHAUSTED" in
  enteredCooldownAtOnce WordDetails "cat" (initialWorld true)
    (generateWordDetailsWithGemini (fun _ => Threw quotaError) "cat" 2 7000
                                   (initialWorld true)).
Proof.
  intros quotaError.
  refine (proj1 (quota_error_ends_call
                   (fun _ => Threw quotaError) (fun _ => Threw quotaError)
                   "cat" 2 7000 (initialWorld true) quotaError quotaError _ _
                   eq_refl eq_refl _ eq_refl eq_refl eq_refl
                   eq_refl eq_refl eq_refl)).
  discriminate.
Defined.

(** C3: a started call with [retries = 2] whose three attempts all throw
    a generic error makes exactly three requests, emits a warning before
    each of the two retries and then one error - these three notifications
    and no other - sleeps the initial delay and then twice that, and
    returns null. *)
Theorem generic_errors_use_three_attempts
    (svcW : Z -> Attempt JsVal) (svcI : Z -> Attempt GenerateImagesResponse)
    (term : string) (initialDelay : Z) (w : World) :
  ai w = true ->
  isCurrentlyGeminiQuotaExhausted w = false ->
  consistent w = true ->
  (forall j, 0 <= j <= 2 -> exists e, svcW j = Threw e /\ genericError e) ->
  (forall j, 0 <= j <= 2 -> exists e, svcI j = Threw e /\ genericError e) ->
  let rw := generateWordDetailsWithGemini svcW term 2 initialDelay w in
  let ri := generateImageForWordWithGemini svcI term 2 initialDelay w in
  (value rw = Resolved None
   /\ requestCount (emitted rw) = 3%nat
   /\ toastLevels (emitted rw) = [warning; warning; error]
   /\ sleepDelays (emitted rw) = [initialDelay; initialDelay * 2])
  /\ (value ri = Resolved None
      /\ requestCount (emitted ri) = 3%nat
      /\ toastLevels (emitted ri) = [warning; warning; error]
      /\ sleepDelays (emitted ri) = [initialDelay; initialDelay * 2]).
Proof.
  intros Ha Hq Hc HW HI rw ri. subst rw ri.
  pose proof (closed_world_no_timers w Hc Hq) as Hp.
  assert (Hb : backoff initialDelay (Z.to_nat 2) = [initialDelay; initialDelay * 2]).
  { change (Z.to_nat 2) with 2%nat. now rewrite !backoff_S. }
  split.
  - rewrite word_call_attempts by assumption.
    assert (Hall : forall j, 0 <= j <= 2 -> retryable (classifyWord (svcW j)) = true).
    { intros j Hj. now apply generic_retryable_word, HW. }
    destruct (started_all_retryable WordDetails term (Some (JObj [("term", JStr term)]))
                (fun j => classifyWord (svcW j)) 2 initialDelay w ltac:(lia) Hall)
      as (V & R & S & _).
    rewrite V, R, S, Hb.
    rewrite (started_all_retryable_levels WordDetails term _ _ 2 initialDelay w)
      by (try assumption; lia).
    destruct (HW 2 ltac:(lia)) as (e & -> & _).
    repeat split.
  - rewrite image_call_attempts by assumption.
    assert (Hall : forall j, 0 <= j <= 2 -> retryable (classifyImage (svcI j)) = true).
    { intros j Hj. now apply generic_retryable_image, HI. }
    destruct (started_all_retryable ImageGeneration term None
                (fun j => classifyImage (svcI j)) 2 initialDelay w ltac:(lia) Hall)
      as (V & R & S & _).
    rewrite V, R, S, Hb.
    rewrite (started_all_retryable_levels ImageGeneration term _ _ 2 initialDelay w)
      by (try assumption; lia).
    destruct (HI 2 ltac:(lia)) as (e & -> & _).
    repeat split.
Qed.

Lemma generic_errors_use_three_attempts_witness :
  let down := JObj [("message", JStr "network down")] in
  toastLevels
    (emitted (generateWordDetailsWithGemini (fun _ => Threw down) "cat" 2 7000
                                            (initialWorld true)))
  = [warning; warning; error].
Proof.
  intros down.
  assert (HW : forall j : Z, 0 <= j <= 2 ->
                 exists e, (fun _ : Z => @Threw JsVal down) j = Threw e /\ genericError e).
  { intros j _. exists down. split; [reflexivity|].
    eexists. repeat split. }
  assert (HI : forall j : Z, 0 <= j <= 2 ->
                 exists e, (fun _ : Z => @Threw GenerateImagesResponse down) j = Threw e
                           /\ genericError e).
  { intros j _. exists down. split; [reflexivity|].
    eexists. repeat split. }
  exact (proj1 (proj2 (proj2 (proj1
           (generic_errors_use_three_attempts
              (fun _ => Threw down) (fun _ => Threw down) "cat" 7000
              (initialWorld true) eq_refl eq_refl eq_refl HW HI))))).
Defined.

(** C5: the sleeps of a call are [initialDelay * 2^k] for k = 0, 1, ...,
    in this order, for every call, and there are at most [retries] of
    them; when no attempt succeeds or exhausts the quota there are exactly
    [retries].  With an initial delay of 1000 and three retries they are
    1000, 2000, 4000. *)
Theorem backoff_delays_double
    (svcW : Z -> Attempt JsVal) (svcI : Z -> Attempt GenerateImagesResponse)
    (term : string) (retries initialDelay : Z) (w : World) :
  (exists k, Z.of_nat k <= Z.max 0 retries
             /\ sleepDelays
                  (emitted (generateWordDetailsWithGemini svcW term retries initialDelay w))
                = backoff initialDelay k)
  /\ (exists k, Z.of_nat k <= Z.max 0 retries
                /\ sleepDelays
                     (emitted (generateImageForWordWithGemini svcI term retries
                                                              initialDelay w))
                   = backoff initialDelay k)
  /\ (ai w = true ->
      isCurrentlyGeminiQuotaExhausted w = false ->
      0 <= retries ->
      (forall j, 0 <= j <= retries -> retryable (classifyWord (svcW j)) = true) ->
      sleepDelays
        (emitted (generateWordDetailsWithGemini svcW term retries initialDelay w))
      = backoff initialDelay (Z.to_nat retries))
  /\ (ai w = true ->
      isCurrentlyGeminiQuotaExhausted w = false ->
      0 <= retries ->
      (forall j, 0 <= j <= retries -> retryable (classifyImage (svcI j)) = true) ->
      sleepDelays
        (emitted (generateImageForWordWithGemini svcI term retries initialDelay w))
      = backoff initialDelay (Z.to_nat retries))
  /\ backoff 1000 3 = [1000; 2000; 4000].
Proof.
  split; [|split; [|split; [|split; [|reflexivity]]]].
  - destruct (ai w) eqn:Ha; [destruct (isCurrentlyGeminiQuotaExhausted w) eqn:Hq|].
    + exists 0%nat. split; [lia|].
      now destruct (call_not_started svcW svcI term retries initialDelay w (or_intror Hq)).
    + rewrite word_call_attempts by assumption. apply started_sleeps.
    + exists 0%nat. split; [lia|].
      now destruct (call_not_started svcW svcI term retries initialDelay w (or_introl Ha)).
  - destruct (ai w) eqn:Ha; [destruct (isCurrentlyGeminiQuotaExhausted w) eqn:Hq|].
    + exists 0%nat. split; [lia|].
      now destruct (call_not_started svcW svcI term retries initialDelay w (or_intror Hq)).
    + rewrite image_call_attempts by assumption. apply started_sleeps.
    + exists 0%nat. split; [lia|].
      now destruct (call_not_started svcW svcI term retries initialDelay w (or_introl Ha)).
  - intros Ha Hq Hr Hall. rewrite word_call_attempts by assumption.
    now destruct (started_all_retryable WordDetails term
                    (Some (JObj [("term", JStr term)]))
                    (fun j => classifyWord (svcW j)) retries initialDelay w Hr Hall)
      as (_ & _ & S & _).
  - intros Ha Hq Hr Hall. rewrite image_call_attempts by assumption.
    now destruct (started_all_retryable ImageGeneration term None
                    (fun j => classifyImage (svcI j)) retries initialDelay w Hr Hall)
      as (_ & _ & S & _).
Qed.

Lemma backoff_delays_double_witness :
  sleepDelays
    (emitted (generateWordDetailsWithGemini (fun _ => Returned (JObj [])) "cat" 3 1000
                                            (initialWorld true)))
  = [1000; 2000; 4000].
Proof.
  refine (proj1 (proj2 (proj2
            (backoff_delays_double
               (fun _ => Returned (JObj []))
               (fun _ => Returned (mkGenerateImagesResponse None))
               "cat" 3 1000 (initialWorld true))))
            eq_refl eq_refl _ _).
  - discriminate.
  - intros j _. reflexivity.
Defined.

(** C9: when every attempt of a started call returns an incomplete
    answer, the call retries as for a thrown error - [retries + 1] requests,
    a warning and a doubling sleep before each retry, one error at the
    end - and then the word lookup returns the object holding only the
    term, the image lookup null. *)
Theorem incomplete_answers_use_budget
    (svcW : Z -> Attempt JsVal) (svcI : Z -> Attempt GenerateImagesResponse)
    (term : string) (retries initialDelay : Z) (w : World) :
  ai w = true ->
  isCurrentlyGeminiQuotaExhausted w = false ->
  0 <= retries ->
  (forall j, 0 <= j <= retries -> incompleteWordPayload (svcW j)) ->
  (forall j, 0 <= j <= retries -> incompleteImageResponse (svcI j)) ->
  let rw := generateWordDetailsWithGemini svcW term retries initialDelay w in
  let ri := generateImageForWordWithGemini svcI term retries initialDelay w in
  (value rw = Resolved (Some (JObj [("term", JStr term)]))
   /\ budgetUsed retries initialDelay rw)
  /\ (value ri = Resolved None
      /\ budgetUsed retries initialDelay ri).
Proof.
  intros Ha Hq Hr HW HI rw ri. subst rw ri. split.
  - rewrite word_call_attempts by assumption.
    assert (Hall : forall j, 0 <= j <= retries ->
                     retryable (classifyWord (svcW j)) = true).
    { intros j Hj. now rewrite (incomplete_word_classified _ (HW j Hj)). }
    destruct (started_all_retryable WordDetails term (Some (JObj [("term", JStr term)]))
                (fun j => classifyWord (svcW j)) retries initialDelay w Hr Hall)
      as (V & B).
    split; [|exact B]. rewrite V.
    now rewrite (incomplete_word_classified _ (HW retries ltac:(lia))).
  - rewrite image_call_attempts by assumption.
    assert (Hall : forall j, 0 <= j <= retries ->
                     retryable (classifyImage (svcI j)) = true).
    { intros j Hj. now rewrite (incomplete_image_classified _ (HI j Hj)). }
    destruct (started_all_retryable ImageGeneration term None
                (fun j => classifyImage (svcI j)) retries initialDelay w Hr Hall)
      as (V & B).
    split; [|exact B]. rewrite V.
    now rewrite (incomplete_image_classified _ (HI retries ltac:(lia))).
Qed.

Lemma incomplete_answers_use_budget_witness :
  value (generateWordDetailsWithGemini
           (fun _ => Returned (JObj [("meaning", JStr "cat")])) "cat" 2 7000
           (initialWorld true))
  = Resolved (Some (JObj [("term", JStr "cat")])).
Proof.
  assert (HW : forall j : Z, 0 <= j <= 2 ->
                 incompleteWordPayload
                   ((fun _ : Z => Returned (JObj [("meaning", JStr "cat")])) j)).
  { intros j _. eexists. repeat split. }
  assert (HI : forall j : Z, 0 <= j <= 2 ->
                 incompleteImageResponse
                   ((fun _ : Z => Returned (mkGenerateImagesResponse (Some []))) j)).
  { intros j _. eexists. repeat split. }
  refine (proj1 (proj1
            (incomplete_answers_use_budget _ _ "cat" 2 7000 (initialWorld true)
               eq_refl eq_refl _ HW HI))).
  discriminate.
Defined.

(** ** Every reachable world is consistent *)

Lemma calls_preserve_consistent
    (svcW : Z -> Attempt JsVal) (svcI : Z -> Attempt GenerateImagesResponse)
    (term : string) (retries initialDelay : Z) (w : World) :
  consistent w = true ->
  consistent (final (generateWordDetailsWithGemini svcW term retries initialDelay w))
  = true
  /\ consistent (final (generateImageForWordWithGemini svcI term retries initialDelay w))
     = true.
Proof.
  intros Hc.
  destruct (ai w) eqn:Ha; [destruct (isCurrentlyGeminiQuotaExhausted w) eqn:Hq|].
  - destruct w as [client q id l c n p]. cbn in Ha, Hq. subst. now split.
  - rewrite word_call_attempts, image_call_attempts by assumption.
    unfold started. cbn [final]. rewrite !set_loading_consistent.
    split; apply attempts_consistent; exact Hc.
  - destruct w as [client q id l c n p]. cbn in Ha. subst. now split.
Qed.

(** * Further properties of the gateway *)

Lemma call_not_started_run
    (svcW : Z -> Attempt JsVal) (svcI : Z -> Attempt GenerateImagesResponse)
    (term : string) (retries initialDelay : Z) (w : World) :
  ai w = false \/ isCurrentlyGeminiQuotaExhausted w = true ->
  (exists m, generateWordDetailsWithGemini svcW term retries initialDelay w
             = mkRun (Resolved None) w [EToast m warning])
  /\ (exists m, generateImageForWordWithGemini svcI term retries initialDelay w
                = mkRun (Resolved None) w [EToast m warning]).
Proof.
  destruct w as [client q id l c n p]. cbn [ai isCurrentlyGeminiQuotaExhausted].
  intros [-> | ->]; [|destruct client]; split; eexists; reflexivity.
Qed.

Lemma outcome_cases {A : Type} (o : Outcome A) :
  retryable o = true
  \/ (exists v, o = Complete v)
  \/ (exists e p, o = Failed e /\ parseGeminiError e = Returned p
                  /\ isQuotaExhaustedError p = true)
  \/ (exists e thrown, o = Failed e /\ parseGeminiError e = Threw thrown).
Proof.
  destruct o as [v| |e]; cbn.
  - right; left. now exists v.
  - now left.
  - destruct (parseGeminiError e) as [p|thrown] eqn:Hp.
    + destruct (isQuotaExhaustedError p) eqn:Hq.
      * right; right; left. now exists e, p.
      * now left.
    + right; right; right. now exists e, thrown.
Qed.

Lemma fireDue_flag_clear (t : Z) (queue : list Timer) (w : World) :
  isCurrentlyGeminiQuotaExhausted w = false ->
  isCurrentlyGeminiQuotaExhausted (final (fireDue t queue w)) = false.
Proof.
  revert w. induction queue as [|tm queue IH]; intros w Hq; [exact Hq|].
  cbn [fireDue]. destruct (due tm <=? t); [|now apply IH].
  run_bind. now apply IH.
Qed.

Lemma sleep_flag_clear (ms : Z) (w : World) :
  isCurrentlyGeminiQuotaExhausted w = false ->
  isCurrentlyGeminiQuotaExhausted (final (sleep ms w)) = false.
Proof.
  intros Hq. unfold sleep, advance. run_bind.
  unfold modify at 1. cbn [final]. unfold set_clock.
  cbn [isCurrentlyGeminiQuotaExhausted].
  apply fireDue_flag_clear. exact Hq.
Qed.

Lemma timerNoise_no_success (es : list Event) :
  timerNoise es -> levelCount success es = 0%nat.
Proof.
  unfold timerNoise, levelCount.
  induction es as [|e es IH]; [easy|].
  simpl. intros H. apply andb_prop in H as [He Hes].
  destruct e as [m [] | | |]; try discriminate.
  simpl. now apply IH.
Qed.

Lemma typeError_not_quota (data : JsVal) :
  isNullish data = true ->
  exists p, parseGeminiError (typeErrorReading data "partOfSpeech") = Returned p
            /\ isQuotaExhaustedError p = false.
Proof.
  destruct data; try discriminate; intros _; eexists; split; reflexivity.
Qed.

Section Decided.
Context {A : Type} (f : Feature) (term : string) (degraded : option A).
Context (outcome : Z -> Outcome A) (retries : Z).

Lemma attempts_at_complete (n : nat) (i d : Z) (w : World) (v : A) :
  outcome i = Complete v ->
  attempts f term degraded outcome retries (S n) i d w
  = mkRun (Return (Some v)) w (ERequest f i :: emitted (announce f term w)).
Proof.
  intros Ho. cbn [attempts]. rewrite emit_bind, Ho.
  destruct f; reflexivity.
Qed.

Lemma attempts_at_quota (n : nat) (i d : Z) (w : World) (e : JsVal)
    (p : ParsedError) :
  outcome i = Failed e ->
  parseGeminiError e = Returned p ->
  isQuotaExhaustedError p = true ->
  attempts f term degraded outcome retries (S n) i d w
  = after [ERequest f i]
          (let c := setGeminiQuotaExhaustedCooldown
                      (Some (featureDescription f term)) w in
           mkRun (Return None) (final c) (emitted c)).
Proof.
  intros Ho Hp Hq. cbn [attempts]. rewrite emit_bind, Ho.
  now rewrite (catchBlock_quota _ _ _ _ _ _ _ _ p Hp Hq).
Qed.

(** An error on which the classifier throws ends the loop at once: the
    exception leaves the [catch] block. *)
Lemma attempts_at_unreadable (n : nat) (i d : Z) (w : World) (e thrown : JsVal) :
  outcome i = Failed e ->
  parseGeminiError e = Threw thrown ->
  attempts f term degraded outcome retries (S n) i d w
  = mkRun (Throw thrown) w [ERequest f i].
Proof.
  intros Ho Hp. cbn [attempts]. rewrite emit_bind, Ho.
  now rewrite (catchBlock_throws _ _ _ _ _ _ _ _ thrown Hp).
Qed.

(** No run of the loop makes more requests than it has iterations. *)
Lemma attempts_requests_bound (n : nat) (i d : Z) (w : World) :
  (requestCount (emitted (attempts f term degraded outcome retries n i d w)) <= n)%nat.
Proof.
  revert i d w. induction n as [|n IH]; intros i d w; [now cbn|].
  destruct (attempts_step f term degraded outcome retries n i d w)
    as [(m & _ & _ & ->) | [(m & _ & _ & ->) | (_ & r & -> & _ & Hr & _)]].
  - destruct (sleep_quiet d w) as ((noise & Hs & Hn) & _ & _).
    destruct (timerNoise_silent noise Hn) as (N1 & _).
    cbn [after emitted]. rewrite Hs.
    change (ERequest f i :: EToast m warning :: ESleep d :: noise)
      with ([ERequest f i; EToast m warning; ESleep d] ++ noise).
    rewrite !requestCount_app, N1.
    remember (final (sleep d w)) as w' eqn:Hw'.
    specialize (IH (i + 1) (d * 2) w'). cbn. lia.
  - cbn. lia.
  - cbn [after emitted]. rewrite requestCount_app, Hr. cbn. lia.
Qed.

(** The loop ends by running out of iterations, by a [return], or by the
    exception of the classifier on a value that an attempt threw. *)
Lemma attempts_completion (n : nat) (i d : Z) (w : World) :
  let c := value (attempts f term degraded outcome retries n i d w) in
  c = Normal
  \/ (exists v, c = Return v)
  \/ (exists j e thrown,
         i <= j < i + Z.of_nat n
         /\ outcome j = Failed e
         /\ parseGeminiError e = Threw thrown
         /\ c = Throw thrown).
Proof.
  cbv zeta. revert i d w. induction n as [|n IH]; intros i d w; [now left|].
  destruct (outcome_cases (outcome i))
    as [Hret | [(v & Ho) | [(e & p & Ho & Hp & He) | (e & thrown & Ho & Hp)]]].
  - destruct (attempts_step f term degraded outcome retries n i d w)
      as [(m & _ & _ & ->) | [(m & _ & _ & ->) | (Hr & _)]].
    + cbn [after value].
      destruct (IH (i + 1) (d * 2) (final (sleep d w)))
        as [H | [H | (j & e & thrown & Hj & Ho & Hp & H)]].
      * now left.
      * right; left. exact H.
      * right; right. exists j, e, thrown. repeat split; (lia || assumption).
    + right; left. eexists. reflexivity.
    + rewrite Hret in Hr. discriminate.
  - rewrite (attempts_at_complete n i d w v Ho). right; left. eexists. reflexivity.
  - rewrite (attempts_at_quota n i d w e p Ho Hp He). right; left.
    eexists. reflexivity.
  - rewrite (attempts_at_unreadable n i d w e thrown Ho Hp). right; right.
    exists i, e, thrown. repeat split; (lia || assumption).
Qed.

(** With a budget that allows an attempt the loop is not left by running
    out of iterations. *)
Lemma attempts_leaves (n : nat) (i d : Z) (w : World) :
  Z.of_nat (S n) = retries + 1 - i ->
  value (attempts f term degraded outcome retries (S n) i d w) <> Normal.
Proof.
  revert i d w. induction n as [|n IH]; intros i d w Hn.
  - destruct (attempts_step f term degraded outcome retries 0 i d w)
      as [(m & Hi & _ & _)
         | [(m & _ & _ & ->)
           | (_ & r & -> & [(_ & v & Hv) | (_ & thrown & ->)] & _)]].
    + lia.
    + discriminate.
    + cbn [after value]. now rewrite Hv.
    + discriminate.
  - destruct (attempts_step f term degraded outcome retries (S n) i d w)
      as [(m & Hi & _ & ->)
         | [(m & _ & _ & ->)
           | (_ & r & -> & [(_ & v & Hv) | (_ & thrown & ->)] & _)]].
    + cbn [after value]. apply IH. lia.
    + discriminate.
    + cbn [after value]. now rewrite Hv.
    + discriminate.
Qed.

(** [k] attempts that fail without exhausting the quota lead to attempt
    [i + k], after a warning and a doubling sleep each. *)
Lemma attempts_skip_retryable (k n : nat) (i d : Z) (w : World) :
  Z.of_nat (k + S n) = retries + 1 - i ->
  (forall j, i <= j < i + Z.of_nat k -> retryable (outcome j) = true) ->
  exists pre w',
    attempts f term degraded outcome retries (k + S n) i d w
    = after pre (attempts f term degraded outcome retries (S n) (i + Z.of_nat k) (d * 2 ^ Z.of_nat k) w')
    /\ requestCount pre = k
    /\ sleepDelays pre = backoff d k
    /\ levelCount warning pre = k
    /\ levelCount error pre = 0%nat
    /\ levelCount success pre = 0%nat
    /\ globalLoading w' = globalLoading w
    /\ (isCurrentlyGeminiQuotaExhausted w = false ->
        isCurrentlyGeminiQuotaExhausted w' = false)
    /\ (consistent w = true -> consistent w' = true).
Proof.
  revert i d w. induction k as [|k IH]; intros i d w Hn Hall.
  - exists [], w. cbn [plus Z.of_nat]. rewrite Z.add_0_r, Z.pow_0_r, Z.mul_1_r.
    split; [|repeat split; auto].
    unfold after. now destruct (attempts f term degraded outcome retries (S n) i d w).
  - cbn [plus].
    destruct (attempts_step f term degraded outcome retries (k + S n) i d w)
      as [(m & Hi & _ & Hstep) | [(m & Hi & _ & _) | (Hr & _)]].
    + destruct (sleep_quiet d w) as ((noise & Hs & Hnoise) & Hl & _).
      destruct (timerNoise_silent noise Hnoise) as (N1 & N2 & _ & N4 & N5).
      pose proof (timerNoise_no_success noise Hnoise) as N6.
      destruct (IH (i + 1) (d * 2) (final (sleep d w)) ltac:(lia)
                   ltac:(intros; apply Hall; lia))
        as (pre & w' & Hrun & P1 & P2 & P3 & P4 & P4' & P5 & P6 & P7).
      exists ((ERequest f i :: EToast m warning :: emitted (sleep d w)) ++ pre), w'.
      rewrite Hstep, Hrun.
      replace (i + 1 + Z.of_nat k) with (i + Z.of_nat (S k)) by lia.
      replace (d * 2 * 2 ^ Z.of_nat k) with (d * 2 ^ Z.of_nat (S k))
        by (rewrite Nat2Z.inj_succ, Z.pow_succ_r by lia; ring).
      split.
      { unfold after. cbn [value final emitted]. now rewrite <- app_assoc. }
      rewrite Hs.
      change (ERequest f i :: EToast m warning :: ESleep d :: noise)
        with ([ERequest f i; EToast m warning; ESleep d] ++ noise).
      rewrite !requestCount_app, !sleepDelays_app, !levelCount_app.
      rewrite N1, N2, N4, N5, N6, P1, P2, P3, P4, P4', backoff_S, P5, Hl.
      repeat split; auto.
      * intros Hq. apply P6, sleep_flag_clear, Hq.
      * intros Hc. apply P7, sleep_consistent, Hc.
    + lia.
    + rewrite Hall in Hr by lia. discriminate.
Qed.

(** Every iteration starts with a request. *)
Lemma attempts_first_request (n : nat) (i d : Z) (w : World) :
  (1 <= requestCount (emitted (attempts f term degraded outcome retries (S n) i d w)))%nat.
Proof.
  destruct (attempts_step f term degraded outcome retries n i d w)
    as [(m & _ & _ & ->) | [(m & _ & _ & ->) | (_ & r & -> & _)]];
    cbn [after emitted app]; unfold requestCount; cbn; lia.
Qed.

(** Error notifications: at most one, exactly one when null is returned;
    warnings: one for each sleep. *)
Lemma attempts_errors (n : nat) (i d : Z) (w : World) :
  isCurrentlyGeminiQuotaExhausted w = false ->
  Z.of_nat (S n) = retries + 1 - i ->
  let r := attempts f term degraded outcome retries (S n) i d w in
  (levelCount error (emitted r) <= 1)%nat
  /\ (value r = Return None -> levelCount error (emitted r) = 1%nat)
  /\ levelCount warning (emitted r) = length (sleepDelays (emitted r)).
Proof.
  revert i d w. induction n as [|n IH]; intros i d w Hq Hn; cbv zeta;
    destruct (outcome_cases (outcome i))
      as [Hret | [(v & Ho) | [(e & p & Ho & Hp & He) | (e & thrown & Ho & Hp)]]].
  - destruct (attempts_step f term degraded outcome retries 0 i d w)
      as [(m & Hi & _ & _) | [(m & _ & _ & ->) | (Hr & _)]].
    + lia.
    + cbn. auto.
    + rewrite Hret in Hr. discriminate.
  - rewrite (attempts_at_complete 0 i d w v Ho). cbn [value emitted].
    destruct f; cbn; repeat split; try lia; discriminate.
  - rewrite (attempts_at_quota 0 i d w e p Ho Hp He). cbv zeta.
    destruct (cooldown_enters_any (Some (featureDescription f term)) w Hq) as (E & _).
    cbv zeta in E. cbn [after value emitted app]. rewrite E. cbn. auto.
  - rewrite (attempts_at_unreadable 0 i d w e thrown Ho Hp).
    cbn. repeat split; try lia; discriminate.
  - destruct (attempts_step f term degraded outcome retries (S n) i d w)
      as [(m & Hi & _ & ->) | [(m & Hi & _ & _) | (Hr & _)]].
    + destruct (sleep_quiet d w) as ((noise & Hs & Hnoise) & _ & _).
      destruct (timerNoise_silent noise Hnoise) as (_ & N2 & _ & N4 & N5).
      destruct (IH (i + 1) (d * 2) (final (sleep d w))
                   (sleep_flag_clear d w Hq) ltac:(lia)) as (I1 & I2 & I3).
      cbn [after value emitted]. rewrite Hs.
      change (ERequest f i :: EToast m warning :: ESleep d :: noise)
        with ([ERequest f i; EToast m warning; ESleep d] ++ noise).
      rewrite !levelCount_app, !sleepDelays_app, !length_app, N2, N4, N5, I3.
      cbn [levelCount isLevel filter length sleepDelays app plus].
      repeat split; try lia; exact I2.
    + lia.
    + rewrite Hret in Hr. discriminate.
  - rewrite (attempts_at_complete (S n) i d w v Ho). cbn [value emitted].
    destruct f; cbn; repeat split; try lia; discriminate.
  - rewrite (attempts_at_quota (S n) i d w e p Ho Hp He). cbv zeta.
    destruct (cooldown_enters_any (Some (featureDescription f term)) w Hq) as (E & _).
    cbv zeta in E. cbn [after value emitted app]. rewrite E. cbn. auto.
  - rewrite (attempts_at_unreadable (S n) i d w e thrown Ho Hp).
    cbn. repeat split; try lia; discriminate.
Qed.

(** Without a quota error the loop leaves the quota flag clear. *)
Lemma attempts_flag_clear (n : nat) (i d : Z) (w : World) :
  isCurrentlyGeminiQuotaExhausted w = false ->
  (forall j, quotaFailure (outcome j) = false) ->
  isCurrentlyGeminiQuotaExhausted
    (final (attempts f term degraded outcome retries n i d w)) = false.
Proof.
  revert i d w. induction n as [|n IH]; intros i d w Hq Hno; [exact Hq|].
  destruct (outcome_cases (outcome i))
    as [Hret | [(v & Ho) | [(e & p & Ho & Hp & He) | (e & thrown & Ho & Hp)]]].
  - destruct (attempts_step f term degraded outcome retries n i d w)
      as [(m & _ & _ & ->) | [(m & _ & _ & ->) | (Hr & _)]].
    + cbn [after final]. apply IH; [apply sleep_flag_clear, Hq|exact Hno].
    + exact Hq.
    + rewrite Hret in Hr. discriminate.
  - now rewrite (attempts_at_complete n i d w v Ho).
  - specialize (Hno i). rewrite Ho in Hno. cbn in Hno. rewrite Hp in Hno. congruence.
  - now rewrite (attempts_at_unreadable n i d w e thrown Ho Hp).
Qed.
End Decided.

Lemma neverQuota_word (svc : Z -> Attempt JsVal) :
  neverQuota svc -> forall j, quotaFailure (classifyWord (svc j)) = false.
Proof.
  intros Hno j. unfold classifyWord. destruct (svc j) as [data|e] eqn:Hs.
  - destruct (isNullish data) eqn:Hn.
    + cbn [quotaFailure].
      now destruct (typeError_not_quota data Hn) as (p & -> & ->).
    + now destruct (missingEssentialFields data).
  - cbn. destruct (parseGeminiError e) as [p|thrown] eqn:Hp; [|reflexivity].
    exact (Hno j e p Hs Hp).
Qed.

Lemma neverQuota_image (svc : Z -> Attempt GenerateImagesResponse) :
  neverQuota svc -> forall j, quotaFailure (classifyImage (svc j)) = false.
Proof.
  intros Hno j. unfold classifyImage. destruct (svc j) as [response|e] eqn:Hs.
  - now destruct (firstImageBytes response).
  - cbn. destruct (parseGeminiError e) as [p|thrown] eqn:Hp; [|reflexivity].
    exact (Hno j e p Hs Hp).
Qed.

(** X1: whatever the service does and whatever the state, a call makes at
    most [retries + 1] requests (none when [retries] is negative). *)
Theorem requests_within_budget
    (svcW : Z -> Attempt JsVal) (svcI : Z -> Attempt GenerateImagesResponse)
    (term : string) (retries initialDelay : Z) (w : World) :
  (requestCount (emitted (generateWordDetailsWithGemini svcW term retries initialDelay w))
   <= Z.to_nat (retries + 1))%nat
  /\ (requestCount
        (emitted (generateImageForWordWithGemini svcI term retries initialDelay w))
      <= Z.to_nat (retries + 1))%nat.
Proof.
  destruct (ai w) eqn:Ha; [destruct (isCurrentlyGeminiQuotaExhausted w) eqn:Hq|].
  - destruct (call_not_started_run svcW svcI term retries initialDelay w (or_intror Hq))
      as [(m & ->) (m' & ->)]. cbn. lia.
  - rewrite word_call_attempts, image_call_attempts by assumption.
    unfold started. cbn [emitted].
    split;
      match goal with
      | |- context [attempts ?f ?t ?g ?o ?r ?n ?i ?d ?w'] =>
          pose proof (attempts_requests_bound f t g o r n i d w') as Hb;
          destruct (value (attempts f t g o r n i d w'))
      end;
      cbn [afterLoop snd];
      change (ELoading true :: ?b ++ ?c) with ([ELoading true] ++ b ++ c);
      rewrite !requestCount_app; cbn; lia.
  - destruct (call_not_started_run svcW svcI term retries initialDelay w (or_introl Ha))
      as [(m & ->) (m' & ->)]. cbn. lia.
Qed.

Lemma parse_throws (e thrown : JsVal) :
  parseGeminiError e = Threw thrown ->
  js_String e = None /\ thrown = typeErrorToPrimitive.
Proof.
  unfold parseGeminiError. destruct (js_String e); [discriminate|].
  now intros [= <-].
Qed.

Lemma unreadable_word_attempt (a : Attempt JsVal) (e thrown : JsVal) :
  classifyWord a = Failed e -> parseGeminiError e = Threw thrown -> a = Threw e.
Proof.
  destruct a as [data|e']; cbn.
  - destruct (isNullish data) eqn:Hn.
    + intros [= <-] Hp.
      destruct (typeError_not_quota data Hn) as (p & Hp' & _). congruence.
    + destruct (missingEssentialFields data); discriminate.
  - now intros [= ->].
Qed.

Lemma unreadable_image_attempt (a : Attempt GenerateImagesResponse) (e : JsVal) :
  classifyImage a = Failed e -> a = Threw e.
Proof.
  destruct a as [response|e']; cbn.
  - destruct (firstImageBytes response); discriminate.
  - now intros [= ->].
Qed.

(** How a started call settles, read off the completion of its loop. *)
Lemma started_settles {A : Type} (f : Feature) (term : string)
    (degraded : option A) (outcome : Z -> Outcome A) (retries d : Z) (w : World) :
  let body := attempts f term degraded outcome retries (Z.to_nat (retries + 1)) 0 d w in
  (exists v, value (started f term body) = Resolved v
             /\ (v = None \/ value body = Return v))
  \/ (exists j e thrown,
         0 <= j <= retries
         /\ outcome j = Failed e
         /\ parseGeminiError e = Threw thrown
         /\ value (started f term body) = Rejected thrown).
Proof.
  cbv zeta. unfold started. cbn [value].
  destruct (attempts_completion f term degraded outcome retries
              (Z.to_nat (retries + 1)) 0 d w)
    as [H | [(v & H) | (j & e & thrown & Hj & Ho & Hp & H)]];
    cbv zeta in H; rewrite H; cbn [afterLoop fst].
  - left. exists None. split; [reflexivity|now left].
  - left. exists v. split; [reflexivity|now right].
  - right. exists j, e, thrown. repeat split; (lia || assumption).
Qed.

Lemma word_call_settles_or_rejects (svc : Z -> Attempt JsVal) (term : string)
    (retries initialDelay : Z) (w : World) :
  (exists v, value (generateWordDetailsWithGemini svc term retries initialDelay w)
             = Resolved v)
  \/ (exists j e,
         0 <= j <= retries /\ svc j = Threw e /\ js_String e = None
         /\ value (generateWordDetailsWithGemini svc term retries initialDelay w)
            = Rejected typeErrorToPrimitive).
Proof.
  destruct (ai w) eqn:Ha; [destruct (isCurrentlyGeminiQuotaExhausted w) eqn:Hq|].
  - destruct (call_not_started_run svc (fun _ => Threw JNull) term retries initialDelay w
                (or_intror Hq)) as [(m & ->) _].
    left. eexists. reflexivity.
  - rewrite word_call_attempts by assumption.
    destruct (started_settles WordDetails term (Some (JObj [("term", JStr term)]))
                (fun j => classifyWord (svc j)) retries initialDelay (set_loading true w))
      as [(v & Hv & _) | (j & e & thrown & Hj & Ho & Hp & Hv)].
    + left. now exists v.
    + right. exists j, e. cbv beta in Ho.
      pose proof (unreadable_word_attempt _ _ _ Ho Hp) as Hs.
      destruct (parse_throws _ _ Hp) as (Hstr & ->).
      repeat split; (lia || assumption).
  - destruct (call_not_started_run svc (fun _ => Threw JNull) term retries initialDelay w
                (or_introl Ha)) as [(m & ->) _].
    left. eexists. reflexivity.
Qed.

Lemma image_call_settles_or_rejects (svc : Z -> Attempt GenerateImagesResponse)
    (term : string) (retries initialDelay : Z) (w : World) :
  (exists v, value (generateImageForWordWithGemini svc term retries initialDelay w)
             = Resolved v)
  \/ (exists j e,
         0 <= j <= retries /\ svc j = Threw e /\ js_String e = None
         /\ value (generateImageForWordWithGemini svc term retries initialDelay w)
            = Rejected typeErrorToPrimitive).
Proof.
  destruct (ai w) eqn:Ha; [destruct (isCurrentlyGeminiQuotaExhausted w) eqn:Hq|].
  - destruct (call_not_started_run (fun _ => Threw JNull) svc term retries initialDelay w
                (or_intror Hq)) as [_ (m & ->)].
    left. eexists. reflexivity.
  - rewrite image_call_attempts by assumption.
    destruct (started_settles ImageGeneration term None
                (fun j => classifyImage (svc j)) retries initialDelay (set_loading true w))
      as [(v & Hv & _) | (j & e & thrown & Hj & Ho & Hp & Hv)].
    + left. now exists v.
    + right. exists j, e. cbv beta in Ho.
      pose proof (unreadable_image_attempt _ _ Ho) as Hs.
      destruct (parse_throws _ _ Hp) as (Hstr & ->).
      repeat split; (lia || assumption).
  - destruct (call_not_started_run (fun _ => Threw JNull) svc term retries initialDelay w
                (or_introl Ha)) as [_ (m & ->)].
    left. eexists. reflexivity.
Qed.

Lemma readable_not_thrown {R : Type} (svc : Z -> Attempt R) (j : Z) (e : JsVal) :
  readableErrors svc -> svc j = Threw e -> js_String e = None -> False.
Proof.
  intros Hread Hs Hstr. destruct (Hread j e Hs) as (p & Hp).
  unfold parseGeminiError in Hp. now rewrite Hstr in Hp.
Qed.

(** X2: a call rejects only through the classifier.  When the
    classifier reads every value the service throws, a call settles by
    resolving, with a payload or with null.  A call that rejects does so
    with the [TypeError] of the [String(error)] of line 320, and an attempt
    within the budget threw a value that this conversion cannot print. *)
Theorem calls_reject_only_on_unreadable_error
    (svcW : Z -> Attempt JsVal) (svcI : Z -> Attempt GenerateImagesResponse)
    (term : string) (retries initialDelay : Z) (w : World) :
  let rw := generateWordDetailsWithGemini svcW term retries initialDelay w in
  let ri := generateImageForWordWithGemini svcI term retries initialDelay w in
  (readableErrors svcW -> exists v, value rw = Resolved v)
  /\ (readableErrors svcI -> exists v, value ri = Resolved v)
  /\ (forall thrown, value rw = Rejected thrown ->
        thrown = typeErrorToPrimitive
        /\ exists j e, 0 <= j <= retries /\ svcW j = Threw e /\ js_String e = None)
  /\ (forall thrown, value ri = Rejected thrown ->
        thrown = typeErrorToPrimitive
        /\ exists j e, 0 <= j <= retries /\ svcI j = Threw e /\ js_String e = None).
Proof.
  cbv zeta. split; [|split; [|split]].
  - intros Hread.
    destruct (word_call_settles_or_rejects svcW term retries initialDelay w)
      as [Hv | (j & e & _ & Hs & Hstr & _)]; [exact Hv|].
    exfalso. exact (readable_not_thrown svcW j e Hread Hs Hstr).
  - intros Hread.
    destruct (image_call_settles_or_rejects svcI term retries initialDelay w)
      as [Hv | (j & e & _ & Hs & Hstr & _)]; [exact Hv|].
    exfalso. exact (readable_not_thrown svcI j e Hread Hs Hstr).
  - intros thrown Hrej.
    destruct (word_call_settles_or_rejects svcW term retries initialDelay w)
      as [(v & Hv) | (j & e & Hj & Hs & Hstr & Hv)]; rewrite Hv in Hrej.
    + discriminate.
    + injection Hrej as <-. split; [reflexivity|]. now exists j, e.
  - intros thrown Hrej.
    destruct (image_call_settles_or_rejects svcI term retries initialDelay w)
      as [(v & Hv) | (j & e & Hj & Hs & Hstr & Hv)]; rewrite Hv in Hrej.
    + discriminate.
    + injection Hrej as <-. split; [reflexivity|]. now exists j, e.
Qed.

Lemma calls_reject_only_on_unreadable_error_witness :
  let svc := fun _ : Z => @Threw JsVal (JObj [("toString", JNum 1)]) in
  exists j e, 0 <= j <= 2 /\ svc j = Threw e /\ js_String e = None.
Proof.
  intros svc.
  exact (proj2 (proj1 (proj2 (proj2
           (calls_reject_only_on_unreadable_error
              svc (fun _ => Returned (mkGenerateImagesResponse None))
              "cat" 2 7000 (initialWorld true))))
           typeErrorToPrimitive eq_refl)).
Defined.

Section DecidedCalls.
Context {A : Type} (f : Feature) (term : string) (degraded : option A).
Context (outcome : Z -> Outcome A) (retries initialDelay : Z) (w : World).
Context (k : nat).
Hypothesis Hflag : isCurrentlyGeminiQuotaExhausted w = false.
Hypothesis Hbudget : Z.of_nat k <= retries.
Hypothesis Hfailed : forall j, 0 <= j < Z.of_nat k -> retryable (outcome j) = true.

Lemma started_complete_at (v : A) :
  outcome (Z.of_nat k) = Complete v ->
  let r := started f term
             (attempts f term degraded outcome retries (Z.to_nat (retries + 1)) 0
                       initialDelay (set_loading true w)) in
  value r = Resolved (Some v)
  /\ decidedAt k initialDelay r
  /\ levelCount error (emitted r) = 0%nat
  /\ levelCount success (emitted r)
     = match f with WordDetails => 0%nat | ImageGeneration => 1%nat end
  /\ isCurrentlyGeminiQuotaExhausted (final r) = false.
Proof.
  intros Ho r. subst r.
  replace (Z.to_nat (retries + 1)) with (k + S (Z.to_nat (retries - Z.of_nat k)))%nat
    by lia.
  destruct (attempts_skip_retryable f term degraded outcome retries k
              (Z.to_nat (retries - Z.of_nat k)) 0 initialDelay (set_loading true w)
              ltac:(lia) Hfailed)
    as (pre & w' & -> & P1 & P2 & P3 & P4 & P5 & _ & P7 & _).
  cbn [Z.add] in *.
  rewrite (attempts_at_complete f term degraded outcome retries _ _ _ w' v Ho).
  unfold started, decidedAt. cbn [after value final emitted afterLoop fst snd].
  change (ELoading true :: (pre ++ ERequest f (Z.of_nat k) :: emitted (announce f term w'))
            ++ [ELoading false])
    with ([ELoading true] ++ (pre ++ [ERequest f (Z.of_nat k)]
                                ++ emitted (announce f term w')) ++ [ELoading false]).
  rewrite !requestCount_app, !sleepDelays_app, !levelCount_app, P1, P2, P3, P4, P5.
  specialize (P7 Hflag).
  destruct f; cbn; rewrite ?app_nil_r; repeat split; try lia; exact P7.
Qed.

Lemma started_quota_at (e : JsVal) (p : ParsedError) :
  outcome (Z.of_nat k) = Failed e ->
  parseGeminiError e = Returned p ->
  isQuotaExhaustedError p = true ->
  let r := started f term
             (attempts f term degraded outcome retries (Z.to_nat (retries + 1)) 0
                       initialDelay (set_loading true w)) in
  value r = Resolved None
  /\ decidedAt k initialDelay r
  /\ levelCount error (emitted r) = 1%nat
  /\ isCurrentlyGeminiQuotaExhausted (final r) = true
  /\ exists id dueAt,
       quotaCooldownTimeoutId (final r) = Some id
       /\ In (mkTimer id (dueAt + GEMINI_QUOTA_COOLDOWN_MS)
                      (Some (featureDescription f term)))
             (pendingTimers (final r)).
Proof.
  intros Ho Hp He r. subst r.
  replace (Z.to_nat (retries + 1)) with (k + S (Z.to_nat (retries - Z.of_nat k)))%nat
    by lia.
  destruct (attempts_skip_retryable f term degraded outcome retries k
              (Z.to_nat (retries - Z.of_nat k)) 0 initialDelay (set_loading true w)
              ltac:(lia) Hfailed)
    as (pre & w' & -> & P1 & P2 & P3 & P4 & P5 & _ & P7 & _).
  cbn [Z.add] in *.
  rewrite (attempts_at_quota f term degraded outcome retries _ _ _ w' e p Ho Hp He).
  cbv zeta.
  destruct (cooldown_enters_any (Some (featureDescription f term)) w' (P7 Hflag))
    as (E1 & E2 & E3 & E4 & _).
  cbv zeta in E1, E2, E3, E4.
  unfold started, decidedAt. cbn [after value final emitted afterLoop fst snd].
  rewrite E1.
  change (ELoading true :: (pre ++ [ERequest f (Z.of_nat k)] ++ ?c) ++ [ELoading false])
    with ([ELoading true] ++ (pre ++ [ERequest f (Z.of_nat k)] ++ c) ++ [ELoading false]).
  rewrite !requestCount_app, !sleepDelays_app, !levelCount_app, P1, P2, P3, P4.
  cbn. rewrite ?app_nil_r. repeat split; try lia; try assumption.
  eexists _, _. split; [exact E3|exact E4].
Qed.

(** The exception path: the classifier throws on what attempt [k] threw. *)
Lemma started_unreadable_at (e thrown : JsVal) :
  outcome (Z.of_nat k) = Failed e ->
  parseGeminiError e = Threw thrown ->
  let r := started f term
             (attempts f term degraded outcome retries (Z.to_nat (retries + 1)) 0
                       initialDelay (set_loading true w)) in
  value r = Rejected thrown
  /\ decidedAt k initialDelay r
  /\ levelCount error (emitted r) = 0%nat
  /\ (exists during, emitted r = ELoading true :: during ++ [ELoading false])
  /\ globalLoading (final r) = false
  /\ isCurrentlyGeminiQuotaExhausted (final r) = false.
Proof.
  intros Ho Hp r. subst r.
  replace (Z.to_nat (retries + 1)) with (k + S (Z.to_nat (retries - Z.of_nat k)))%nat
    by lia.
  destruct (attempts_skip_retryable f term degraded outcome retries k
              (Z.to_nat (retries - Z.of_nat k)) 0 initialDelay (set_loading true w)
              ltac:(lia) Hfailed)
    as (pre & w' & -> & P1 & P2 & P3 & P4 & P5 & _ & P7 & _).
  cbn [Z.add] in *.
  rewrite (attempts_at_unreadable f term degraded outcome retries _ _ _ w' e thrown
             Ho Hp).
  unfold started, decidedAt. cbn [after value final emitted afterLoop fst snd].
  change (ELoading true :: (pre ++ [ERequest f (Z.of_nat k)]) ++ [ELoading false])
    with ([ELoading true] ++ (pre ++ [ERequest f (Z.of_nat k)]) ++ [ELoading false]).
  rewrite !requestCount_app, !sleepDelays_app, !levelCount_app, P1, P2, P3, P4.
  specialize (P7 Hflag).
  cbn. rewrite ?app_nil_r. repeat split; try lia; try exact P7.
  eexists. reflexivity.
Qed.
End DecidedCalls.

(** ** The Loading Flag on every exit *)

(** C8: a call that starts (client initialised, quota flag clear) sets
    the Loading Flag first, before any request, and clears it exactly once,
    after the last request, however the loop was left - a complete answer,
    the quota exhausted, the retries used up, an exception, or a loop that
    never ran; the flag is false when the call is over.  The exception is
    the one path on which the call rejects: an attempt throws a value on
    which the classifier itself throws (line 320) inside the [catch] block;
    the [finally] block still clears the flag, as the last thing the call
    does, and the call rejects with what the classifier threw. *)
Theorem loading_flag_cleared_on_exit
    (svcW : Z -> Attempt JsVal) (svcI : Z -> Attempt GenerateImagesResponse)
    (term : string) (retries initialDelay : Z) (w : World) :
  ai w = true ->
  isCurrentlyGeminiQuotaExhausted w = false ->
  let rw := generateWordDetailsWithGemini svcW term retries initialDelay w in
  let ri := generateImageForWordWithGemini svcI term retries initialDelay w in
  loadingBracketsCall rw
  /\ loadingBracketsCall ri
  /\ (forall (k : nat) (e thrown : JsVal),
        Z.of_nat k <= retries ->
        (forall j, 0 <= j < Z.of_nat k -> retryable (classifyWord (svcW j)) = true) ->
        svcW (Z.of_nat k) = Threw e ->
        parseGeminiError e = Threw thrown ->
        value rw = Rejected thrown
        /\ requestCount (emitted rw) = S k
        /\ (exists during, emitted rw = ELoading true :: during ++ [ELoading false])
        /\ globalLoading (final rw) = false)
  /\ (forall (k : nat) (e thrown : JsVal),
        Z.of_nat k <= retries ->
        (forall j, 0 <= j < Z.of_nat k -> retryable (classifyImage (svcI j)) = true) ->
        svcI (Z.of_nat k) = Threw e ->
        parseGeminiError e = Threw thrown ->
        value ri = Rejected thrown
        /\ requestCount (emitted ri) = S k
        /\ (exists during, emitted ri = ELoading true :: during ++ [ELoading false])
        /\ globalLoading (final ri) = false).
Proof.
  intros Ha Hq rw ri. subst rw ri.
  rewrite word_call_attempts, image_call_attempts by assumption.
  split; [apply started_loading|]. split; [apply started_loading|]. split.
  - intros k e thrown Hk Hf Hs Hp.
    destruct (started_unreadable_at WordDetails term (Some (JObj [("term", JStr term)]))
                (fun j => classifyWord (svcW j)) retries initialDelay w k Hq Hk Hf
                e thrown) as (V & (R & _) & _ & E & L & _); try assumption.
    { unfold classifyWord. now rewrite Hs. }
    now repeat split.
  - intros k e thrown Hk Hf Hs Hp.
    destruct (started_unreadable_at ImageGeneration term None
                (fun j => classifyImage (svcI j)) retries initialDelay w k Hq Hk Hf
                e thrown) as (V & (R & _) & _ & E & L & _); try assumption.
    { unfold classifyImage. now rewrite Hs. }
    now repeat split.
Qed.

Lemma loading_flag_cleared_on_exit_witness :
  let unreadable := JObj [("toString", JNum 1)] in
  let r := generateWordDetailsWithGemini (fun _ => Threw unreadable) "cat" 2 7000
                                         (initialWorld true) in
  loadingBracketsCall r
  /\ value r = Rejected typeErrorToPrimitive
  /\ requestCount (emitted r) = 1%nat
  /\ (exists during, emitted r = ELoading true :: during ++ [ELoading false])
  /\ globalLoading (final r) = false.
Proof.
  intros unreadable r.
  pose proof (loading_flag_cleared_on_exit
                (fun _ => Threw unreadable) (fun _ => Threw unreadable)
                "cat" 2 7000 (initialWorld true) eq_refl eq_refl)
    as (Hbrackets & _ & Hthrows & _).
  split; [exact Hbrackets|].
  refine (Hthrows 0%nat unreadable typeErrorToPrimitive _ _ eq_refl eq_refl).
  - discriminate.
  - intros j Hj. exfalso. cbn in Hj. lia.
Defined.

(** X3: retry pays off.  When the first [k] attempts of a started call
    fail without exhausting the quota and attempt [k] (within the budget)
    brings a complete answer, the call returns that answer after [k + 1]
    requests, [k] warnings and the sleeps d, 2d, ..., with no error
    notification and the quota flag still clear; the image call announces
    the success once, the word lookup is silent. *)
Theorem retry_then_success
    (svcW : Z -> Attempt JsVal) (svcI : Z -> Attempt GenerateImagesResponse)
    (term : string) (retries initialDelay : Z) (w : World)
    (k : nat) (data : JsVal) (bytes : string) :
  ai w = true ->
  isCurrentlyGeminiQuotaExhausted w = false ->
  Z.of_nat k <= retries ->
  (forall j, 0 <= j < Z.of_nat k -> retryable (classifyWord (svcW j)) = true) ->
  completeWordPayload (svcW (Z.of_nat k)) data ->
  (forall j, 0 <= j < Z.of_nat k -> retryable (classifyImage (svcI j)) = true) ->
  completeImageResponse (svcI (Z.of_nat k)) bytes ->
  let rw := generateWordDetailsWithGemini svcW term retries initialDelay w in
  let ri := generateImageForWordWithGemini svcI term retries initialDelay w in
  (value rw = Resolved (Some data)
   /\ decidedAt k initialDelay rw
   /\ levelCount error (emitted rw) = 0%nat
   /\ levelCount success (emitted rw) = 0%nat
   /\ isCurrentlyGeminiQuotaExhausted (final rw) = false)
  /\ (value ri = Resolved (Some bytes)
      /\ decidedAt k initialDelay ri
      /\ levelCount error (emitted ri) = 0%nat
      /\ levelCount success (emitted ri) = 1%nat
      /\ isCurrentlyGeminiQuotaExhausted (final ri) = false).
Proof.
  intros Ha Hq Hk HfW (HsW & HnW & HmW) HfI (response & HsI & HbI) rw ri. subst rw ri.
  rewrite word_call_attempts, image_call_attempts by assumption. split.
  - apply (started_complete_at WordDetails term _ (fun j => classifyWord (svcW j))
             retries initialDelay w k Hq Hk HfW data).
    unfold classifyWord. now rewrite HsW, HnW, HmW.
  - apply (started_complete_at ImageGeneration term None
             (fun j => classifyImage (svcI j))
             retries initialDelay w k Hq Hk HfI bytes).
    unfold classifyImage. now rewrite HsI, HbI.
Qed.

Lemma retry_then_success_witness :
  let cat := JObj [("partOfSpeech", JStr "noun"); ("meaning", JStr "cat");
                   ("exampleSentence", JStr "This is a cat.")] in
  let svc := fun j : Z => if j =? 0 then Threw (JStr "network down") else Returned cat in
  value (generateWordDetailsWithGemini svc "cat" 2 7000 (initialWorld true))
  = Resolved (Some cat).
Proof.
  intros cat svc.
  pose (photo := mkGenerateImagesResponse
                   (Some [mkGeneratedImage (Some (mkImage (Some "abc")))])).
  pose (svcI := fun j : Z => if j =? 0 then @Threw GenerateImagesResponse (JStr "x")
                             else Returned photo).
  assert (HfW : forall j, 0 <= j < Z.of_nat 1 -> retryable (classifyWord (svc j)) = true).
  { intros j Hj. replace j with 0 by lia. reflexivity. }
  assert (HfI : forall j, 0 <= j < Z.of_nat 1 -> retryable (classifyImage (svcI j)) = true).
  { intros j Hj. replace j with 0 by lia. reflexivity. }
  assert (HcW : completeWordPayload (svc (Z.of_nat 1)) cat) by (repeat split).
  assert (HcI : completeImageResponse (svcI (Z.of_nat 1)) "abc").
  { exists photo. split; reflexivity. }
  refine (proj1 (proj1 (retry_then_success svc svcI "cat" 2 7000 (initialWorld true)
                          1 cat "abc" eq_refl eq_refl _ HfW HcW HfI HcI))).
  discriminate.
Defined.

(** X4: a quota error ends the call at whatever attempt it comes.  When
    the first [k] attempts fail without exhausting the quota and attempt
    [k] throws a quota-classified error, the call returns null after
    [k + 1] requests and [k] retries, with one error notification (the
    cooldown's), the flag set and the cooldown timer pending; the rest of
    the budget is not used. *)
Theorem quota_error_after_retries
    (svcW : Z -> Attempt JsVal) (svcI : Z -> Attempt GenerateImagesResponse)
    (term : string) (retries initialDelay : Z) (w : World)
    (k : nat) (eW eI : JsVal) (pW pI : ParsedError) :
  ai w = true ->
  isCurrentlyGeminiQuotaExhausted w = false ->
  Z.of_nat k <= retries ->
  (forall j, 0 <= j < Z.of_nat k -> retryable (classifyWord (svcW j)) = true) ->
  svcW (Z.of_nat k) = Threw eW ->
  parseGeminiError eW = Returned pW ->
  isQuotaExhaustedError pW = true ->
  (forall j, 0 <= j < Z.of_nat k -> retryable (classifyImage (svcI j)) = true) ->
  svcI (Z.of_nat k) = Threw eI ->
  parseGeminiError eI = Returned pI ->
  isQuotaExhaustedError pI = true ->
  let rw := generateWordDetailsWithGemini svcW term retries initialDelay w in
  let ri := generateImageForWordWithGemini svcI term retries initialDelay w in
  (value rw = Resolved None
   /\ decidedAt k initialDelay rw
   /\ levelCount error (emitted rw) = 1%nat
   /\ isCurrentlyGeminiQuotaExhausted (final rw) = true
   /\ exists id, quotaCooldownTimeoutId (final rw) = Some id
                 /\ exists tm, In tm (pendingTimers (final rw)) /\ tid tm = id)
  /\ (value ri = Resolved None
      /\ decidedAt k initialDelay ri
      /\ levelCount error (emitted ri) = 1%nat
      /\ isCurrentlyGeminiQuotaExhausted (final ri) = true
      /\ exists id, quotaCooldownTimeoutId (final ri) = Some id
                    /\ exists tm, In tm (pendingTimers (final ri)) /\ tid tm = id).
Proof.
  intros Ha Hq Hk HfW HsW HpW HeW HfI HsI HpI HeI rw ri. subst rw ri.
  rewrite word_call_attempts, image_call_attempts by assumption. split.
  - destruct (started_quota_at WordDetails term (Some (JObj [("term", JStr term)]))
                (fun j => classifyWord (svcW j))
                retries initialDelay w k Hq Hk HfW eW pW)
      as (V & D & E & F & id & dueAt & Hid & Hin); try assumption.
    { unfold classifyWord. now rewrite HsW. }
    repeat split; try assumption; try apply D.
    exists id. split; [exact Hid|]. eexists. split; [exact Hin|reflexivity].
  - destruct (started_quota_at ImageGeneration term None
                (fun j => classifyImage (svcI j))
                retries initialDelay w k Hq Hk HfI eI pI)
      as (V & D & E & F & id & dueAt & Hid & Hin); try assumption.
    { unfold classifyImage. now rewrite HsI. }
    repeat split; try assumption; try apply D.
    exists id. split; [exact Hid|]. eexists. split; [exact Hin|reflexivity].
Qed.

Lemma quota_error_after_retries_witness :
  let quota := nestedError "Quota exceeded" (Some 429) "RESOURCE_EXHAUSTED" in
  let svc := fun j : Z => if j =? 0 then Threw (JStr "network down") else Threw quota in
  requestCount
    (emitted (generateWordDetailsWithGemini svc "cat" 2 7000 (initialWorld true)))
  = 2%nat.
Proof.
  intros quota svc.
  pose (svcI := fun j : Z => if j =? 0 then @Threw GenerateImagesResponse (JStr "x")
                             else Threw quota).
  assert (HfW : forall j, 0 <= j < Z.of_nat 1 -> retryable (classifyWord (svc j)) = true).
  { intros j Hj. replace j with 0 by lia. reflexivity. }
  assert (HfI : forall j, 0 <= j < Z.of_nat 1 -> retryable (classifyImage (svcI j)) = true).
  { intros j Hj. replace j with 0 by lia. reflexivity. }
  refine (proj1 (proj1 (proj2 (proj1
            (quota_error_after_retries svc svcI "cat" 2 7000 (initialWorld true)
               1 quota quota _ _ eq_refl eq_refl _ HfW eq_refl eq_refl eq_refl
               HfI eq_refl eq_refl eq_refl))))).
  discriminate.
Defined.

(** X5: the statements after the [finally] (lines 454-456, 541-543) run
    exactly when the budget is negative.  A started call with
    [retries < 0] makes no request and returns null after the one error
    notification of those lines; with [retries >= 0] nothing is emitted
    once the Loading Flag has been cleared, and at least one request was
    made. *)
Theorem fall_through_only_without_budget
    (svcW : Z -> Attempt JsVal) (svcI : Z -> Attempt GenerateImagesResponse)
    (term : string) (retries initialDelay : Z) (w : World) :
  ai w = true ->
  isCurrentlyGeminiQuotaExhausted w = false ->
  let rw := generateWordDetailsWithGemini svcW term retries initialDelay w in
  let ri := generateImageForWordWithGemini svcI term retries initialDelay w in
  (retries < 0 ->
   rw = mkRun (Resolved None) (set_loading false w)
              [ELoading true; ELoading false;
               EToast (MsgFailedAfterLoop WordDetails term) error]
   /\ ri = mkRun (Resolved None) (set_loading false w)
                 [ELoading true; ELoading false;
                  EToast (MsgFailedAfterLoop ImageGeneration term) error])
  /\ (0 <= retries ->
      (exists during, emitted rw = ELoading true :: during ++ [ELoading false]
                      /\ (1 <= requestCount during)%nat)
      /\ (exists during, emitted ri = ELoading true :: during ++ [ELoading false]
                         /\ (1 <= requestCount during)%nat)).
Proof.
  intros Ha Hq rw ri. subst rw ri.
  rewrite word_call_attempts, image_call_attempts by assumption. split.
  - intros Hr. replace (Z.to_nat (retries + 1)) with 0%nat by lia.
    split; reflexivity.
  - intros Hr. destruct (Z.to_nat (retries + 1)) as [|n] eqn:Hn; [lia|].
    unfold started. cbn [emitted].
    split;
      match goal with
      | |- context [attempts ?f ?t ?g ?o ?r (S n) ?i ?d ?w'] =>
          pose proof (attempts_leaves f t g o r n i d w' ltac:(lia)) as Hl;
          exists (emitted (attempts f t g o r (S n) i d w'));
          split; [|apply attempts_first_request];
          destruct (value (attempts f t g o r (S n) i d w'));
          [contradiction|reflexivity|reflexivity]
      end.
Qed.

Lemma fall_through_only_without_budget_witness :
  emitted (generateWordDetailsWithGemini (fun _ => Returned (JObj [])) "cat" (-1) 7000
                                         (initialWorld true))
  = [ELoading true; ELoading false; EToast (MsgFailedAfterLoop WordDetails "cat") error].
Proof.
  destruct (proj1 (fall_through_only_without_budget
                     (fun _ => Returned (JObj []))
                     (fun _ => Returned (mkGenerateImagesResponse None))
                     "cat" (-1) 7000 (initialWorld true) eq_refl eq_refl) eq_refl)
    as [H _].
  now rewrite H.
Defined.

(** X6: notifications of a started call.  It emits at most one error
    notification, exactly one whenever it returns null, and exactly one
    warning for each sleep - whatever the service does. *)
Theorem one_error_per_failed_call
    (svcW : Z -> Attempt JsVal) (svcI : Z -> Attempt GenerateImagesResponse)
    (term : string) (retries initialDelay : Z) (w : World) :
  ai w = true ->
  isCurrentlyGeminiQuotaExhausted w = false ->
  let rw := generateWordDetailsWithGemini svcW term retries initialDelay w in
  let ri := generateImageForWordWithGemini svcI term retries initialDelay w in
  ((levelCount error (emitted rw) <= 1)%nat
   /\ (value rw = Resolved None -> levelCount error (emitted rw) = 1%nat)
   /\ levelCount warning (emitted rw) = length (sleepDelays (emitted rw)))
  /\ ((levelCount error (emitted ri) <= 1)%nat
      /\ (value ri = Resolved None -> levelCount error (emitted ri) = 1%nat)
      /\ levelCount warning (emitted ri) = length (sleepDelays (emitted ri))).
Proof.
  intros Ha Hq rw ri. subst rw ri.
  rewrite word_call_attempts, image_call_attempts by assumption.
  destruct (Z_lt_le_dec retries 0) as [Hr|Hr].
  - replace (Z.to_nat (retries + 1)) with 0%nat by lia.
    cbn. repeat split; lia.
  - destruct (Z.to_nat (retries + 1)) as [|n] eqn:Hn; [lia|].
    unfold started. cbn [value emitted].
    split;
      match goal with
      | |- context [attempts ?f ?t ?g ?o ?r (S n) ?i ?d ?w'] =>
          destruct (attempts_errors f t g o r n i d w' Hq ltac:(lia)) as (E1 & E2 & E3);
          cbv zeta in E1, E2, E3;
          pose proof (attempts_leaves f t g o r n i d w' ltac:(lia)) as Hl;
          destruct (value (attempts f t g o r (S n) i d w')) as [|v|thrown] eqn:Hv;
          [contradiction| |];
          cbn [afterLoop fst snd];
          change (ELoading true :: ?b ++ [ELoading false])
            with ([ELoading true] ++ b ++ [ELoading false]);
          rewrite !levelCount_app, !sleepDelays_app, !length_app, E3;
          change (levelCount error [ELoading true]) with 0%nat;
          change (levelCount error [ELoading false]) with 0%nat;
          change (levelCount warning [ELoading true]) with 0%nat;
          change (levelCount warning [ELoading false]) with 0%nat;
          change (sleepDelays [ELoading true]) with (@nil Z);
          change (sleepDelays [ELoading false]) with (@nil Z);
          cbn [length];
          (split; [lia|split; [|lia]]);
          intros Hnull;
          [injection Hnull as ->; rewrite E2 by reflexivity; lia|discriminate]
      end.
Qed.

Lemma one_error_per_failed_call_witness :
  levelCount error
    (emitted (generateWordDetailsWithGemini (fun _ => Threw JNull) "cat" 2 7000
                                            (initialWorld true)))
  = 1%nat.
Proof.
  refine (proj1 (proj2 (proj1
            (one_error_per_failed_call
               (fun _ => Threw JNull) (fun _ => Threw JNull)
               "cat" 2 7000 (initialWorld true) eq_refl eq_refl))) _).
  reflexivity.
Defined.

(** X7: only a quota error starts the cooldown.  If the service never
    throws an error classified as quota exhaustion, a call started in a
    reachable world with the flag clear ends with the flag clear, no timer
    handle and no pending timer - whatever else the service does. *)
Theorem no_quota_error_no_cooldown
    (svcW : Z -> Attempt JsVal) (svcI : Z -> Attempt GenerateImagesResponse)
    (term : string) (retries initialDelay : Z) (w : World) :
  consistent w = true ->
  isCurrentlyGeminiQuotaExhausted w = false ->
  neverQuota svcW ->
  neverQuota svcI ->
  let ww := final (generateWordDetailsWithGemini svcW term retries initialDelay w) in
  let wi := final (generateImageForWordWithGemini svcI term retries initialDelay w) in
  (isCurrentlyGeminiQuotaExhausted ww = false
   /\ quotaCooldownTimeoutId ww = None /\ pendingTimers ww = [])
  /\ (isCurrentlyGeminiQuotaExhausted wi = false
      /\ quotaCooldownTimeoutId wi = None /\ pendingTimers wi = []).
Proof.
  intros Hc Hq HW HI ww wi. subst ww wi.
  destruct (calls_preserve_consistent svcW svcI term retries initialDelay w Hc)
    as [CW CI].
  assert (FW : isCurrentlyGeminiQuotaExhausted
                 (final (generateWordDetailsWithGemini svcW term retries initialDelay w))
               = false).
  { destruct (ai w) eqn:Ha.
    - rewrite word_call_attempts by assumption. unfold started. cbn [final].
      unfold set_loading at 1. cbn [isCurrentlyGeminiQuotaExhausted].
      apply attempts_flag_clear; [exact Hq|now apply neverQuota_word].
    - destruct (call_not_started_run svcW svcI term retries initialDelay w
                  (or_introl Ha)) as [(m & ->) _]. exact Hq. }
  assert (FI : isCurrentlyGeminiQuotaExhausted
                 (final (generateImageForWordWithGemini svcI term retries initialDelay w))
               = false).
  { destruct (ai w) eqn:Ha.
    - rewrite image_call_attempts by assumption. unfold started. cbn [final].
      unfold set_loading at 1. cbn [isCurrentlyGeminiQuotaExhausted].
      apply attempts_flag_clear; [exact Hq|now apply neverQuota_image].
    - destruct (call_not_started_run svcW svcI term retries initialDelay w
                  (or_introl Ha)) as [_ (m & ->)]. exact Hq. }
  split; (split; [assumption|now apply consistent_closed]).
Qed.

Lemma no_quota_error_no_cooldown_witness :
  pendingTimers
    (final (generateWordDetailsWithGemini (fun _ => Threw (JStr "network down"))
                                          "cat" 2 7000 (initialWorld true)))
  = [].
Proof.
  assert (HW : neverQuota (fun _ : Z => @Threw JsVal (JStr "network down"))).
  { intros j e p He Hp. injection He as <-. now injection Hp as <-. }
  assert (HI : neverQuota (fun _ : Z => @Threw GenerateImagesResponse
                                               (JStr "network down"))).
  { intros j e p He Hp. injection He as <-. now injection Hp as <-. }
  exact (proj2 (proj2 (proj1
           (no_quota_error_no_cooldown _ _ "cat" 2 7000 (initialWorld true)
              eq_refl eq_refl HW HI)))).
Defined.

Lemma world_after_quota_error
    (svc : Z -> Attempt JsVal) (term : string) (retries initialDelay : Z)
    (w : World) (e : JsVal) (p : ParsedError) :
  ai w = true ->
  isCurrentlyGeminiQuotaExhausted w = false ->
  consistent w = true ->
  0 <= retries ->
  svc 0 = Threw e ->
  parseGeminiError e = Returned p ->
  isQuotaExhaustedError p = true ->
  final (generateWordDetailsWithGemini svc term retries initialDelay w)
  = mkWorld true true (Some (nextTimerId w)) false (clock w) (nextTimerId w + 1)
            [mkTimer (nextTimerId w) (clock w + GEMINI_QUOTA_COOLDOWN_MS)
                     (Some (featureDescription WordDetails term))].
Proof.
  intros Ha Hq Hc Hr Hs Hp He.
  rewrite word_call_attempts by assumption.
  destruct (Z.to_nat (retries + 1)) as [|n] eqn:Hn; [lia|].
  rewrite (attempts_quota_first WordDetails term _ _ retries n _ _ e p)
    by (try assumption; cbv beta; now rewrite Hs).
  cbv zeta. rewrite cooldown_enters by assumption.
  unfold started. cbn. now rewrite Ha.
Qed.

Lemma advance_pending_early (t : Z) (client loading : bool) (id now next dueAt : Z)
    (featureName : option string) :
  t < dueAt ->
  now < dueAt ->
  final (advance t (mkWorld client true (Some id) loading now next
                            [mkTimer id dueAt featureName]))
  = mkWorld client true (Some id) loading (Z.max now t) next
            [mkTimer id dueAt featureName].
Proof.
  intros Ht Hnow. unfold advance, bind, gets. simpl.
  assert (Hd : (dueAt <=? Z.max now t) = false) by (apply Z.leb_gt; lia).
  now rewrite Hd.
Qed.

Lemma advance_pending_due (t : Z) (client loading : bool) (id now next dueAt : Z)
    (featureName : option string) :
  dueAt <= t ->
  final (advance t (mkWorld client true (Some id) loading now next
                            [mkTimer id dueAt featureName]))
  = mkWorld client false None loading (Z.max now t) next [].
Proof.
  intros Ht. unfold advance, bind, gets. simpl.
  assert (Hd : (dueAt <=? Z.max now t) = true) by (apply Z.leb_le; lia).
  rewrite Hd. simpl. now rewrite Z.eqb_refl.
Qed.

(** X8: the cooldown, end to end.  After a call has met a quota error,
    every call of either kind made before the cooldown has run its
    GEMINI_QUOTA_COOLDOWN_MS returns null without a request; once that time
    has passed the flag is clear again and a call with a non-negative
    budget reaches the service. *)
Theorem cooldown_blocks_then_releases
    (svc : Z -> Attempt JsVal) (term : string) (retries initialDelay : Z)
    (w : World) (e : JsVal) (p : ParsedError) :
  ai w = true ->
  isCurrentlyGeminiQuotaExhausted w = false ->
  consistent w = true ->
  0 <= retries ->
  svc 0 = Threw e ->
  parseGeminiError e = Returned p ->
  isQuotaExhaustedError p = true ->
  let w1 := final (generateWordDetailsWithGemini svc term retries initialDelay w) in
  (forall t svcW svcI term' retries' delay',
      t < clock w + GEMINI_QUOTA_COOLDOWN_MS ->
      let w2 := final (advance t w1) in
      let rw := generateWordDetailsWithGemini svcW term' retries' delay' w2 in
      let ri := generateImageForWordWithGemini svcI term' retries' delay' w2 in
      value rw = Resolved None /\ requestCount (emitted rw) = 0%nat
      /\ value ri = Resolved None /\ requestCount (emitted ri) = 0%nat)
  /\ (forall t svcW svcI term' retries' delay',
         clock w + GEMINI_QUOTA_COOLDOWN_MS <= t ->
         0 <= retries' ->
         let w2 := final (advance t w1) in
         let rw := generateWordDetailsWithGemini svcW term' retries' delay' w2 in
         let ri := generateImageForWordWithGemini svcI term' retries' delay' w2 in
         isCurrentlyGeminiQuotaExhausted w2 = false
         /\ (1 <= requestCount (emitted rw))%nat
         /\ (1 <= requestCount (emitted ri))%nat).
Proof.
  intros Ha Hq Hc Hr Hs Hp He w1. subst w1.
  rewrite (world_after_quota_error svc term retries initialDelay w e p) by assumption.
  split.
  - intros t svcW svcI term' retries' delay' Ht. cbv zeta.
    rewrite advance_pending_early
      by (try exact Ht; unfold GEMINI_QUOTA_COOLDOWN_MS; lia).
    match goal with
    | |- context [generateWordDetailsWithGemini _ _ _ _ ?w2] =>
        destruct (call_not_started_run svcW svcI term' retries' delay' w2
                    (or_intror eq_refl)) as [(m & ->) (m' & ->)]
    end.
    now cbn.
  - intros t svcW svcI term' retries' delay' Ht Hr'. cbv zeta.
    rewrite advance_pending_due by exact Ht.
    split; [reflexivity|].
    rewrite word_call_attempts, image_call_attempts by reflexivity.
    destruct (Z.to_nat (retries' + 1)) as [|n] eqn:Hn; [lia|].
    unfold started. cbn [emitted].
    split;
      match goal with
      | |- context [attempts ?f ?t ?g ?o ?r (S n) ?i ?d ?w'] =>
          pose proof (attempts_first_request f t g o r n i d w') as Hb;
          change (ELoading true :: ?b ++ ?c) with ([ELoading true] ++ b ++ c);
          rewrite !requestCount_app; lia
      end.
Qed.

Lemma cooldown_blocks_then_releases_witness :
  let quota := nestedError "Quota exceeded" (Some 429) "RESOURCE_EXHAUSTED" in
  let w1 := final (generateWordDetailsWithGemini (fun _ => Threw quota) "cat" 2 7000
                                                 (initialWorld true)) in
  requestCount
    (emitted (generateWordDetailsWithGemini (fun _ => Returned (JObj [])) "dog" 2 7000
                                            (final (advance 899999 w1))))
  = 0%nat
  /\ (1 <= requestCount
             (emitted (generateImageForWordWithGemini
                         (fun _ => Returned (mkGenerateImagesResponse None))
                         "dog" 1 8000 (final (advance 900000 w1)))))%nat.
Proof.
  intros quota w1.
  assert (H : 0 <= 2) by discriminate.
  destruct (cooldown_blocks_then_releases (fun _ => Threw quota) "cat" 2 7000
              (initialWorld true) quota _ eq_refl eq_refl eq_refl H eq_refl eq_refl
              eq_refl)
    as [Hblock Hrelease].
  split.
  - exact (proj1 (proj2 (Hblock 899999 (fun _ => Returned (JObj []))
                           (fun _ => Returned (mkGenerateImagesResponse None))
                           "dog" 2 7000 eq_refl))).
  - assert (H1 : 0 + GEMINI_QUOTA_COOLDOWN_MS <= 900000) by discriminate.
    assert (H2 : 0 <= 1) by discriminate.
    exact (proj2 (proj2 (Hrelease 900000 (fun _ => Returned (JObj []))
                           (fun _ => Returned (mkGenerateImagesResponse None))
                           "dog" 1 8000 H1 H2))).
Defined.

(** * Further properties of the classifier *)

Lemma lower_upper_ascii (c : ascii) : lower_ascii (upper_ascii c) = lower_ascii c.
Proof. destruct c as [[] [] [] [] [] [] [] []]; reflexivity. Qed.

Lemma toLowerCase_toUpperCase (s : string) :
  toLowerCase (toUpperCase s) = toLowerCase s.
Proof.
  unfold toLowerCase, toUpperCase.
  induction s as [|c s IH]; [reflexivity|].
  cbn [map_string]. now rewrite lower_upper_ascii, IH.
Qed.

(** X9: the classification ignores the case of the message, and in the
    nested shape the case of the status: two errors of the same shape whose
    messages agree once lower-cased (and whose statuses agree once
    upper-cased) are both read by the classifier and classified alike, be
    they nested, flat or a thrown string. *)
Theorem classification_ignores_case
    (m m' s s' : string) (code : option Z) (st : JsVal) :
  toLowerCase m = toLowerCase m' ->
  toUpperCase s = toUpperCase s' ->
  (exists p p',
      parseGeminiError (nestedError m code s) = Returned p
      /\ parseGeminiError (nestedError m' code s') = Returned p'
      /\ classOf p = classOf p')
  /\ (exists p p',
         parseGeminiError (flatError m st) = Returned p
         /\ parseGeminiError (flatError m' st) = Returned p'
         /\ classOf p = classOf p')
  /\ (exists p p',
         parseGeminiError (JStr m) = Returned p
         /\ parseGeminiError (JStr m') = Returned p'
         /\ classOf p = classOf p').
Proof.
  intros Hm Hs. split; [|split].
  - eexists _, _. split; [reflexivity|]. split; [reflexivity|].
    unfold parsedFrom, nestedError, classOf.
    destruct code as [n|]; cbn; now rewrite Hm, Hs.
  - eexists _, _. split; [reflexivity|]. split; [reflexivity|].
    unfold parsedFrom, flatError, classOf.
    destruct st; cbn; now rewrite Hm.
  - eexists _, _. split; [reflexivity|]. split; [reflexivity|].
    unfold parsedFrom, classOf.
    cbn [get is_string andb truthy]. rewrite !andb_false_r.
    cbn. now rewrite Hm.
Qed.

Lemma classification_ignores_case_witness :
  exists p p',
    parseGeminiError (flatError "Quota Exceeded" (JNum 429)) = Returned p
    /\ parseGeminiError (flatError "QUOTA EXCEEDED" (JNum 429)) = Returned p'
    /\ classOf p = classOf p'.
Proof.
  exact (proj1 (proj2 (classification_ignores_case
                         "Quota Exceeded" "QUOTA EXCEEDED" "" "" None (JNum 429)
                         eq_refl eq_refl))).
Defined.

(** X10: the flat shape with a numeric status, which is what the SDK
    throws.  The classifier reads it.  Under status 429 the error is quota
    exhaustion when its message mentions quota and a retryable rate limit
    otherwise; under any other non-zero status it is neither, whatever the
    message says - a 403 reading quota exceeded does not start the
    cooldown; a status of 0 is read as no status at all. *)
Theorem flat_numeric_status (m : string) (n : Z) :
  exists p,
    parseGeminiError (flatError m (JNum n)) = Returned p
    /\ let mentionsQuota := includes (toLowerCase m) "quota" in
       (n = 429 ->
        statusCode p = Some 429
        /\ isQuotaExhaustedError p = mentionsQuota
        /\ isRateLimitErrorForRetry p = negb mentionsQuota)
       /\ (n <> 429 -> n <> 0 ->
           statusCode p = Some n
           /\ isQuotaExhaustedError p = false
           /\ isRateLimitErrorForRetry p = false)
       /\ (n = 0 -> parseGeminiError (JObj [("message", JStr m)]) = Returned p).
Proof.
  eexists. split; [reflexivity|]. cbv zeta. split; [|split].
  - intros ->. unfold parsedFrom, flatError. cbn.
    rewrite !orb_false_r. repeat split.
  - intros H429 H0. unfold parsedFrom, flatError. cbn.
    apply Z.eqb_neq in H429, H0. rewrite H0. cbn. rewrite H429, H0. cbn.
    repeat split.
  - intros ->. reflexivity.
Qed.

Lemma flat_numeric_status_witness :
  exists p,
    parseGeminiError (flatError "Quota exceeded for this project" (JNum 403))
    = Returned p
    /\ isQuotaExhaustedError p = false.
Proof.
  destruct (flat_numeric_status "Quota exceeded for this project" 403)
    as (p & Hp & _ & Hother & _).
  exists p. split; [exact Hp|].
  refine (proj1 (proj2 (Hother _ _))); discriminate.
Defined.

(** X11: whenever the classifier returns, the message it searches is the
    lower-cased form of the message it hands back for display, whichever of
    its three branches read the error. *)
Theorem searched_message_is_displayed_message (e : JsVal) (p : ParsedError) :
  parseGeminiError e = Returned p ->
  detailedErrorMessage p = toLowerCase (displayErrorMsg p).
Proof.
  intros Hp. apply parse_returned in Hp. destruct Hp as (shown & _ & ->).
  unfold parsedFrom.
  destruct (truthy e && truthy (get e "error")
            && is_string (get (get e "error") "message"))%bool; [reflexivity|].
  destruct (truthy e && is_string (get e "message"))%bool; reflexivity.
Qed.

Lemma searched_message_is_displayed_message_witness :
  detailedErrorMessage (parsedFrom "[object Object]" (JObj [("code", JNum 7)]))
  = toLowerCase (displayErrorMsg (parsedFrom "[object Object]" (JObj [("code", JNum 7)]))).
Proof.
  exact (searched_message_is_displayed_message (JObj [("code", JNum 7)]) _ eq_refl).
Defined.

(** * shuffleArray *)

Lemma update_length {T : Type} (i : nat) (x : T) (a : list T) :
  length (update i x a) = length a.
Proof.
  revert i. induction a as [|y a IH]; intros [|i]; cbn; auto.
Qed.

Lemma nth_error_update_same {T : Type} (i : nat) (x y : T) (a : list T) :
  nth_error a i = Some y -> nth_error (update i x a) i = Some x.
Proof.
  revert i. induction a as [|z a IH]; intros [|i]; cbn; try discriminate; auto.
Qed.

Lemma nth_error_update_other {T : Type} (i j : nat) (x : T) (a : list T) :
  i <> j -> nth_error (update i x a) j = nth_error a j.
Proof.
  revert i j.
  induction a as [|z a IH]; intros [|i] [|j] Hij; cbn;
    try reflexivity; try contradiction.
  apply IH. congruence.
Qed.

(** Overwriting one cell trades the old content for the new. *)
Lemma update_perm {T : Type} (i : nat) (x y : T) (a : list T) :
  nth_error a i = Some y -> Permutation (x :: a) (y :: update i x a).
Proof.
  revert i. induction a as [|z a IH]; intros [|i]; cbn; try discriminate.
  - intros [= ->]. apply perm_swap.
  - intros H. specialize (IH i H).
    eapply perm_trans; [apply perm_swap|].
    eapply perm_trans; [apply perm_skip, IH|]. apply perm_swap.
Qed.

Lemma swap_perm {T : Type} (i j : nat) (a : list T) : Permutation (swap i j a) a.
Proof.
  unfold swap.
  destruct (nth_error a i) as [x|] eqn:Hi; [|reflexivity].
  destruct (nth_error a j) as [y|] eqn:Hj; [|reflexivity].
  assert (Hj' : nth_error (update i y a) j = Some y).
  { destruct (Nat.eq_dec i j) as [->|Hne].
    - now apply nth_error_update_same with (y := x).
    - now rewrite nth_error_update_other. }
  pose proof (update_perm i y x a Hi) as P1.
  pose proof (update_perm j x y (update i y a) Hj') as P2.
  apply Permutation_cons_inv with (a := y). symmetry.
  eapply perm_trans; [exact P1|exact P2].
Qed.

Lemma shuffleFrom_perm {T : Type} (random : nat -> nat) (i : nat) (a : list T) :
  Permutation (shuffleFrom random i a) a.
Proof.
  revert a. induction i as [|i IH]; intros a; [reflexivity|].
  cbn [shuffleFrom]. eapply perm_trans; [apply IH|apply swap_perm].
Qed.

Lemma shuffleArray_perm_only {T : Type} (random : nat -> nat) (array : list T) :
  Permutation (shuffleArray random array) array.
Proof. apply shuffleFrom_perm. Qed.

(** The swap, spelled out, for indices the loop can produce. *)
Lemma swap_in_range {T : Type} (i j : nat) (a : list T) :
  (j <= i < length a)%nat ->
  exists x y, nth_error a i = Some x /\ nth_error a j = Some y
              /\ swap i j a = update j x (update i y a)
              /\ nth_error (swap i j a) i = Some y
              /\ nth_error (swap i j a) j = Some x.
Proof.
  intros [Hji Hi].
  destruct (nth_error a i) as [x|] eqn:Ex;
    [|apply nth_error_None in Ex; lia].
  destruct (nth_error a j) as [y|] eqn:Ey;
    [|apply nth_error_None in Ey; lia].
  exists x, y. unfold swap. rewrite Ex, Ey. repeat split.
  - destruct (Nat.eq_dec i j) as [->|Hne].
    + assert (x = y) by congruence. subst.
      apply nth_error_update_same with (y := y).
      now apply nth_error_update_same with (y := y).
    + rewrite nth_error_update_other by congruence.
      now apply nth_error_update_same with (y := x).
  - destruct (Nat.eq_dec i j) as [->|Hne].
    + apply nth_error_update_same with (y := y).
      now apply nth_error_update_same with (y := x).
    + apply nth_error_update_same with (y := y).
      now rewrite nth_error_update_other.
Qed.

(** X12: shuffling loses and invents nothing.  For draws within their
    range ([0 <= j <= i], which [Math.floor(Math.random() * (i + 1))]
    guarantees) the result is a permutation of the input, of the same
    length; an array of at most one element comes back as it is, with no
    draw taken into account; and the last cell holds what the first draw
    picked. *)
Theorem shuffleArray_permutes {T : Type} (random : nat -> nat) (array : list T) :
  (forall i, (random i <= i)%nat) ->
  Permutation (shuffleArray random array) array
  /\ length (shuffleArray random array) = length array
  /\ ((length array <= 1)%nat -> shuffleArray random array = array)
  /\ ((2 <= length array)%nat ->
      nth_error (shuffleArray random array) (length array - 1)
      = nth_error array (random (length array - 1)%nat)).
Proof.
  intros Hr. unfold shuffleArray. cbv zeta.
  pose proof (shuffleFrom_perm random (length array - 1) array) as P.
  split; [exact P|]. split; [now apply Permutation_length|]. split.
  - intros Hl. destruct array as [|x [|y l]]; cbn in *; try reflexivity; lia.
  - intros Hl. remember (length array - 1)%nat as i eqn:Hi.
    destruct i as [|i]; [lia|]. cbn [shuffleFrom].
    destruct (swap_in_range (S i) (random (S i)) array) as (x & y & _ & Hy & _ & H1 & _).
    { specialize (Hr (S i)). lia. }
    rewrite Hy, <- H1.
    assert (Hkeep : forall k (a : list T),
               (k <= i)%nat ->
               nth_error (shuffleFrom random k a) (S i) = nth_error a (S i)).
    { induction k as [|k IH]; intros a Hk; [reflexivity|].
      cbn [shuffleFrom]. rewrite IH by lia.
      unfold swap.
      destruct (nth_error a (S k)) as [u|] eqn:Eu; [|reflexivity].
      destruct (nth_error a (random (S k))) as [v|] eqn:Ev; [|reflexivity].
      specialize (Hr (S k)).
      rewrite !nth_error_update_other by lia. reflexivity. }
    now apply Hkeep.
Qed.

Lemma shuffleArray_permutes_witness :
  Permutation (shuffleArray (fun _ => 0%nat) [1; 2; 3; 4]) [1; 2; 3; 4].
Proof.
  exact (proj1 (shuffleArray_permutes (fun _ => 0%nat) [1; 2; 3; 4]
                  (fun i => Nat.le_0_l i))).
Defined.

(** * Words and statistics *)

Lemma statsGet_statsSet_same (key : string) (v : WordStat.t) (stats : WordStats) :
  statsGet key (statsSet key v stats) = Some v.
Proof.
  induction stats as [|[k v'] stats IH]; cbn.
  - now rewrite String.eqb_refl.
  - destruct (String.eqb key k) eqn:E; cbn; rewrite E; [reflexivity|exact IH].
Qed.

Lemma statsGet_statsSet_other (key key' : string) (v : WordStat.t) (stats : WordStats) :
  key' <> key -> statsGet key' (statsSet key v stats) = statsGet key' stats.
Proof.
  intros Hne. induction stats as [|[k v'] stats IH]; cbn.
  - apply String.eqb_neq in Hne. now rewrite Hne.
  - destruct (String.eqb key k) eqn:E; cbn.
    + apply String.eqb_eq in E. subst k.
      apply String.eqb_neq in Hne. now rewrite Hne.
    + now rewrite IH.
Qed.

Lemma statsGet_statsDelete_same (key : string) (stats : WordStats) :
  statsGet key (statsDelete key stats) = None.
Proof.
  unfold statsDelete. induction stats as [|[k v] stats IH]; cbn; [reflexivity|].
  destruct (String.eqb key k) eqn:E; cbn; [exact IH|]. now rewrite E.
Qed.

Lemma statsGet_statsDelete_other (key key' : string) (stats : WordStats) :
  key' <> key -> statsGet key' (statsDelete key stats) = statsGet key' stats.
Proof.
  intros Hne. unfold statsDelete.
  induction stats as [|[k v] stats IH]; cbn; [reflexivity|].
  destruct (String.eqb key k) eqn:E; cbn.
  - apply String.eqb_eq in E. subst k.
    apply String.eqb_neq in Hne. now rewrite Hne.
  - now rewrite IH.
Qed.

Lemma statsDelete_statsSet_fresh (key : string) (v : WordStat.t) (stats : WordStats) :
  statsGet key stats = None -> statsDelete key (statsSet key v stats) = stats.
Proof.
  unfold statsDelete. induction stats as [|[k v'] stats IH]; cbn.
  - intros _. now rewrite String.eqb_refl.
  - destruct (String.eqb key k) eqn:E; [discriminate|].
    intros H. cbn. rewrite E. cbn. now rewrite IH.
Qed.

(** X13: [updateWordStat] is a keyed update.  Afterwards the entry of
    the word holds its previous statistics - or, when it had none, the
    defaults (not mastered, never reviewed, no incorrect answer) - with the
    given properties written over them; every other entry and the word
    list are untouched; and the new statistics are what is handed to
    storage.  The entry is addressed by the id's property key, so the
    number 7 and the string of its digits name the same entry. *)
Theorem updateWordStat_keyed
    (writable : bool) (wordId : NumOrStr) (updates : WordStatUpdate.t)
    (app : AppState) :
  let r := updateWordStat writable wordId updates app in
  let before :=
    match statsGet (keyOf wordId) (wordStats app) with
    | Some stat => stat
    | None => getDefaultWordStat wordId
    end in
  statsGet (keyOf wordId) (wordStats (fst r)) = Some (spreadStat before updates)
  /\ (forall key, key <> keyOf wordId ->
        statsGet key (wordStats (fst r)) = statsGet key (wordStats app))
  /\ allWords (fst r) = allWords app
  /\ (writable = true -> snd r = [SetItem (StoredStats (wordStats (fst r)))])
  /\ keyOf (Num 7) = keyOf (Str "7").
Proof.
  cbv zeta. unfold updateWordStat. cbn [fst snd wordStats allWords].
  split; [apply statsGet_statsSet_same|].
  split; [intros key Hne; now apply statsGet_statsSet_other|].
  split; [reflexivity|]. split; [|reflexivity].
  intros ->. reflexivity.
Qed.

Lemma updateWordStat_keyed_witness :
  let app := mkAppState [] [("7", WordStat.mk (Num 7) true (Some "2024-05-01") 2)] in
  statsGet "7" (wordStats (fst (updateWordStat true (Str "7")
                                  (WordStatUpdate.mk None None None (Some 3)) app)))
  = Some (WordStat.mk (Num 7) true (Some "2024-05-01") 3).
Proof.
  intros app.
  exact (proj1 (updateWordStat_keyed true (Str "7")
                  (WordStatUpdate.mk None None None (Some 3)) app)).
Defined.

Lemma findWord_none_filter (wordId : NumOrStr) (words : list Word.t) :
  findWord wordId words = None ->
  filter (fun w => negb (strictEq (Word.id w) wordId)) words = words.
Proof.
  unfold findWord. induction words as [|w words IH]; cbn; [reflexivity|].
  destruct (strictEq (Word.id w) wordId); [discriminate|].
  intros H. cbn. now rewrite IH.
Qed.

Lemma findWord_after_filter (wordId : NumOrStr) (words : list Word.t) :
  findWord wordId (filter (fun w => negb (strictEq (Word.id w) wordId)) words) = None.
Proof.
  unfold findWord. induction words as [|w words IH]; cbn; [reflexivity|].
  destruct (strictEq (Word.id w) wordId) eqn:E; cbn; [exact IH|]. now rewrite E.
Qed.

(** X14: words that are not the user's own cannot be deleted - but their
    statistics go.  When no word has the id, or the first word that has it
    is not marked custom, [handleDeleteCustomWord] leaves the word list as
    it is and writes no word list to storage, telling so unless silenced;
    the statistics entry of that id is removed and stored all the same. *)
Theorem delete_refused_for_builtin
    (writable : bool) (wordId : NumOrStr) (silent : bool) (app : AppState) :
  (findWord wordId (allWords app) = None
   \/ exists w, findWord wordId (allWords app) = Some w /\ notCustom w = true) ->
  let r := handleDeleteCustomWord writable wordId silent app in
  allWords (fst r) = allWords app
  /\ statsGet (keyOf wordId) (wordStats (fst r)) = None
  /\ wordStats (fst r) = statsDelete (keyOf wordId) (wordStats app)
  /\ snd r = (if silent then [] else [AppToast MsgBuiltinNotDeletable error])
             ++ saveData writable (StoredStats (wordStats (fst r))).
Proof.
  intros H. cbv zeta. unfold handleDeleteCustomWord.
  destruct H as [-> | (w & -> & ->)]; cbn [fst snd allWords wordStats];
    repeat split; apply statsGet_statsDelete_same.
Qed.

Lemma delete_refused_for_builtin_witness :
  let cat := Word.mk (Num 1) "cat" None "noun" "고양이" "A cat." None "middle1" None None in
  let app := mkAppState [cat] [("1", WordStat.mk (Num 1) true (Some "2024-05-01") 0)] in
  fst (handleDeleteCustomWord true (Num 1) false app) = mkAppState [cat] [].
Proof.
  intros cat app.
  assert (H : findWord (Num 1) (allWords app) = None
              \/ exists w, findWord (Num 1) (allWords app) = Some w
                           /\ notCustom w = true).
  { right. exists cat. split; reflexivity. }
  destruct (delete_refused_for_builtin true (Num 1) false app H) as (Hw & _ & Hs & _).
  destruct (handleDeleteCustomWord true (Num 1) false app) as [[words stats] effects].
  cbn in Hw, Hs. now rewrite Hw, Hs.
Defined.

(** X15: deleting one of the user's words.  When the first word with the
    id is marked custom, every word with that id leaves the list, the
    other words stay in their order, the statistics entry of the id is
    removed while the other entries stay, and both are handed to storage. *)
Theorem delete_custom_word
    (writable : bool) (wordId : NumOrStr) (silent : bool) (app : AppState)
    (w : Word.t) :
  findWord wordId (allWords app) = Some w ->
  Word.isCustom w = Some true ->
  let r := handleDeleteCustomWord writable wordId silent app in
  allWords (fst r) = filter (fun v => negb (strictEq (Word.id v) wordId)) (allWords app)
  /\ findWord wordId (allWords (fst r)) = None
  /\ (forall v, In v (allWords (fst r))
                <-> In v (allWords app) /\ strictEq (Word.id v) wordId = false)
  /\ statsGet (keyOf wordId) (wordStats (fst r)) = None
  /\ (forall key, key <> keyOf wordId ->
        statsGet key (wordStats (fst r)) = statsGet key (wordStats app))
  /\ (writable = true ->
      snd r = SetItem (StoredWords (allWords (fst r)))
              :: (if silent then [] else [AppToast (MsgWordDeleted (Word.term w)) success])
              ++ [SetItem (StoredStats (wordStats (fst r)))]).
Proof.
  intros Hf Hc. cbv zeta. unfold handleDeleteCustomWord, notCustom.
  rewrite Hf, Hc. cbn [fst snd allWords wordStats].
  split; [reflexivity|]. split.
  { apply findWord_after_filter. }
  split.
  { intros v. rewrite filter_In, negb_true_iff. reflexivity. }
  split; [apply statsGet_statsDelete_same|].
  split; [intros key Hne; now apply statsGet_statsDelete_other|].
  intros ->. reflexivity.
Qed.

Lemma delete_custom_word_witness :
  let mine := Word.mk (Str "custom-1") "owl" None "noun" "부엉이" "An owl." None
                      "middle1" (Some true) None in
  let cat := Word.mk (Num 1) "cat" None "noun" "고양이" "A cat." None "middle1" None None in
  allWords (fst (handleDeleteCustomWord true (Str "custom-1") false
                   (mkAppState [cat; mine] [])))
  = [cat].
Proof.
  intros mine cat.
  exact (proj1 (delete_custom_word true (Str "custom-1") false
                  (mkAppState [cat; mine] []) mine eq_refl eq_refl)).
Defined.

(** X16: what [handleSaveCustomWord] refuses, it refuses without a trace.
    With a term or a meaning that is missing or blank once trimmed, or with
    a term that - trimmed and lower-cased - is the lower-cased term of
    another word, the outcome is a failure and neither the state nor
    storage is touched.  [lower] is [toLowerCase], whatever it does to a
    string. *)
Theorem save_refusals_change_nothing
    (trim lower : string -> string) (writable : bool) (freshId : string)
    (word : PartialWord.t) (gradeLevel : option string) (unit : option Z)
    (app : AppState) :
  ((blank trim (PartialWord.term word) = true
    \/ blank trim (PartialWord.meaning word) = true) ->
   handleSaveCustomWord trim lower writable freshId word gradeLevel unit app
   = Some (SaveRefusedBlank, app, []))
  /\ (forall term other,
         PartialWord.term word = Some term ->
         blank trim (PartialWord.term word) = false ->
         blank trim (PartialWord.meaning word) = false ->
         In other (allWords app) ->
         lower (Word.term other) = lower (trim term) ->
         otherId other (PartialWord.id word) = true ->
         handleSaveCustomWord trim lower writable freshId word gradeLevel unit app
         = Some (SaveRefusedDuplicate, app, [])).
Proof.
  split.
  - intros H. unfold handleSaveCustomWord.
    destruct H as [-> | ->]; now rewrite ?orb_true_r.
  - intros term other Ht Hbt Hbm Hin Heq Ho. unfold handleSaveCustomWord.
    rewrite Hbt, Hbm, Ht. cbn [orb].
    assert (Hex : existsb (fun w => (String.eqb (lower (Word.term w))
                                                (lower (trim term))
                                     && otherId w (PartialWord.id word))%bool)
                          (allWords app) = true).
    { apply existsb_exists. exists other. split; [exact Hin|].
      now rewrite Heq, String.eqb_refl, Ho. }
    now rewrite Hex.
Qed.

Lemma save_refusals_change_nothing_witness :
  let cat := Word.mk (Num 1) "Cat" None "noun" "고양이" "A cat." None "middle1" None None in
  let app := mkAppState [cat] [] in
  let typed := PartialWord.mk None (Some "CAT") None None (Some "고양이") None None None
                              (Some true) None in
  handleSaveCustomWord (fun s => s) toLowerCase true "custom-1" typed None None app
  = Some (SaveRefusedDuplicate, app, []).
Proof.
  intros cat app typed.
  refine (proj2 (save_refusals_change_nothing (fun s => s) toLowerCase true "custom-1" typed
                   None None app)
            "CAT" cat eq_refl eq_refl eq_refl _ eq_refl eq_refl).
  now left.
Defined.

Lemma save_new_word_run
    (trim lower : string -> string) (writable : bool) (freshId : string)
    (word : PartialWord.t) (gradeLevel : option string) (unit : option Z)
    (app : AppState) (term meaning : string) :
  PartialWord.id word = None ->
  PartialWord.term word = Some term ->
  PartialWord.meaning word = Some meaning ->
  trim term <> "" ->
  trim meaning <> "" ->
  (forall other, In other (allWords app) ->
                 lower (Word.term other) <> lower (trim term)) ->
  exists added effects,
    handleSaveCustomWord trim lower writable freshId word gradeLevel unit app
    = Some (SaveOk,
            mkAppState (allWords app ++ [added])
                       (statsSet freshId (getDefaultWordStat (Str freshId))
                                 (wordStats app)),
            effects)
    /\ Word.id added = Str freshId
    /\ Word.term added = trim term
    /\ Word.meaning added = trim meaning
    /\ Word.isCustom added = Some true.
Proof.
  intros Hid Ht Hm Htrim Hmtrim Hfree. unfold handleSaveCustomWord.
  rewrite Hid, Ht, Hm. cbn [blank orb].
  apply String.eqb_neq in Htrim, Hmtrim. rewrite Htrim, Hmtrim. cbn [orb].
  assert (Hex : existsb (fun w => (String.eqb (lower (Word.term w))
                                              (lower (trim term))
                                   && otherId w None)%bool)
                        (allWords app) = false).
  { apply not_true_is_false. intros Hex.
    apply existsb_exists in Hex as (other & Hin & Hc).
    apply andb_prop in Hc as [Hc _]. apply String.eqb_eq in Hc.
    exact (Hfree other Hin Hc). }
  rewrite Hex. cbn [updateWordStat allWords wordStats Word.id keyOf].
  destruct (statsGet freshId (wordStats app));
    (eexists _, _; split; [reflexivity|]);
    cbn [Word.id Word.term Word.meaning Word.isCustom]; repeat split.
Qed.

(** X17: adding a word.  A word without id whose term and meaning are
    not blank and whose term is no other word's (up to case, as [lower],
    the [toLowerCase] of the engine, folds it) is appended
    to the list: the words before it are unchanged, it carries the trimmed
    term and meaning, the fresh id and the custom mark, its statistics
    start from the defaults, and a list in which no two terms agree up to
    case stays such a list. *)
Theorem save_adds_new_word
    (trim lower : string -> string) (writable : bool) (freshId : string)
    (word : PartialWord.t) (gradeLevel : option string) (unit : option Z)
    (app : AppState) (term meaning : string) :
  PartialWord.id word = None ->
  PartialWord.term word = Some term ->
  PartialWord.meaning word = Some meaning ->
  trim term <> "" ->
  trim meaning <> "" ->
  (forall other, In other (allWords app) ->
                 lower (Word.term other) <> lower (trim term)) ->
  exists added app' effects,
    handleSaveCustomWord trim lower writable freshId word gradeLevel unit app
    = Some (SaveOk, app', effects)
    /\ allWords app' = allWords app ++ [added]
    /\ Word.id added = Str freshId
    /\ Word.term added = trim term
    /\ Word.meaning added = trim meaning
    /\ Word.isCustom added = Some true
    /\ statsGet freshId (wordStats app') = Some (getDefaultWordStat (Str freshId))
    /\ (termsDistinct lower (allWords app) -> termsDistinct lower (allWords app')).
Proof.
  intros Hid Ht Hm Htrim Hmtrim Hfree.
  destruct (save_new_word_run trim lower writable freshId word gradeLevel unit app
              term meaning Hid Ht Hm Htrim Hmtrim Hfree)
    as (added & effects & Hrun & Hi & Hterm & Hmeaning & Hcustom).
  exists added. eexists _, effects. split; [exact Hrun|].
  cbn [allWords wordStats].
  split; [reflexivity|]. split; [exact Hi|]. split; [exact Hterm|].
  split; [exact Hmeaning|]. split; [exact Hcustom|]. split.
  - apply statsGet_statsSet_same.
  - unfold termsDistinct. rewrite map_app. cbn [map]. rewrite Hterm.
    intros Hnd. apply NoDup_app; [exact Hnd|repeat constructor; easy|].
    intros key Hkey [<- | []].
    apply in_map_iff in Hkey as (other & Heq & Hin).
    exact (Hfree other Hin Heq).
Qed.

Lemma save_adds_new_word_witness :
  let cat := Word.mk (Num 1) "cat" None "noun" "고양이" "A cat." None "middle1" None None in
  let typed := PartialWord.mk None (Some "owl") None None (Some "부엉이") None None None
                              (Some true) None in
  exists added app' effects,
    handleSaveCustomWord (fun s => s) toLowerCase true "custom-1" typed None None
                         (mkAppState [cat] [])
    = Some (SaveOk, app', effects)
    /\ allWords app' = [cat] ++ [added]
    /\ Word.id added = Str "custom-1".
Proof.
  intros cat typed.
  destruct (save_adds_new_word (fun s => s) toLowerCase true "custom-1" typed None None
              (mkAppState [cat] []) "owl" "부엉이" eq_refl eq_refl eq_refl)
    as (added & app' & effects & H1 & H2 & H3 & _).
  - discriminate.
  - discriminate.
  - intros other [<- | []]. discriminate.
  - exists added, app', effects. auto.
Defined.

(** X18: editing a word.  A word with an id, complete as [Word]
    requires, whose term and meaning are not blank and whose term is no
    other word's (up to case, as [lower], the [toLowerCase] of the engine,
    folds it), replaces the words of that id where they stand: the list
    keeps its length and every other word its place; the term is stored as
    typed (it is not trimmed, unlike an added word's), the unit is the one
    passed, the statistics are untouched; and when no word has the id the
    list is unchanged though the outcome is a success. *)
Theorem save_edits_in_place
    (trim lower : string -> string) (writable : bool) (freshId : string)
    (word : PartialWord.t) (gradeLevel : option string) (unit : option Z)
    (app : AppState) (i : NumOrStr) (casted : Word.t) :
  PartialWord.id word = Some i ->
  asWord word = Some casted ->
  trim (Word.term casted) <> "" ->
  trim (Word.meaning casted) <> "" ->
  (forall other, In other (allWords app) ->
                 strictEq (Word.id other) i = false ->
                 lower (Word.term other) <> lower (trim (Word.term casted))) ->
  exists saved app' effects,
    handleSaveCustomWord trim lower writable freshId word gradeLevel unit app
    = Some (SaveOk, app', effects)
    /\ Word.id saved = i
    /\ Word.term saved = Word.term casted
    /\ Word.unit saved = match unit with Some n => Some (Num n) | None => None end
    /\ length (allWords app') = length (allWords app)
    /\ (forall n w, nth_error (allWords app) n = Some w ->
                    nth_error (allWords app') n
                    = Some (if strictEq (Word.id w) i then saved else w))
    /\ wordStats app' = wordStats app
    /\ (findWord i (allWords app) = None -> allWords app' = allWords app).
Proof.
  intros Hid Hc Htrim Hmtrim Hfree.
  assert (Hfields : PartialWord.term word = Some (Word.term casted)
                    /\ PartialWord.meaning word = Some (Word.meaning casted)
                    /\ Word.id casted = i).
  { unfold asWord in Hc. rewrite Hid in Hc.
    destruct (PartialWord.term word), (PartialWord.partOfSpeech word),
      (PartialWord.meaning word), (PartialWord.exampleSentence word),
      (PartialWord.gradeLevel word); try discriminate.
    injection Hc as <-. cbn. auto. }
  destruct Hfields as (Ht & Hm & Hi).
  unfold handleSaveCustomWord. rewrite Ht, Hm, Hid, Hc. cbn [blank orb].
  apply String.eqb_neq in Htrim, Hmtrim. rewrite Htrim, Hmtrim. cbn [orb].
  assert (Hex : existsb (fun w => (String.eqb (lower (Word.term w))
                                              (lower (trim (Word.term casted)))
                                   && otherId w (Some i))%bool)
                        (allWords app) = false).
  { apply not_true_is_false. intros Hex.
    apply existsb_exists in Hex as (other & Hin & Hb).
    apply andb_prop in Hb as [Hb Ho]. apply String.eqb_eq in Hb.
    cbn in Ho. apply negb_true_iff in Ho.
    exact (Hfree other Hin Ho Hb). }
  rewrite Hex, Hi.
  exists (Word.mk i (Word.term casted) (Word.pronunciation casted)
                  (Word.partOfSpeech casted) (Word.meaning casted)
                  (Word.exampleSentence casted) (Word.exampleSentenceMeaning casted)
                  (Word.gradeLevel casted) (Word.isCustom casted)
                  (match unit with Some n => Some (Num n) | None => None end)).
  eexists _, _. split; [reflexivity|].
  cbn [allWords wordStats Word.id Word.term Word.unit].
  split; [reflexivity|]. split; [reflexivity|]. split; [reflexivity|].
  split; [apply length_map|]. split.
  { intros n w Hn. rewrite nth_error_map, Hn. reflexivity. }
  split; [reflexivity|].
  intros Hnone. unfold findWord in Hnone.
  rewrite <- (map_id (allWords app)) at 2. apply map_ext_in. intros w Hin.
  now rewrite (find_none _ _ Hnone w Hin).
Qed.

Lemma save_edits_in_place_witness :
  let cat := Word.mk (Num 1) "cat" None "noun" "고양이" "A cat." None "middle1" None None in
  let owl := Word.mk (Str "c-1") "owl" None "noun" "부엉이" "An owl." None "middle1"
                     (Some true) None in
  let edited := PartialWord.mk (Some (Str "c-1")) (Some "barn owl") None (Some "noun")
                               (Some "부엉이") (Some "An owl.") None (Some "middle1")
                               (Some true) None in
  exists saved app' effects,
    handleSaveCustomWord (fun s => s) toLowerCase true "unused" edited None (Some 3)
                         (mkAppState [cat; owl] [])
    = Some (SaveOk, app', effects)
    /\ Word.term saved = "barn owl"
    /\ length (allWords app') = 2%nat.
Proof.
  intros cat owl edited.
  destruct (save_edits_in_place (fun s => s) toLowerCase true "unused" edited None (Some 3)
              (mkAppState [cat; owl] []) (Str "c-1")
              (Word.mk (Str "c-1") "barn owl" None "noun" "부엉이" "An owl." None
                       "middle1" (Some true) None)
              eq_refl eq_refl)
    as (saved & app' & effects & H1 & _ & H3 & _ & H5 & _).
  - discriminate.
  - discriminate.
  - intros other [<- | [<- | []]] Ho; [discriminate|discriminate Ho].
  - exists saved, app', effects. auto.
Defined.

Lemma findWord_app_fresh (wordId : NumOrStr) (words : list Word.t) (w : Word.t) :
  findWord wordId words = None ->
  Word.id w = wordId ->
  strictEq wordId wordId = true ->
  findWord wordId (words ++ [w]) = Some w.
Proof.
  unfold findWord. intros Hnone Hid Hrefl.
  induction words as [|v words IH]; cbn in *.
  - now rewrite Hid, Hrefl.
  - destruct (strictEq (Word.id v) wordId); [discriminate|]. now apply IH.
Qed.

(** X19: adding a word and deleting it again is a round trip.  When the
    word can be added (its term is no other word's, up to case as [lower]
    folds it) and the fresh id is not yet in use - by no word and by no
    statistics entry - the deletion of the word just added brings back the
    word list and the statistics that were there before the addition. *)
Theorem add_then_delete_restores
    (trim lower : string -> string) (writable silent : bool) (freshId : string)
    (word : PartialWord.t) (gradeLevel : option string) (unit : option Z)
    (app : AppState) (term meaning : string) :
  PartialWord.id word = None ->
  PartialWord.term word = Some term ->
  PartialWord.meaning word = Some meaning ->
  trim term <> "" ->
  trim meaning <> "" ->
  (forall other, In other (allWords app) ->
                 lower (Word.term other) <> lower (trim term)) ->
  findWord (Str freshId) (allWords app) = None ->
  statsGet freshId (wordStats app) = None ->
  exists app' effects,
    handleSaveCustomWord trim lower writable freshId word gradeLevel unit app
    = Some (SaveOk, app', effects)
    /\ fst (handleDeleteCustomWord writable (Str freshId) silent app') = app.
Proof.
  intros Hid Ht Hm Htrim Hmtrim Hfree Hword Hstat.
  destruct (save_new_word_run trim lower writable freshId word gradeLevel unit app
              term meaning Hid Ht Hm Htrim Hmtrim Hfree)
    as (added & effects & Hrun & Hi & _ & _ & Hcustom).
  eexists _, effects. split; [exact Hrun|].
  unfold handleDeleteCustomWord. cbn [allWords wordStats].
  rewrite (findWord_app_fresh (Str freshId) (allWords app) added Hword Hi)
    by (cbn; apply String.eqb_refl).
  unfold notCustom. rewrite Hcustom. cbn [fst keyOf].
  rewrite filter_app, (findWord_none_filter _ _ Hword). cbn [filter].
  rewrite Hi. cbn [strictEq]. rewrite String.eqb_refl. cbn [negb].
  rewrite app_nil_r, statsDelete_statsSet_fresh by exact Hstat.
  now destruct app.
Qed.

Lemma add_then_delete_restores_witness :
  let cat := Word.mk (Num 1) "cat" None "noun" "고양이" "A cat." None "middle1" None None in
  let app := mkAppState [cat] [("1", getDefaultWordStat (Num 1))] in
  let typed := PartialWord.mk None (Some "owl") None None (Some "부엉이") None None None
                              (Some true) None in
  exists app' effects,
    handleSaveCustomWord (fun s => s) toLowerCase true "custom-1" typed None None app
    = Some (SaveOk, app', effects)
    /\ fst (handleDeleteCustomWord true (Str "custom-1") false app') = app.
Proof.
  intros cat app typed.
  apply (add_then_delete_restores (fun s => s) toLowerCase true false "custom-1" typed None None
           app "owl" "부엉이"); try reflexivity; try discriminate.
  intros other [<- | []]. discriminate.
Defined.

(** X20: the dashboard counts.  The number of words reviewed today never
    exceeds the number of words ever reviewed, which never exceeds the
    number of statistics entries; there is something to review exactly when
    some entry counts an incorrect answer; and updating an entry with a
    review date of today makes the count of today positive. *)
Theorem dashboard_counts
    (today : string) (writable : bool) (wordId : NumOrStr) (app : AppState) :
  let stats := wordStats app in
  (learnedWordsToday today stats <= totalWordsLearned stats)%nat
  /\ (totalWordsLearned stats <= length stats)%nat
  /\ (hasIncorrectWordsToReview stats = true
      <-> exists entry, In entry stats /\ 0 < WordStat.quizIncorrectCount (snd entry))
  /\ (forall reviewed,
         prefix today reviewed = true ->
         (1 <= learnedWordsToday today
                 (wordStats (fst (updateWordStat writable wordId
                                    (WordStatUpdate.mk None None (Some (Some reviewed))
                                                       None) app))))%nat).
Proof.
  cbv zeta. split; [|split; [|split]].
  - unfold learnedWordsToday, totalWordsLearned.
    induction (wordStats app) as [|[k v] stats IH]; cbn; [lia|].
    destruct (WordStat.lastReviewed v) as [reviewed|]; [|exact IH].
    destruct (prefix today reviewed); cbn; lia.
  - unfold totalWordsLearned. apply filter_length_le.
  - unfold hasIncorrectWordsToReview. rewrite existsb_exists.
    split; intros (entry & Hin & H); exists entry; (split; [exact Hin|]);
      now apply Z.ltb_lt.
  - intros reviewed Hp. unfold updateWordStat. cbn [fst wordStats].
    set (stat := spreadStat _ _).
    assert (Hr : WordStat.lastReviewed stat = Some reviewed) by reflexivity.
    clearbody stat. unfold learnedWordsToday.
    induction (wordStats app) as [|[k v] stats IH]; cbn.
    + now rewrite Hr, Hp.
    + destruct (String.eqb (keyOf wordId) k); cbn.
      * rewrite Hr, Hp. cbn. lia.
      * destruct (WordStat.lastReviewed v) as [r|]; [|exact IH].
        destruct (prefix today r); cbn; lia.
Qed.

Lemma dashboard_counts_witness :
  (1 <= learnedWordsToday "2024-05-01"
          (wordStats (fst (updateWordStat true (Num 1)
                             (WordStatUpdate.mk None None
                                (Some (Some "2024-05-01T09:30:00.000Z")) None)
                             (mkAppState [] [])))))%nat.
Proof.
  exact (proj2 (proj2 (proj2 (dashboard_counts "2024-05-01" true (Num 1)
                                (mkAppState [] [])))) "2024-05-01T09:30:00.000Z" eq_refl).
Defined.

(** * The quiz *)

Lemma splitOn_first (sep : ascii) (s : string) :
  exists seg segs, splitOn sep s = seg :: segs.
Proof.
  induction s as [|c s (seg & segs & IH)]; cbn.
  - now eexists _, _.
  - destruct (Ascii.eqb c sep); [now eexists _, _|].
    rewrite IH. now eexists _, _.
Qed.

Lemma firstMeaning_is_correct (trim : string -> string) (word : Word.t) :
  existsb (String.eqb (firstMeaning trim word)) (correctAnswers trim word) = true.
Proof.
  unfold firstMeaning, correctAnswers.
  destruct (splitOn_first "/" (Word.meaning word)) as (seg & segs & ->).
  cbn. now rewrite String.eqb_refl.
Qed.

Lemma padWrongOptions_length (missing : nat) (l : list string) :
  length (padWrongOptions missing l) = (missing + length l)%nat.
Proof.
  revert l. induction missing as [|m IH]; intros l; [reflexivity|].
  cbn [padWrongOptions]. rewrite IH, length_app. cbn. lia.
Qed.

Lemma padWrongOptions_keeps (missing : nat) (l : list string) :
  exists fillers, padWrongOptions missing l = l ++ fillers.
Proof.
  revert l. induction missing as [|m IH]; intros l.
  - exists []. now rewrite app_nil_r.
  - cbn [padWrongOptions].
    destruct (IH (l ++ [fillerOption (length l + 1)])) as (fillers & ->).
    eexists. now rewrite <- app_assoc.
Qed.

Lemma padWrongOptions_fillers (missing : nat) (l : list string) :
  padWrongOptions missing l = l ++ map fillerOption (seq (length l + 1) missing).
Proof.
  revert l. induction missing as [|m IH]; intros l.
  - cbn. now rewrite app_nil_r.
  - cbn [padWrongOptions]. rewrite IH, length_app, <- app_assoc. cbn [length app].
    cbn [seq map]. now replace (length l + 1 + 1)%nat with (S (length l + 1)) by lia.
Qed.

Lemma firstn_incl {T : Type} (n : nat) (l : list T) (x : T) :
  In x (firstn n l) -> In x l.
Proof.
  revert l. induction n as [|n IH]; intros [|y l]; cbn; try easy.
  intros [H | H]; [now left|right; now apply IH].
Qed.

Lemma dedupeFrom_incl (seen xs : list string) (x : string) :
  In x (dedupeFrom seen xs) -> In x xs.
Proof.
  revert seen. induction xs as [|y xs IH]; intros seen; cbn; [easy|].
  destruct (existsb (String.eqb y) seen).
  - intros H. right. now apply (IH seen).
  - intros [<- | H]; [now left|right; now apply (IH (y :: seen))].
Qed.

Lemma dedupeFrom_fresh (seen xs : list string) (x : string) :
  In x (dedupeFrom seen xs) -> ~ In x seen.
Proof.
  revert seen. induction xs as [|y xs IH]; intros seen; cbn; [easy|].
  destruct (existsb (String.eqb y) seen) eqn:E.
  - apply IH.
  - intros [<- | H].
    + intros Hin. apply not_true_iff_false in E. apply E.
      apply existsb_exists. exists y. split; [exact Hin|apply String.eqb_refl].
    + intros Hin. apply (IH (y :: seen) H). now right.
Qed.

Lemma dedupeFrom_NoDup (seen xs : list string) : NoDup (dedupeFrom seen xs).
Proof.
  revert seen. induction xs as [|y xs IH]; intros seen; cbn; [constructor|].
  destruct (existsb (String.eqb y) seen); [apply IH|].
  constructor; [|apply IH].
  intros Hin. apply (dedupeFrom_fresh _ _ _ Hin). now left.
Qed.

Lemma dedupeFrom_complete (seen xs : list string) (x : string) :
  In x xs -> ~ In x seen -> In x (dedupeFrom seen xs).
Proof.
  revert seen. induction xs as [|y xs IH]; intros seen; cbn; [easy|].
  intros Hin Hseen.
  destruct (existsb (String.eqb y) seen) eqn:E.
  - destruct Hin as [-> | Hin]; [|now apply IH].
    exfalso. apply existsb_exists in E as (z & Hz & Heq).
    apply String.eqb_eq in Heq. now subst z.
  - destruct (String.eqb_spec x y) as [->|Hne]; [now left|].
    right. destruct Hin as [<- | Hin]; [easy|].
    apply IH; [exact Hin|]. intros [<- | H]; [easy|now apply Hseen].
Qed.

Lemma firstn_NoDup {T : Type} (n : nat) (l : list T) :
  NoDup l -> NoDup (firstn n l).
Proof.
  revert l. induction n as [|n IH]; intros [|y l] Hnd; cbn; try constructor.
  - inversion Hnd as [|? ? Hy Hl]; subst. intros Hin. apply Hy.
    now apply (firstn_incl n).
  - inversion Hnd; subst. now apply IH.
Qed.

(** X21: the options of a multiple-choice question.  For draws within
    their range there are always exactly four options: the first meaning of
    the asked word and three others.  The others are up to three different
    first meanings of words with another id, followed - only when these
    words have fewer than three different first meanings between them, and
    then all of these are options - by the fillers numbered up to 3 that
    lines 1438-1440 append.  Picking the first meaning of the asked word is
    graded as correct: the score goes up by one and no statistics are
    touched. *)
Theorem four_options_one_correct
    (trim : string -> string) (random1 random2 : nat -> nat)
    (unitToLearn : option NumOrStr) (ctx : QuizContext)
    (correctWord : Word.t) (allWordsForOptions : list Word.t)
    (state : QuizScreenState) :
  (forall i, (random1 i <= i)%nat) ->
  (forall i, (random2 i <= i)%nat) ->
  nth_error (quizWords state) (currentQuestionIndex state) = Some correctWord ->
  showResult state = false ->
  let opts := generateMultipleChoiceOptions trim random1 random2 correctWord
                                            allWordsForOptions in
  length opts = 4%nat
  /\ In (firstMeaning trim correctWord) opts
  /\ (exists wrong,
        Permutation opts
          (firstMeaning trim correctWord
             :: wrong ++ map fillerOption (seq (length wrong + 1) (3 - length wrong)))
        /\ (length wrong <= 3)%nat
        /\ NoDup wrong
        /\ (forall o, In o wrong ->
                      exists w, In w allWordsForOptions
                                /\ strictEq (Word.id w) (Word.id correctWord) = false
                                /\ o = firstMeaning trim w)
        /\ ((length wrong < 3)%nat ->
            forall w, In w allWordsForOptions ->
                      strictEq (Word.id w) (Word.id correctWord) = false ->
                      In (firstMeaning trim w) wrong))
  /\ exists state',
       handleMultipleChoiceSubmit trim unitToLearn ctx
                                  (firstMeaning trim correctWord) state
       = Some (state', [])
       /\ score state' = score state + 1
       /\ showResult state' = true
       /\ incorrectlyAnsweredWords state' = incorrectlyAnsweredWords state.
Proof.
  intros H1 H2 Hcur Hshow opts. subst opts. unfold generateMultipleChoiceOptions.
  set (pool := shuffleArray random1 _).
  set (unique := firstn 3 (dedupe pool)).
  assert (Hlen : (length unique <= 3)%nat) by apply firstn_le_length.
  pose proof (shuffleArray_perm_only random2
                (firstMeaning trim correctWord
                   :: padWrongOptions (3 - length unique) unique)) as P.
  split; [|split; [|split]].
  - rewrite (Permutation_length P). cbn [length].
    rewrite padWrongOptions_length. lia.
  - apply (Permutation_in _ (Permutation_sym P)). now left.
  - exists unique. rewrite <- padWrongOptions_fillers.
    split; [exact P|]. split; [exact Hlen|].
    split; [apply firstn_NoDup, dedupeFrom_NoDup|]. split.
    + intros o Ho. subst unique pool.
      apply firstn_incl, dedupeFrom_incl in Ho.
      apply (Permutation_in _ (shuffleArray_perm_only random1 _)) in Ho.
      apply in_map_iff in Ho as (w & <- & Hw).
      apply filter_In in Hw as [Hw Hid]. apply negb_true_iff in Hid.
      now exists w.
    + intros Hfew w Hw Hid. subst unique.
      rewrite length_firstn in Hfew.
      rewrite firstn_all2 by lia.
      apply dedupeFrom_complete; [|easy]. subst pool.
      apply (Permutation_in _ (Permutation_sym (shuffleArray_perm_only random1 _))).
      apply in_map. apply filter_In. split; [exact Hw|]. now rewrite Hid.
  - unfold handleMultipleChoiceSubmit. rewrite Hshow, Hcur.
    rewrite firstMeaning_is_correct. cbn [quizReducer].
    eexists. split; [reflexivity|]. cbn. auto.
Qed.

Lemma four_options_one_correct_witness :
  let cat := Word.mk (Num 1) "cat" None "noun" "고양이 / 괭이" "A cat." None "middle1"
                     None None in
  let dog := Word.mk (Num 2) "dog" None "noun" "개" "A dog." None "middle1" None None in
  let state := mkQuizScreenState playing (Str "all") "multiple" [cat; dog] 0 0 [] []
                                 None false "" neutralStyle in
  length (generateMultipleChoiceOptions (fun s => s) (fun _ => 0%nat) (fun _ => 0%nat)
                                        cat [cat; dog])
  = 4%nat.
Proof.
  intros cat dog state.
  exact (proj1 (four_options_one_correct
                  (fun s => s) (fun _ => 0%nat) (fun _ => 0%nat) None
                  (mkQuizContext [cat; dog] [] false) cat [cat; dog] state
                  (fun i => Nat.le_0_l i) (fun i => Nat.le_0_l i) eq_refl eq_refl)).
Defined.

Section QuizSession.
Context (trim : string -> string) (random1 random2 : nat -> nat).
Context (unitToLearn : option NumOrStr) (ctx : QuizContext).
Context (words : list Word.t) (before : QuizScreenState).

Lemma handleNextQuestion_invariant (state : QuizScreenState) :
  quizInvariant words before state ->
  quizState state = playing ->
  showResult state = true ->
  quizInvariant words before
    (fst (handleNextQuestion trim random1 random2 unitToLearn ctx state)).
Proof.
  intros (Hw & Ht & Hu & (Hidx & Hs & Hsum) & Hne & Hfin) Hp Hshow.
  unfold handleNextQuestion.
  destruct (Z.ltb_spec (Z.of_nat (currentQuestionIndex state))
                       (Z.of_nat (length (quizWords state)) - 1)) as [Hlt|Hge].
  - destruct (setupQuestion _ _ _ _ _ _ _ _) as [opts effects].
    cbn [quizReducer fst]. unfold quizInvariant, gradedOnce.
    cbn [quizWords quizType selectedUnit currentQuestionIndex score
         incorrectlyAnsweredWords showResult quizState].
    rewrite Hshow in Hsum. rewrite Hp.
    repeat split; try assumption; try lia; try discriminate.
  - cbn [quizReducer fst]. unfold quizInvariant, gradedOnce.
    cbn [quizWords quizType selectedUnit currentQuestionIndex score
         incorrectlyAnsweredWords showResult quizState].
    repeat split; try assumption; try lia; try discriminate.
Qed.

Lemma submit_invariant (state : QuizScreenState) (isCorrect : bool)
    (word : Word.t) (action : QuizAction) :
  action = SUBMIT_TYPING isCorrect word
  \/ (exists answer, action = SUBMIT_MULTIPLE_CHOICE answer isCorrect word) ->
  quizInvariant words before state ->
  quizState state = playing ->
  showResult state = false ->
  quizInvariant words before (fst (quizReducer unitToLearn state action)).
Proof.
  intros Ha (Hw & Ht & Hu & (Hidx & Hs & Hsum) & Hne & Hfin) Hp Hshow.
  rewrite Hshow in Hsum.
  destruct Ha as [-> | (answer & ->)]; cbn [quizReducer fst];
    unfold quizInvariant, gradedOnce;
    cbn [quizWords quizType selectedUnit currentQuestionIndex score
         incorrectlyAnsweredWords showResult quizState];
    rewrite Hp; destruct isCorrect; rewrite ?length_app; cbn [length];
    repeat split; try assumption; try lia; try discriminate.
Qed.

Lemma quizEvent_invariant (state state' : QuizScreenState) (event : QuizEvent)
    (effects : list QuizEffect) :
  quizInvariant words before state ->
  quizState state = playing ->
  quizEvent trim random1 random2 unitToLearn ctx state event = Some (state', effects) ->
  quizInvariant words before state'.
Proof.
  intros Hinv Hp Hev. destruct event as [picked| | |value]; cbn [quizEvent] in Hev.
  - unfold handleMultipleChoiceSubmit in Hev.
    destruct (showResult state) eqn:Hshow; [now injection Hev as <- _|].
    destruct (nth_error (quizWords state) (currentQuestionIndex state)) as [word|];
      [|discriminate].
    pose proof (submit_invariant state
                  (existsb (String.eqb picked) (correctAnswers trim word)) word
                  _ (or_intror (ex_intro _ picked eq_refl)) Hinv Hp Hshow) as H.
    destruct (quizReducer _ _ _) as [s e]. injection Hev as <- _. exact H.
  - unfold handleTypingSubmit in Hev.
    destruct (showResult state) eqn:Hshow.
    + pose proof (handleNextQuestion_invariant state Hinv Hp Hshow) as H.
      destruct (handleNextQuestion _ _ _ _ _ _) as [s e].
      injection Hev as <- _. exact H.
    + destruct (nth_error (quizWords state) (currentQuestionIndex state)) as [word|];
        [|discriminate].
      pose proof (submit_invariant state
                    (existsb (String.eqb (trim (typedAnswer state)))
                             (correctAnswers trim word)) word
                    _ (or_introl eq_refl) Hinv Hp Hshow) as H.
      destruct (quizReducer _ _ _) as [s e]. injection Hev as <- _. exact H.
  - destruct (showResult state) eqn:Hshow; [|now injection Hev as <- _].
    pose proof (handleNextQuestion_invariant state Hinv Hp Hshow) as H.
    destruct (handleNextQuestion _ _ _ _ _ _) as [s e].
    injection Hev as <- _. exact H.
  - injection Hev as <- _. destruct Hinv as (Hw & Ht & Hu & Hg & Hne & Hfin).
    unfold quizInvariant, gradedOnce in *.
    cbn [quizWords quizType selectedUnit currentQuestionIndex score
         incorrectlyAnsweredWords showResult quizState].
    repeat split; try tauto.
Qed.

Lemma quizSession_invariant (events : list QuizEvent) (state : QuizScreenState) :
  quizInvariant words before state ->
  quizInvariant words before
    (quizSession trim random1 random2 unitToLearn ctx state events).
Proof.
  revert state. induction events as [|event events IH]; intros state Hinv; [exact Hinv|].
  cbn [quizSession]. destruct (quizState state) eqn:Hp; try exact Hinv.
  destruct (quizEvent _ _ _ _ _ state event) as [[state' effects]|] eqn:Hev;
    [|exact Hinv].
  apply IH. exact (quizEvent_invariant state state' event effects Hinv Hp Hev).
Qed.
End QuizSession.

(** X22: every question is graded exactly once.  In a quiz started on a
    non-empty list of words, whatever the user does - picking options,
    submitting, pressing next, typing, in any order and any number of
    times - the score plus the number of words answered incorrectly counts
    the questions before the current one, plus the current one once its
    result is shown; the score is never negative nor above the number of
    questions; the questions and the setup stay those the quiz started
    with; and when the quiz is finished the score and the incorrect words
    add up to the number of questions. *)
Theorem every_question_graded_once
    (trim : string -> string) (random1 random2 : nat -> nat)
    (unitToLearn : option NumOrStr) (ctx : QuizContext)
    (before : QuizScreenState) (words : list Word.t) (opts : list string)
    (events : list QuizEvent) :
  words <> [] ->
  let start := fst (quizReducer unitToLearn before (START_QUIZ words opts)) in
  let state := quizSession trim random1 random2 unitToLearn ctx start events in
  quizWords state = words
  /\ quizType state = quizType before
  /\ selectedUnit state = selectedUnit before
  /\ gradedOnce state
  /\ 0 <= score state <= Z.of_nat (length words)
  /\ (quizState state = finished ->
      score state + Z.of_nat (length (incorrectlyAnsweredWords state))
      = Z.of_nat (length words)).
Proof.
  intros Hne start state.
  assert (Hstart : quizInvariant words before start).
  { subst start. cbn [quizReducer fst]. unfold quizInvariant, gradedOnce. cbn.
    destruct words; [contradiction|]. cbn.
    repeat split; try lia; discriminate. }
  destruct (quizSession_invariant trim random1 random2 unitToLearn ctx words before
              events start Hstart) as (Hw & Ht & Hu & Hg & _ & Hfin).
  fold state in Hw, Ht, Hu, Hg, Hfin.
  split; [exact Hw|]. split; [exact Ht|]. split; [exact Hu|]. split; [exact Hg|].
  destruct Hg as (Hidx & Hs & Hsum). rewrite Hw in *.
  split.
  - destruct (showResult state); lia.
  - intros Hf. destruct (Hfin Hf) as [Hshow Hlast]. rewrite Hshow in Hsum. lia.
Qed.

Lemma every_question_graded_once_witness :
  let cat := Word.mk (Num 1) "cat" None "noun" "고양이" "A cat." None "middle1" None None in
  let dog := Word.mk (Num 2) "dog" None "noun" "개" "A dog." None "middle1" None None in
  let ctx := mkQuizContext [cat; dog] [] false in
  let state :=
    quizSession (fun s => s) (fun _ => 0%nat) (fun _ => 0%nat) None ctx
      (fst (quizReducer None (initialQuizState None) (START_QUIZ [cat; dog] [])))
      [PickOption "고양이"; PickOption "개"; PressNext; PickOption "고양이"; PressNext] in
  quizState state = finished /\ 0 <= score state <= 2.
Proof.
  intros cat dog ctx state.
  assert (Hne : [cat; dog] <> []) by discriminate.
  split; [reflexivity|].
  exact (proj1 (proj2 (proj2 (proj2 (proj2
           (every_question_graded_once (fun s => s) (fun _ => 0%nat) (fun _ => 0%nat)
              None ctx (initialQuizState None) [cat; dog] []
              [PickOption "고양이"; PickOption "개"; PressNext; PickOption "고양이";
               PressNext] Hne)))))).
Defined.



(** * The forms that call the gateway *)

Lemma lookup_setProp (k k' : string) (v : JsVal) (fields : list (string * JsVal)) :
  lookup k (setProp k' v fields) = if String.eqb k k' then v else lookup k fields.
Proof.
  induction fields as [|[k0 v0] fields IH]; cbn.
  - reflexivity.
  - destruct (String.eqb k' k0) eqn:E0; cbn.
    + apply String.eqb_eq in E0. subst k0.
      destruct (String.eqb k k'); reflexivity.
    + rewrite IH. destruct (String.eqb k k0) eqn:E1; [|reflexivity].
      apply String.eqb_eq in E1. subst k0.
      rewrite String.eqb_sym in E0. now rewrite E0.
Qed.

Lemma get_spread (prev : JsVal) (overrides : list (string * JsVal)) (k : string) :
  (exists fields, prev = JObj fields) ->
  get (spread prev overrides) k
  = fold_left (fun found kv => if String.eqb k (fst kv) then snd kv else found)
              overrides (get prev k).
Proof.
  intros (fields & ->). unfold spread. cbn [get].
  revert fields. induction overrides as [|[k' v] overrides IH]; intros fields.
  - reflexivity.
  - cbn [fold_left fst snd]. rewrite IH, lookup_setProp. reflexivity.
Qed.

Lemma fillNewWord_get (details prev : JsVal) (k : string) :
  (exists fields, prev = JObj fields) ->
  get (fillNewWord details prev) k
  = if String.eqb k "term" then jsOr (get details "term") (get prev "term")
    else if existsb (String.eqb k) filledKeys then jsOr (get details k) (JStr "")
         else get prev k.
Proof.
  intros Hobj. unfold fillNewWord. rewrite get_spread by exact Hobj.
  cbn [fold_left fst snd filledKeys existsb].
  destruct (String.eqb k "exampleSentenceMeaning") eqn:E6;
    [apply String.eqb_eq in E6; subst k; reflexivity|].
  destruct (String.eqb k "exampleSentence") eqn:E5;
    [apply String.eqb_eq in E5; subst k; reflexivity|].
  destruct (String.eqb k "partOfSpeech") eqn:E4;
    [apply String.eqb_eq in E4; subst k; reflexivity|].
  destruct (String.eqb k "meaning") eqn:E3;
    [apply String.eqb_eq in E3; subst k; reflexivity|].
  destruct (String.eqb k "pronunciation") eqn:E2;
    [apply String.eqb_eq in E2; subst k; reflexivity|].
  destruct (String.eqb k "term"); reflexivity.
Qed.

Lemma fillEditableWord_get (details prev : JsVal) (k : string) :
  (exists fields, prev = JObj fields) ->
  get (fillEditableWord details prev) k
  = if existsb (String.eqb k) filledKeys then jsOr (get details k) (get prev k)
    else get prev k.
Proof.
  intros Hobj. unfold fillEditableWord. rewrite get_spread by exact Hobj.
  cbn [fold_left fst snd filledKeys existsb].
  destruct (String.eqb k "exampleSentenceMeaning") eqn:E6;
    [apply String.eqb_eq in E6; subst k; reflexivity|].
  destruct (String.eqb k "exampleSentence") eqn:E5;
    [apply String.eqb_eq in E5; subst k; reflexivity|].
  destruct (String.eqb k "partOfSpeech") eqn:E4;
    [apply String.eqb_eq in E4; subst k; reflexivity|].
  destruct (String.eqb k "meaning") eqn:E3;
    [apply String.eqb_eq in E3; subst k; reflexivity|].
  destruct (String.eqb k "pronunciation") eqn:E2;
    [apply String.eqb_eq in E2; subst k; reflexivity|].
  destruct (String.eqb k "term") eqn:E1;
    [apply String.eqb_eq in E1; subst k; reflexivity|].
  reflexivity.
Qed.

(** X24: without a term there is no call.  When the term of the form is
    missing or blank once trimmed, each of the three AI buttons only shows
    its own warning: the form is unchanged - the busy marks are not even
    raised - the gateway is not entered, so nothing is requested, nothing
    is notified by it and the Loading Flag and the quota state stay. *)
Theorem blank_term_makes_no_call
    (trim : string -> string) (svcW : Z -> Attempt JsVal)
    (svcI : Z -> Attempt GenerateImagesResponse)
    (manage : ManageState) (edit : EditState) (w : World) :
  (get (newWord manage) "term" = JUndefined
   \/ exists term, get (newWord manage) "term" = JStr term /\ trim term = "") ->
  (get (editableWord edit) "term" = JUndefined
   \/ exists term, get (editableWord edit) "term" = JStr term /\ trim term = "") ->
  handleAIFill trim svcW manage w = mkRun (Completed manage [EnterTermForDetails]) w []
  /\ handleAIFillDetails trim svcW edit w
     = mkRun (Completed edit [EnterTermForDetails]) w []
  /\ handleGenerateModalAiImage trim svcI edit w
     = mkRun (Completed edit [EnterTermForImage]) w [].
Proof.
  intros Hm He.
  unfold handleAIFill, handleAIFillDetails, handleGenerateModalAiImage.
  destruct Hm as [-> | (tm & -> & ->)], He as [-> | (te & -> & ->)];
    repeat split; reflexivity.
Qed.

Lemma blank_term_makes_no_call_witness :
  let form := mkManageState (JObj [("term", JStr "   "); ("meaning", JStr "cat")]) false in
  handleAIFill (fun _ => "") (fun _ => Returned (JObj [])) form (initialWorld true)
  = mkRun (Completed form [EnterTermForDetails]) (initialWorld true) [].
Proof.
  intros form.
  refine (proj1 (blank_term_makes_no_call (fun _ => "") (fun _ => Returned (JObj []))
                   (fun _ => Returned (mkGenerateImagesResponse None)) form
                   (mkEditState (JObj []) false false None) (initialWorld true) _ _)).
  - right. exists "   ". split; reflexivity.
  - now left.
Defined.

(** ** What a call can return *)

Lemma attempts_value_origin {A : Type} (f : Feature) (term : string)
    (degraded : option A) (outcome : Z -> Outcome A) (retries : Z)
    (n : nat) (i d : Z) (w : World) (v : A) :
  value (attempts f term degraded outcome retries n i d w) = Return (Some v) ->
  (exists j, i <= j < i + Z.of_nat n /\ outcome j = Complete v)
  \/ (degraded = Some v
      /\ exists j, i <= j < i + Z.of_nat n /\ retries <= j /\ outcome j = Incomplete).
Proof.
  revert i d w. induction n as [|n IH]; intros i d w; [discriminate|].
  cbn [attempts]. rewrite emit_bind. cbn [after value].
  destruct (outcome i) as [v0| |e] eqn:Ho.
  - destruct f; cbn; intros [= ->]; left; exists i; split; (lia || assumption).
  - destruct (Z.ltb_spec i retries) as [Hi|Hi].
    + rewrite toast_bind, sleep_bind. cbn [after value]. intros Hv.
      destruct (IH _ _ _ Hv) as [(j & Hj & Hc) | (Hd & j & Hj & Hr & Hc)].
      * left. exists j. split; [lia|assumption].
      * right. split; [assumption|]. exists j. repeat split; (lia || assumption).
    + cbn. intros [= ->]. right. split; [reflexivity|].
      exists i. repeat split; (lia || assumption).
  - destruct (parseGeminiError e) as [p|thrown] eqn:Hp.
    + destruct (isQuotaExhaustedError p) eqn:Hq.
      * rewrite (catchBlock_quota _ _ _ _ _ _ _ _ p Hp Hq).
        cbv zeta. cbn [value]. discriminate.
      * destruct (Z.ltb_spec i retries) as [Hi|Hi].
        -- rewrite (catchBlock_retry _ _ _ _ _ _ _ _ p Hp Hq Hi).
           cbv zeta. cbn [value]. intros Hv.
           destruct (IH _ _ _ Hv) as [(j & Hj & Hc) | (Hd & j & Hj & Hr & Hc)].
           ++ left. exists j. split; [lia|assumption].
           ++ right. split; [assumption|].
              exists j. repeat split; (lia || assumption).
        -- rewrite (catchBlock_final _ _ _ _ _ _ _ _ p Hp Hq Hi).
           cbn [value]. discriminate.
    + rewrite (catchBlock_throws _ _ _ _ _ _ _ _ thrown Hp). cbn [value]. discriminate.
Qed.

Lemma classifyWord_complete (a : Attempt JsVal) (data : JsVal) :
  classifyWord a = Complete data -> completeWordPayload a data.
Proof.
  destruct a as [d|e]; cbn; [|discriminate].
  destruct (isNullish d) eqn:Hn; [discriminate|].
  destruct (missingEssentialFields d) eqn:Hm; [discriminate|].
  intros [= <-]. now repeat split.
Qed.

Lemma classifyImage_complete (a : Attempt GenerateImagesResponse) (bytes : string) :
  classifyImage a = Complete bytes -> completeImageResponse a bytes.
Proof.
  destruct a as [r|e]; cbn; [|discriminate].
  destruct (firstImageBytes r) eqn:Hf; [|discriminate].
  intros [= <-]. now exists r.
Qed.

Lemma firstImageBytes_nonempty (response : GenerateImagesResponse) (bytes : string) :
  firstImageBytes response = Some bytes -> bytes <> "".
Proof.
  unfold firstImageBytes.
  destruct (generatedImages response) as [[|g gs]|]; try discriminate.
  destruct (image g) as [im|]; try discriminate.
  destruct (imageBytes im) as [b|]; try discriminate.
  destruct (String.eqb_spec b ""); [discriminate|]. now intros [= <-].
Qed.

Lemma complete_payload_truthy (data : JsVal) :
  missingEssentialFields data = false -> truthy data = true.
Proof. now destruct data. Qed.

Lemma word_call_origin (svc : Z -> Attempt JsVal) (term : string)
    (retries initialDelay : Z) (w : World) (data : JsVal) :
  value (generateWordDetailsWithGemini svc term retries initialDelay w)
  = Resolved (Some data) ->
  (exists j, 0 <= j <= retries /\ completeWordPayload (svc j) data)
  \/ (data = JObj [("term", JStr term)]
      /\ 0 <= retries /\ incompleteWordPayload (svc retries)).
Proof.
  destruct (ai w) eqn:Ha; [destruct (isCurrentlyGeminiQuotaExhausted w) eqn:Hq|].
  - destruct (call_not_started_run svc (fun _ => Threw JNull) term retries initialDelay w
                (or_intror Hq)) as [(m & ->) _]. discriminate.
  - rewrite word_call_attempts by assumption.
    destruct (started_settles WordDetails term (Some (JObj [("term", JStr term)]))
                (fun j => classifyWord (svc j)) retries initialDelay (set_loading true w))
      as [(v & -> & Hv) | (j & e & thrown & _ & _ & _ & ->)]; [|discriminate].
    intros [= ->]. destruct Hv as [Hv|Hv]; [discriminate|].
    destruct (attempts_value_origin _ _ _ _ _ _ _ _ _ _ Hv)
      as [(j & Hj & Hc) | (Hd & j & Hj & Hr & Hc)].
    + left. exists j. split; [lia|]. now apply classifyWord_complete.
    + right. split; [now injection Hd|]. split; [lia|].
      replace retries with j by lia.
      destruct (svc j) as [d|e]; cbn in Hc; [|discriminate].
      destruct (isNullish d) eqn:Hn; [discriminate|].
      destruct (missingEssentialFields d) eqn:Hm; [|discriminate].
      exists d. now repeat split.
  - destruct (call_not_started_run svc (fun _ => Threw JNull) term retries initialDelay w
                (or_introl Ha)) as [(m & ->) _]. discriminate.
Qed.

Lemma image_call_origin (svc : Z -> Attempt GenerateImagesResponse) (term : string)
    (retries initialDelay : Z) (w : World) (bytes : string) :
  value (generateImageForWordWithGemini svc term retries initialDelay w)
  = Resolved (Some bytes) ->
  bytes <> ""
  /\ exists j, 0 <= j <= retries /\ completeImageResponse (svc j) bytes.
Proof.
  destruct (ai w) eqn:Ha; [destruct (isCurrentlyGeminiQuotaExhausted w) eqn:Hq|].
  - destruct (call_not_started_run (fun _ => Threw JNull) svc term retries initialDelay w
                (or_intror Hq)) as [_ (m & ->)]. discriminate.
  - rewrite image_call_attempts by assumption.
    destruct (started_settles ImageGeneration term None
                (fun j => classifyImage (svc j)) retries initialDelay (set_loading true w))
      as [(v & -> & Hv) | (j & e & thrown & _ & _ & _ & ->)]; [|discriminate].
    intros [= ->]. destruct Hv as [Hv|Hv]; [discriminate|].
    destruct (attempts_value_origin _ _ _ _ _ _ _ _ _ _ Hv)
      as [(j & Hj & Hc) | (Hd & _)]; [|discriminate].
    pose proof (classifyImage_complete _ _ Hc) as Hcomplete.
    split.
    + destruct Hcomplete as (response & _ & Hf).
      exact (firstImageBytes_nonempty _ _ Hf).
    + exists j. split; [lia|exact Hcomplete].
  - destruct (call_not_started_run (fun _ => Threw JNull) svc term retries initialDelay w
                (or_introl Ha)) as [_ (m & ->)]. discriminate.
Qed.

(** X25: what a call returns is what an attempt received.  A payload
    returned by the word lookup is either the complete payload of one of
    the attempts within the budget, or the object holding only the term,
    and then the last attempt of the budget was an incomplete answer; bytes
    returned by the image lookup are never empty and are the bytes of the
    first image of one of the attempts within the budget. *)
Theorem returned_payload_was_received
    (svcW : Z -> Attempt JsVal) (svcI : Z -> Attempt GenerateImagesResponse)
    (term : string) (retries initialDelay : Z) (w : World) :
  (forall data,
      value (generateWordDetailsWithGemini svcW term retries initialDelay w)
      = Resolved (Some data) ->
      (exists j, 0 <= j <= retries /\ completeWordPayload (svcW j) data)
      \/ (data = JObj [("term", JStr term)]
          /\ incompleteWordPayload (svcW retries)))
  /\ (forall bytes,
         value (generateImageForWordWithGemini svcI term retries initialDelay w)
         = Resolved (Some bytes) ->
         bytes <> ""
         /\ exists j, 0 <= j <= retries /\ completeImageResponse (svcI j) bytes).
Proof.
  split.
  - intros data Hv.
    destruct (word_call_origin svcW term retries initialDelay w data Hv)
      as [Hc | (He & _ & Hi)]; [now left|now right].
  - intros bytes Hv.
    exact (image_call_origin svcI term retries initialDelay w bytes Hv).
Qed.

Lemma returned_payload_was_received_witness :
  let photo := mkGenerateImagesResponse
                 (Some [mkGeneratedImage (Some (mkImage (Some "abc")))]) in
  let svcI := fun j : Z => if j =? 0 then @Threw GenerateImagesResponse (JStr "x")
                           else Returned photo in
  "abc" <> ""
  /\ exists j, 0 <= j <= 1 /\ completeImageResponse (svcI j) "abc".
Proof.
  intros photo svcI.
  exact (proj2 (returned_payload_was_received (fun _ => Threw JNull) svcI "cat" 1 8000
                  (initialWorld true)) "abc" eq_refl).
Defined.

Lemma not_filled_key (k : string) :
  ~ In k filledKeys -> existsb (String.eqb k) filledKeys = false.
Proof.
  intros Hk. destruct (existsb (String.eqb k) filledKeys) eqn:E; [|reflexivity].
  apply existsb_exists in E. destruct E as (x & Hx & E).
  apply String.eqb_eq in E. now subst x.
Qed.

Lemma term_holder_is_object (v : JsVal) (term : string) :
  get v "term" = JStr term -> exists fields, v = JObj fields.
Proof. destruct v; try discriminate. intros _. now eexists. Qed.

Lemma jsOr_truthy (a b : JsVal) : truthy a = true -> jsOr a b = a.
Proof. unfold jsOr. now intros ->. Qed.

Lemma truthy_nonblank (s : string) : s <> "" -> truthy (JStr s) = true.
Proof. intros Hs. cbn. now destruct (String.eqb_spec s ""). Qed.

(** X26: the AI buttons finish unless the call rejects.  With a term in
    the form, and a service whose thrown values the classifier reads, each
    of the three handlers completes with its busy mark down and shows no
    warning of its own, whatever the quota state; the image button leaves
    the word alone and ends with no picture or with the data URL of
    non-empty bytes that an attempt within its budget of two returned - with
    no picture whenever the call returned null, so the picture shown
    before is gone.  When the awaited call rejects, the handler is left at
    the [await]: its busy mark stays raised, and the image button has
    already dropped the picture. *)
Theorem ai_buttons_finish_unless_call_rejects
    (trim : string -> string) (svcW : Z -> Attempt JsVal)
    (svcI : Z -> Attempt GenerateImagesResponse)
    (manage : ManageState) (edit : EditState) (w : World) (tm te : string) :
  get (newWord manage) "term" = JStr tm -> trim tm <> "" ->
  get (editableWord edit) "term" = JStr te -> trim te <> "" ->
  (readableErrors svcW ->
   (exists filled,
       value (handleAIFill trim svcW manage w)
       = Completed (mkManageState filled false) [])
   /\ (exists filled,
          value (handleAIFillDetails trim svcW edit w)
          = Completed (mkEditState filled false (isFetchingModalAIImage edit)
                                   (modalAiImage edit)) []))
  /\ (readableErrors svcI ->
      exists picture,
        value (handleGenerateModalAiImage trim svcI edit w)
        = Completed (mkEditState (editableWord edit) (isFetchingModalAIDetails edit)
                                 false picture) []
        /\ (picture = None
            \/ exists bytes j,
                 bytes <> "" /\ 0 <= j <= 1
                 /\ completeImageResponse (svcI j) bytes
                 /\ picture = Some ("data:image/jpeg;base64," ++ bytes)%string)
        /\ (value (generateImageForWordWithGemini svcI (trim te) 1 8000 w)
            = Resolved None -> picture = None))
  /\ (forall thrown,
        value (generateWordDetailsWithGemini svcW (trim tm) 2 7000 w) = Rejected thrown ->
        value (handleAIFill trim svcW manage w)
        = Aborted (mkManageState (newWord manage) true))
  /\ (forall thrown,
        value (generateWordDetailsWithGemini svcW (trim te) 2 7000 w) = Rejected thrown ->
        value (handleAIFillDetails trim svcW edit w)
        = Aborted (mkEditState (editableWord edit) true (isFetchingModalAIImage edit)
                               (modalAiImage edit)))
  /\ (forall thrown,
        value (generateImageForWordWithGemini svcI (trim te) 1 8000 w) = Rejected thrown ->
        value (handleGenerateModalAiImage trim svcI edit w)
        = Aborted (mkEditState (editableWord edit) (isFetchingModalAIDetails edit)
                               true None)).
Proof.
  intros Hm Hnm He Hne.
  apply String.eqb_neq in Hnm, Hne.
  unfold handleAIFill, handleAIFillDetails, handleGenerateModalAiImage.
  rewrite Hm, He, Hnm, Hne. cbv zeta. rewrite !value_bind.
  split; [|split; [|split; [|split]]].
  - intros Hread.
    destruct (word_call_settles_or_rejects svcW (trim tm) 2 7000 w)
      as [(vm & ->) | (j & e & _ & Hs & Hstr & _)];
      [|exfalso; exact (readable_not_thrown svcW j e Hread Hs Hstr)].
    destruct (word_call_settles_or_rejects svcW (trim te) 2 7000 w)
      as [(ve & ->) | (j & e & _ & Hs & Hstr & _)];
      [|exfalso; exact (readable_not_thrown svcW j e Hread Hs Hstr)].
    split; [destruct vm|destruct ve]; eexists; reflexivity.
  - intros Hread.
    destruct (image_call_settles_or_rejects svcI (trim te) 1 8000 w)
      as [(vi & Hvi) | (j & e & _ & Hs & Hstr & _)];
      [|exfalso; exact (readable_not_thrown svcI j e Hread Hs Hstr)].
    rewrite Hvi. destruct vi as [bytes|].
    + destruct (image_call_origin svcI (trim te) 1 8000 w bytes Hvi)
        as (Hb & j & Hj & Hc).
      eexists. split; [reflexivity|]. split; [|discriminate].
      right. exists bytes, j. apply String.eqb_neq in Hb as Hb'. rewrite Hb'.
      now repeat split.
    + eexists. split; [reflexivity|]. split; [now left|reflexivity].
  - intros thrown ->. reflexivity.
  - intros thrown ->. reflexivity.
  - intros thrown ->. reflexivity.
Qed.

Lemma ai_buttons_finish_unless_call_rejects_witness :
  let unreadable := JObj [("toString", JNum 1)] in
  let edit := mkEditState (JObj [("term", JStr "cat")]) false false (Some "old") in
  value (handleGenerateModalAiImage (fun s => s) (fun _ => Threw unreadable) edit
                                    (initialWorld true))
  = Aborted (mkEditState (JObj [("term", JStr "cat")]) false true None).
Proof.
  intros unreadable edit.
  refine (proj2 (proj2 (proj2 (proj2
            (ai_buttons_finish_unless_call_rejects
               (fun s => s) (fun _ => Threw unreadable) (fun _ => Threw unreadable)
               (mkManageState (JObj [("term", JStr "cat")]) false) edit
               (initialWorld true) "cat" "cat" eq_refl _ eq_refl _))))
            typeErrorToPrimitive eq_refl);
    discriminate.
Defined.

Lemma degraded_word_call (svc : Z -> Attempt JsVal) (term : string) (w : World) :
  ai w = true ->
  isCurrentlyGeminiQuotaExhausted w = false ->
  (forall j, 0 <= j <= 2 -> incompleteWordPayload (svc j)) ->
  value (generateWordDetailsWithGemini svc term 2 7000 w)
  = Resolved (Some (JObj [("term", JStr term)]))
  /\ requestCount (emitted (generateWordDetailsWithGemini svc term 2 7000 w)) = 3%nat.
Proof.
  intros Ha Hq HW. rewrite word_call_attempts by assumption.
  assert (Hall : forall j, 0 <= j <= 2 -> retryable (classifyWord (svc j)) = true).
  { intros j Hj. now rewrite (incomplete_word_classified _ (HW j Hj)). }
  destruct (started_all_retryable WordDetails term (Some (JObj [("term", JStr term)]))
              (fun j => classifyWord (svc j)) 2 7000 w ltac:(lia) Hall)
    as (V & R & _).
  split; [|exact R]. rewrite V.
  now rewrite (incomplete_word_classified _ (HW 2 ltac:(lia))).
Qed.

(** X27: answers that stay incomplete wipe the add form and spare the
    edit form.  When all three attempts of the word lookup return an
    incomplete payload, the form of the manage screen ends with the trimmed
    term and with pronunciation, meaning, part of speech, example sentence
    and its meaning set to the empty string, whatever was typed there; the
    edit modal ends with the trimmed term and every other property as it
    was.  Both made three requests and have their busy mark down. *)
Theorem incomplete_answers_in_forms
    (trim : string -> string) (svc : Z -> Attempt JsVal)
    (manage : ManageState) (edit : EditState) (w : World) (tm te : string) :
  ai w = true ->
  isCurrentlyGeminiQuotaExhausted w = false ->
  (forall j, 0 <= j <= 2 -> incompleteWordPayload (svc j)) ->
  get (newWord manage) "term" = JStr tm -> trim tm <> "" ->
  get (editableWord edit) "term" = JStr te -> trim te <> "" ->
  (exists filled,
      value (handleAIFill trim svc manage w) = Completed (mkManageState filled false) []
      /\ requestCount (emitted (handleAIFill trim svc manage w)) = 3%nat
      /\ get filled "term" = JStr (trim tm)
      /\ (forall k, In k ["pronunciation"; "meaning"; "partOfSpeech";
                          "exampleSentence"; "exampleSentenceMeaning"] ->
                    get filled k = JStr "")
      /\ (forall k, ~ In k filledKeys -> get filled k = get (newWord manage) k))
  /\ (exists filled,
         value (handleAIFillDetails trim svc edit w)
         = Completed (mkEditState filled false (isFetchingModalAIImage edit)
                                  (modalAiImage edit)) []
         /\ requestCount (emitted (handleAIFillDetails trim svc edit w)) = 3%nat
         /\ get filled "term" = JStr (trim te)
         /\ (forall k, k <> "term" -> get filled k = get (editableWord edit) k)).
Proof.
  intros Ha Hq HW Hm Hnm He Hne.
  destruct (degraded_word_call svc (trim tm) w Ha Hq HW) as (Vm & Rm).
  destruct (degraded_word_call svc (trim te) w Ha Hq HW) as (Ve & Re).
  pose proof (term_holder_is_object _ _ Hm) as Om.
  pose proof (term_holder_is_object _ _ He) as Oe.
  pose proof (truthy_nonblank _ Hnm) as Tm.
  pose proof (truthy_nonblank _ Hne) as Te.
  apply String.eqb_neq in Hnm, Hne.
  unfold handleAIFill, handleAIFillDetails.
  rewrite Hm, He, Hnm, Hne, !value_bind, !emitted_bind, Vm, Ve.
  cbn [truthy ret value emitted]. rewrite !app_nil_r.
  split.
  - eexists. split; [reflexivity|]. split; [exact Rm|].
    split; [|split].
    + rewrite fillNewWord_get by exact Om. cbn [String.eqb Ascii.eqb Bool.eqb get lookup].
      now apply jsOr_truthy.
    + intros k Hk. rewrite fillNewWord_get by exact Om.
      cbn [In] in Hk.
      destruct Hk as [<- | [<- | [<- | [<- | [<- | []]]]]]; reflexivity.
    + intros k Hk. rewrite fillNewWord_get by exact Om.
      rewrite (not_filled_key k Hk).
      destruct (String.eqb_spec k "term") as [->|_]; [|reflexivity].
      exfalso. apply Hk. now left.
  - eexists. split; [reflexivity|]. split; [exact Re|].
    split.
    + rewrite fillEditableWord_get by exact Oe.
      cbn [existsb filledKeys String.eqb Ascii.eqb Bool.eqb orb get lookup].
      now apply jsOr_truthy.
    + intros k Hk. rewrite fillEditableWord_get by exact Oe.
      apply String.eqb_neq in Hk.
      destruct (existsb (String.eqb k) filledKeys); [|reflexivity].
      cbn [get lookup]. rewrite Hk. reflexivity.
Qed.

Lemma incomplete_answers_in_forms_witness :
  let svc := fun _ : Z => Returned (JObj [("meaning", JStr "cat")]) in
  let manage := mkManageState (JObj [("term", JStr " cat "); ("meaning", JStr "feline");
                                     ("isCustom", JBool true)]) false in
  exists filled,
    value (handleAIFill (fun _ => "cat") svc manage (initialWorld true))
    = Completed (mkManageState filled false) []
    /\ requestCount (emitted (handleAIFill (fun _ => "cat") svc manage
                                           (initialWorld true))) = 3%nat
    /\ get filled "term" = JStr "cat"
    /\ (forall k, In k ["pronunciation"; "meaning"; "partOfSpeech";
                        "exampleSentence"; "exampleSentenceMeaning"] ->
                  get filled k = JStr "")
    /\ (forall k, ~ In k filledKeys -> get filled k = get (newWord manage) k).
Proof.
  intros svc manage.
  assert (HW : forall j : Z, 0 <= j <= 2 -> incompleteWordPayload (svc j)).
  { intros j _. eexists. repeat split. }
  refine (proj1 (incomplete_answers_in_forms (fun _ => "cat") svc manage
                   (mkEditState (JObj [("term", JStr "cat")]) false false None)
                   (initialWorld true) " cat " "cat" eq_refl eq_refl HW
                   eq_refl _ eq_refl _));
    discriminate.
Defined.

Lemma complete_word_call (svc : Z -> Attempt JsVal) (term : string) (w : World)
    (k : nat) (data : JsVal) :
  ai w = true ->
  isCurrentlyGeminiQuotaExhausted w = false ->
  Z.of_nat k <= 2 ->
  (forall j, 0 <= j < Z.of_nat k -> retryable (classifyWord (svc j)) = true) ->
  completeWordPayload (svc (Z.of_nat k)) data ->
  value (generateWordDetailsWithGemini svc term 2 7000 w) = Resolved (Some data).
Proof.
  intros Ha Hq Hk Hf (Hs & Hn & Hm). rewrite word_call_attempts by assumption.
  refine (proj1 (started_complete_at WordDetails term (Some (JObj [("term", JStr term)]))
                   (fun j => classifyWord (svc j)) 2 7000 w k Hq Hk Hf data _)).
  cbn beta. rewrite Hs. cbn. now rewrite Hn, Hm.
Qed.

Lemma essential_fields_truthy (data : JsVal) :
  missingEssentialFields data = false ->
  truthy (get data "partOfSpeech") = true
  /\ truthy (get data "meaning") = true
  /\ truthy (get data "exampleSentence") = true.
Proof.
  unfold missingEssentialFields. intros H.
  apply orb_false_iff in H. destruct H as (H & H3).
  apply orb_false_iff in H. destruct H as (H1 & H2).
  apply negb_false_iff in H1, H2, H3. now repeat split.
Qed.

(** X28: a complete answer overwrites what was typed.  When an attempt
    within the budget of three brings a complete payload after failures
    that do not exhaust the quota, both forms take the payload's meaning,
    part of speech and example sentence in place of their own.  For the
    term, the pronunciation and the meaning of the example a value of the
    payload is taken when it is truthy; otherwise the term stays as typed
    (not trimmed) in both forms, and the other two become the empty string
    in the add form but keep their value in the edit modal.  No other
    property changes. *)
Theorem complete_answer_in_forms
    (trim : string -> string) (svc : Z -> Attempt JsVal)
    (manage : ManageState) (edit : EditState) (w : World) (tm te : string)
    (k : nat) (data : JsVal) :
  ai w = true ->
  isCurrentlyGeminiQuotaExhausted w = false ->
  Z.of_nat k <= 2 ->
  (forall j, 0 <= j < Z.of_nat k -> retryable (classifyWord (svc j)) = true) ->
  completeWordPayload (svc (Z.of_nat k)) data ->
  get (newWord manage) "term" = JStr tm -> trim tm <> "" ->
  get (editableWord edit) "term" = JStr te -> trim te <> "" ->
  (exists filled,
      value (handleAIFill trim svc manage w) = Completed (mkManageState filled false) []
      /\ (forall key, In key ["meaning"; "partOfSpeech"; "exampleSentence"] ->
                      get filled key = get data key)
      /\ get filled "term" = jsOr (get data "term") (JStr tm)
      /\ (forall key, In key ["pronunciation"; "exampleSentenceMeaning"] ->
                      get filled key = jsOr (get data key) (JStr ""))
      /\ (forall key, ~ In key filledKeys -> get filled key = get (newWord manage) key))
  /\ (exists filled,
         value (handleAIFillDetails trim svc edit w)
         = Completed (mkEditState filled false (isFetchingModalAIImage edit)
                                  (modalAiImage edit)) []
         /\ (forall key, In key ["meaning"; "partOfSpeech"; "exampleSentence"] ->
                         get filled key = get data key)
         /\ get filled "term" = jsOr (get data "term") (JStr te)
         /\ (forall key, In key ["pronunciation"; "exampleSentenceMeaning"] ->
                         get filled key
                         = jsOr (get data key) (get (editableWord edit) key))
         /\ (forall key, ~ In key filledKeys ->
                         get filled key = get (editableWord edit) key)).
Proof.
  intros Ha Hq Hk Hf Hc Hm Hnm He Hne.
  pose proof (complete_word_call svc (trim tm) w k data Ha Hq Hk Hf Hc) as Vm.
  pose proof (complete_word_call svc (trim te) w k data Ha Hq Hk Hf Hc) as Ve.
  destruct Hc as (_ & _ & Hfields).
  pose proof (complete_payload_truthy _ Hfields) as Td.
  destruct (essential_fields_truthy _ Hfields) as (T1 & T2 & T3).
  pose proof (term_holder_is_object _ _ Hm) as Om.
  pose proof (term_holder_is_object _ _ He) as Oe.
  apply String.eqb_neq in Hnm, Hne.
  unfold handleAIFill, handleAIFillDetails.
  rewrite Hm, He, Hnm, Hne, !value_bind, Vm, Ve, Td.
  cbn [ret value].
  split.
  - eexists. split; [reflexivity|]. split; [|split; [|split]].
    + intros key Hkey. rewrite fillNewWord_get by exact Om. cbn [In] in Hkey.
      destruct Hkey as [<- | [<- | [<- | []]]]; cbn [String.eqb Ascii.eqb Bool.eqb];
        cbn [existsb filledKeys String.eqb Ascii.eqb Bool.eqb orb];
        now apply jsOr_truthy.
    + rewrite fillNewWord_get by exact Om. cbn [String.eqb Ascii.eqb Bool.eqb].
      now rewrite Hm.
    + intros key Hkey. rewrite fillNewWord_get by exact Om. cbn [In] in Hkey.
      destruct Hkey as [<- | [<- | []]]; reflexivity.
    + intros key Hkey. rewrite fillNewWord_get by exact Om.
      rewrite (not_filled_key key Hkey).
      destruct (String.eqb_spec key "term") as [->|_]; [|reflexivity].
      exfalso. apply Hkey. now left.
  - eexists. split; [reflexivity|]. split; [|split; [|split]].
    + intros key Hkey. rewrite fillEditableWord_get by exact Oe. cbn [In] in Hkey.
      destruct Hkey as [<- | [<- | [<- | []]]];
        cbn [existsb filledKeys String.eqb Ascii.eqb Bool.eqb orb];
        now apply jsOr_truthy.
    + rewrite fillEditableWord_get by exact Oe.
      cbn [existsb filledKeys String.eqb Ascii.eqb Bool.eqb orb].
      now rewrite He.
    + intros key Hkey. rewrite fillEditableWord_get by exact Oe. cbn [In] in Hkey.
      destruct Hkey as [<- | [<- | []]]; reflexivity.
    + intros key Hkey. rewrite fillEditableWord_get by exact Oe.
      now rewrite (not_filled_key key Hkey).
Qed.

Lemma complete_answer_in_forms_witness :
  let cat := JObj [("partOfSpeech", JStr "noun"); ("meaning", JStr "cat");
                   ("exampleSentence", JStr "This is a cat.")] in
  let svc := fun j : Z => if j =? 0 then Threw (JStr "network down") else Returned cat in
  let edit := mkEditState (JObj [("term", JStr " cat "); ("meaning", JStr "feline");
                                 ("pronunciation", JStr "kat")]) false false None in
  exists filled,
    value (handleAIFillDetails (fun _ => "cat") svc edit (initialWorld true))
    = Completed (mkEditState filled false false None) []
    /\ (forall key, In key ["meaning"; "partOfSpeech"; "exampleSentence"] ->
                    get filled key = get cat key)
    /\ get filled "term" = jsOr (get cat "term") (JStr " cat ")
    /\ (forall key, In key ["pronunciation"; "exampleSentenceMeaning"] ->
                    get filled key = jsOr (get cat key) (get (editableWord edit) key))
    /\ (forall key, ~ In key filledKeys -> get filled key = get (editableWord edit) key).
Proof.
  intros cat svc edit.
  assert (Hf : forall j, 0 <= j < Z.of_nat 1 -> retryable (classifyWord (svc j)) = true).
  { intros j Hj. replace j with 0 by lia. reflexivity. }
  assert (Hc : completeWordPayload (svc (Z.of_nat 1)) cat) by (repeat split).
  refine (proj2 (complete_answer_in_forms (fun _ => "cat") svc
                   (mkManageState (JObj [("term", JStr "cat")]) false) edit
                   (initialWorld true) "cat" " cat " 1 cat eq_refl eq_refl _ Hf Hc
                   eq_refl _ eq_refl _));
    discriminate.
Defined.
